(** * warcraftlogs-discord-bot: change detection, token handling,
      pagination and death leaderboards

    A shallow embedding of the Go packages [bot/storage], [bot/warcraftlogs]
    and [bot/watcher], and of the handlers and the formatting of package
    [main].  Time instants are integers counting nanoseconds since the Unix
    epoch, [time.Duration] is a saturating 64-bit count of nanoseconds, Go's
    [int] and [int64] are integers with the wrap-around written out, maps
    are [gmap]s, slices are lists and strings are strings of bytes.
    Everything the program obtains from outside (the clock, the HTTP
    servers, the state of a context, the database transactions, Discord) is
    passed to the model as an explicit argument. *)

From Stdlib Require Import ZArith Lia.
From stdpp Require Import gmap strings list fin_maps sorting.



(** ** Machine integers, durations and instants *)

Definition wrap64 (z : Z) : Z := ((z + 2 ^ 63) mod 2 ^ 64 - 2 ^ 63)%Z.

Definition minDuration : Z := (- 2 ^ 63)%Z.
Definition maxDuration : Z := (2 ^ 63 - 1)%Z.

Definition Millisecond : Z := 1000000%Z.
Definition Second : Z := (1000 * Millisecond)%Z.
Definition Minute : Z := (60 * Second)%Z.
Definition Hour : Z := (60 * Minute)%Z.

(** [time.UnixMilli]: the instant of a millisecond timestamp. *)
Definition UnixMilli (msec : Z) : Z := (msec * Millisecond)%Z.

(** [Time.Sub]: the difference of two instants, saturated to the range of
    [time.Duration]. *)
Definition Sub (t u : Z) : Z :=
  if (t - u <? minDuration)%Z then minDuration
  else if (maxDuration <? t - u)%Z then maxDuration
  else (t - u)%Z.

(** [time.Since t], read at clock value [now]. *)
Definition Since (now t : Z) : Z := Sub now t.

(** ** Errors and results *)

Inductive Error : Type :=
| ErrTransport (msg : string)
| ErrOAuth (status : Z) (body : string)
| ErrRefreshAfter401 (cause : Error)
| ErrGraphqlStatus (status : Z) (body : string)
| ErrGraphql (message : string)
| ErrEmptyData
| ErrUnmarshal (msg : string)
| ErrEventsForFight (fight : Z) (cause : Error).

Inductive Result (A : Type) : Type :=
| Ok (a : A)
| Err (e : Error).

Arguments Ok {A} a.
Arguments Err {A} e.

(** ** Package storage *)

Module storage.

Record Server : Type := {
  ServerId : string;
  ChannelId : string;
  WlGuildId : Z;
  WipeCutoff : Z
}.

End storage.

(** ** Package warcraftlogs: data *)

Module warcraftlogs.

Record Difficulty : Type := {
  DifficultyName : string;
  Sizes : list Z
}.

Record Zone : Type := {
  ZoneName : string;
  Difficulties : list Difficulty
}.

Record Owner : Type := { OwnerName : string }.

Record Report : Type := {
  Code : string;
  Title : string;
  StartTime : Z;
  EndTime : Z;
  ReportOwner : Owner;
  ReportZone : Zone
}.

Record Fight : Type := {
  ID : Z;
  EncounterID : Z;
  FightName : string;
  FightStartTime : Z;
  FightEndTime : Z;
  FightDifficulty : Z;
  Kill : bool
}.

Record Target : Type := {
  TargetName : string;
  TargetServer : string
}.

Record DeathEvent : Type := {
  Timestamp : Z;
  Type_ : string;
  EventTarget : Target
}.

Record PlayerTop : Type := {
  Name : string;
  Value : Z
}.

Record ReportDetails : Type := {
  TopDeaths : list PlayerTop;
  TopFirstDeaths : list PlayerTop
}.

(** A [float64] is carried as its IEEE-754 binary64 encoding; the program
    only stores and forwards such values. *)
Definition float64 : Type := Z.

Inductive Var : Type :=
| VInt (z : Z)
| VFloat (f : float64)
| VString (s : string).

Record gqlReq : Type := {
  Query : string;
  Variables : gmap string Var
}.

Record tokenResp : Type := {
  AccessToken : string;
  ExpiresIn : Z;
  TokenType : string
}.

Record gqlError : Type := { Message : string }.

Record gqlEnvelope : Type := {
  Data : string;
  Errors : list gqlError
}.

(** What resty hands back for a POST to the token endpoint: the status, the
    raw body and the decoded result. *)
Record TokenResponse : Type := {
  TokenStatusCode : Z;
  TokenBody : string;
  TokenResult : tokenResp
}.

(** What resty hands back for a POST to the GraphQL endpoint. *)
Record Response : Type := {
  StatusCode : Z;
  Body : string;
  Envelope : gqlEnvelope
}.

(** A request as it leaves [doOnce]: the bearer token and the body. *)
Record Request : Type := {
  AuthToken : string;
  ReqBody : gqlReq
}.

(** [resty.Response.IsError]: a status above 399. *)
Definition IsError (status : Z) : bool := (399 <? status)%Z.

(** *** The client and the world around one call *)

Record Client : Type := {
  token : string;
  expiresAt : Z
}.

(** The environment of a call: successive readings of the clock, the
    outcomes of successive POSTs to the token endpoint and to the GraphQL
    endpoint, and what the other goroutines sharing the client have done to
    it by the time this call acquires the lock for the k-th time. *)
Record Net : Type := {
  clock : nat -> Z;
  oauth : nat -> Result TokenResponse;
  graphql : nat -> Request -> Result Response;
  others : nat -> Client -> Client
}.

(** The run-time state threaded through a call: the client, and how much
    of the environment has been consumed so far. *)
Record Run : Type := {
  client : Client;
  clockReads : nat;
  exchanges : nat;
  lockings : nat;
  posted : list Request
}.

Definition M (A : Type) : Type := Run -> A * Run.

Definition ret {A} (a : A) : M A := fun s => (a, s).

Definition bind {A B} (m : M A) (k : A -> M B) : M B :=
  fun s => let '(a, s') := m s in k a s'.

Notation "'call' x <- m ; k" := (bind m (fun x => k))
  (at level 10, x name, m at level 100, k at level 200).
Notation "'exec' m ; k" := (bind m (fun _ => k))
  (at level 10, m at level 100, k at level 200).

Section ClientCalls.

Variable net : Net.

(** [time.Now()] *)
Definition Now : M Z :=
  fun s => (clock net (clockReads s),
            {| client := client s; clockReads := S (clockReads s);
               exchanges := exchanges s; lockings := lockings s;
               posted := posted s |}).

(** Acquiring [c.mu] anew: whatever the other goroutines did to the client
    since this call last held the lock is visible from here on. *)
Definition acquire : M unit :=
  fun s => (tt,
            {| client := others net (lockings s) (client s);
               clockReads := clockReads s; exchanges := exchanges s;
               lockings := S (lockings s); posted := posted s |}).

Definition getClient : M Client := fun s => (client s, s).

Definition setClient (c : Client) : M unit :=
  fun s => (tt,
            {| client := c; clockReads := clockReads s;
               exchanges := exchanges s; lockings := lockings s;
               posted := posted s |}).

(** The POST to the token URL itself. *)
Definition postToken : M (Result TokenResponse) :=
  fun s => (oauth net (exchanges s),
            {| client := client s; clockReads := clockReads s;
               exchanges := S (exchanges s); lockings := lockings s;
               posted := posted s |}).

(** The POST to the GraphQL URL itself. *)
Definition postGraphQL (rq : Request) : M (Result Response) :=
  fun s => (graphql net (length (posted s)) rq,
            {| client := client s; clockReads := clockReads s;
               exchanges := exchanges s; lockings := lockings s;
               posted := posted s ++ [rq] |}).

Definition tokenSkew : Z := (60 * Second)%Z.

(** [tok != "" && time.Now().Add(tokenSkew).Before(exp)]; the clock is read
    only when the token is not empty. *)
Definition fresh (tok : string) (exp : Z) : M bool :=
  if decide (tok = "") then ret false
  else call now <- Now ; ret (now + tokenSkew <? exp)%Z.

Definition getToken : M (Result (string * Z)) :=
  call r <- postToken ;
  match r with
  | Err e => ret (Err e)
  | Ok resp =>
      if IsError (TokenStatusCode resp)
      then ret (Err (ErrOAuth (TokenStatusCode resp) (TokenBody resp)))
      else
        call now <- Now ;
        ret (Ok (AccessToken (TokenResult resp),
                 (now + wrap64 (wrap64 (ExpiresIn (TokenResult resp)) * Second))%Z))
  end.

(** [refreshToken] takes the lock for writing and keeps it to the end, the
    credential exchange included. *)
Definition refreshToken : M (Result unit) :=
  exec acquire ;
  call c <- getClient ;
  call ok <- fresh (token c) (expiresAt c) ;
  if ok then ret (Ok tt)
  else
    call r <- getToken ;
    match r with
    | Err e => ret (Err e)
    | Ok (tok, exp) =>
        exec setClient {| token := tok; expiresAt := exp |} ;
        ret (Ok tt)
    end.

(** [ensureToken] reads token and expiry under the read lock, as it finds
    them on entry, and checks them after releasing it. *)
Definition ensureToken : M (Result unit) :=
  call c <- getClient ;
  call ok <- fresh (token c) (expiresAt c) ;
  if ok then ret (Ok tt) else refreshToken.

(** [doOnce] reads the token under the read lock and posts the request. *)
Definition doOnce (reqBody : gqlReq) : M (Result Response) :=
  exec acquire ;
  call c <- getClient ;
  postGraphQL {| AuthToken := token c; ReqBody := reqBody |}.

(** The tail of [gql], from [resp.IsError()] on.  [out] is the destination:
    [None] for a nil destination, otherwise the decoder that
    [json.Unmarshal] runs on the data payload. *)
Definition gqlFinish {A} (out : option (string -> Result A)) (resp : Response)
  : Result A :=
  if IsError (StatusCode resp)
  then Err (ErrGraphqlStatus (StatusCode resp) (Body resp))
  else
    match Errors (Envelope resp) with
    | e :: _ => Err (ErrGraphql (Message e))
    | [] =>
        match out with
        | None => Err ErrEmptyData
        | Some unmarshal =>
            if decide (Data (Envelope resp) = "") then Err ErrEmptyData
            else if decide (Data (Envelope resp) = "null") then Err ErrEmptyData
            else unmarshal (Data (Envelope resp))
        end
    end.

Definition gql {A} (query : string) (vars : gmap string Var)
    (out : option (string -> Result A)) : M (Result A) :=
  call t <- ensureToken ;
  match t with
  | Err e => ret (Err e)
  | Ok _ =>
      let reqBody := {| Query := query; Variables := vars |} in
      call r <- doOnce reqBody ;
      match r with
      | Err e => ret (Err e)
      | Ok resp =>
          if decide (StatusCode resp = 401%Z) then
            call t' <- refreshToken ;
            match t' with
            | Err e => ret (Err (ErrRefreshAfter401 e))
            | Ok _ =>
                call r' <- doOnce reqBody ;
                match r' with
                | Err e => ret (Err e)
                | Ok resp' => ret (gqlFinish out resp')
                end
            end
          else ret (gqlFinish out resp)
      end
  end.

End ClientCalls.

(** *** Sorting

    [sort.SliceStable] is a stable sort, and the result of a stable sort is
    determined by the input and the ordering; it is written here as an
    insertion sort.  [less] is the comparison closure. *)

Fixpoint insertStable {A} (less : A -> A -> bool) (x : A) (l : list A) : list A :=
  match l with
  | [] => [x]
  | y :: l' => if less y x then y :: insertStable less x l' else x :: y :: l'
  end.

Fixpoint SliceStable {A} (less : A -> A -> bool) (l : list A) : list A :=
  match l with
  | [] => []
  | x :: l' => insertStable less x (SliceStable less l')
  end.

(** *** Death events of one fight *)

Record eventsPage : Type := {
  EventsData : list string;
  NextPageTimestamp : option float64
}.

Inductive Warning : Type :=
| WarnUnmarshalDeathEvent
| WarnMaxPages (maxPages : nat).

Definition maxPages : nat := 10.

(** The variables of the events query. *)
Definition eventsVars (reportCode : string) (fightId wipeCutoff : Z)
    (pageTimestamp : option float64) : gmap string Var :=
  let vars : gmap string Var :=
    <["code" := VString reportCode]>
      (<["fightId" := VInt fightId]>
         (<["wipeCutoff" := VInt wipeCutoff]> ∅)) in
  match pageTimestamp with
  | Some ts => <["startTime" := VFloat ts]> vars
  | None => vars
  end.

Section DeathEvents.

(** [json.Unmarshal(raw, &ev)]: [None] when the record does not parse. *)
Variable unmarshalDeathEvent : string -> option DeathEvent.

(** [sort.Slice(deaths, ...)], comparing timestamps with [<]; it is not a
    stable sort, and which sorted arrangement it returns is left to the
    library. *)
Variable sortSlice : list DeathEvent -> list DeathEvent.

(** The outcome of the k-th [c.gql] call made by one [getDeathEvents]. *)
Variable gqlEvents : nat -> gmap string Var -> Result eventsPage.

(** The inner loop over the raw records of one page. *)
Fixpoint appendEvents (data : list string) (deaths : list DeathEvent)
    (warns : list Warning) : list DeathEvent * list Warning :=
  match data with
  | [] => (deaths, warns)
  | raw :: data' =>
      match unmarshalDeathEvent raw with
      | None => appendEvents data' deaths (warns ++ [WarnUnmarshalDeathEvent])
      | Some ev => appendEvents data' (deaths ++ [ev]) warns
      end
  end.

(** The [for] loop of [getDeathEvents].  [fuel] bounds the number of
    iterations; [None] means the bound was not enough. *)
Fixpoint pagesLoop (fuel : nat) (reportCode : string) (fightId wipeCutoff : Z)
    (pageTimestamp : option float64) (pageCount : nat)
    (deaths : list DeathEvent) (warns : list Warning)
  : option (Result (list DeathEvent) * list Warning) :=
  match fuel with
  | O => None
  | S fuel' =>
      match gqlEvents pageCount
              (eventsVars reportCode fightId wipeCutoff pageTimestamp) with
      | Err e => Some (Err e, warns)
      | Ok out =>
          let '(deaths', warns') := appendEvents (EventsData out) deaths warns in
          match NextPageTimestamp out with
          | None => Some (Ok deaths', warns')
          | Some ts =>
              let pageCount' := S pageCount in
              if maxPages <=? pageCount'
              then Some (Ok deaths', warns' ++ [WarnMaxPages maxPages])
              else pagesLoop fuel' reportCode fightId wipeCutoff (Some ts)
                     pageCount' deaths' warns'
          end
      end
  end.

Definition getDeathEvents (fuel : nat) (reportCode : string)
    (fightId wipeCutoff : Z)
  : option (Result (list DeathEvent) * list Warning) :=
  match pagesLoop fuel reportCode fightId wipeCutoff None 0 [] [] with
  | None => None
  | Some (Err e, warns) => Some (Err e, warns)
  | Some (Ok deaths, warns) => Some (Ok (sortSlice deaths), warns)
  end.

End DeathEvents.

(** *** Leaderboards *)

(** The closure [inc]: [lst] is the slice behind the pointer and [idx] its
    index map.  [None] is the run-time panic of an index out of range. *)
Definition inc (lst : list PlayerTop) (idx : gmap string nat) (name : string)
  : option (list PlayerTop * gmap string nat) :=
  if decide (name = "") then Some (lst, idx)
  else
    match idx !! name with
    | Some i =>
        match lst !! i with
        | Some p =>
            Some (<[i := {| Name := Name p; Value := wrap64 (Value p + 1) |}]> lst,
                  idx)
        | None => None
        end
    | None =>
        Some (lst ++ [{| Name := name; Value := 1 |}],
              <[name := length lst]> idx)
    end.

Record Counters : Type := {
  totalDeaths : list PlayerTop;
  firstDeaths : list PlayerTop;
  totalIdx : gmap string nat;
  firstIdx : gmap string nat
}.

Definition noCounters : Counters :=
  {| totalDeaths := []; firstDeaths := []; totalIdx := ∅; firstIdx := ∅ |}.

(** The loop over the events of one fight. *)
Fixpoint eventsLoop (events : list DeathEvent) (firstTaken : bool)
    (st : Counters) : option Counters :=
  match events with
  | [] => Some st
  | ev :: events' =>
      let name := TargetName (EventTarget ev) in
      if decide (name = "") then eventsLoop events' firstTaken st
      else
        match inc (totalDeaths st) (totalIdx st) name with
        | None => None
        | Some (total, tidx) =>
            if firstTaken
            then eventsLoop events' firstTaken
                   {| totalDeaths := total; firstDeaths := firstDeaths st;
                      totalIdx := tidx; firstIdx := firstIdx st |}
            else
              match inc (firstDeaths st) (firstIdx st) name with
              | None => None
              | Some (first, fidx) =>
                  eventsLoop events' true
                    {| totalDeaths := total; firstDeaths := first;
                       totalIdx := tidx; firstIdx := fidx |}
              end
        end
  end.

Definition lessByValue (a b : PlayerTop) : bool := (Value b <? Value a)%Z.

Definition N : nat := 5.

(** [if len(l) > N { l = l[:N] }] *)
Definition truncate (l : list PlayerTop) : list PlayerTop :=
  if N <? length l then take N l else l.

Section TopDeaths.

Variable unmarshalDeathEvent : string -> option DeathEvent.
Variable sortSlice : list DeathEvent -> list DeathEvent.

(** The outcome of [c.GetBossFights]. *)
Variable bossFights : Result (list Fight).

(** The outcome of the k-th [c.gql] call made by [getDeathEvents] for the
    fight at position [i] of the list of fights. *)
Variable gqlEvents : nat -> nat -> gmap string Var -> Result eventsPage.

(** The loop over the fights; [i] is the position of the first of them. *)
Fixpoint fightsLoop (fuel : nat) (reportCode : string) (wipeCutoff : Z)
    (fights : list Fight) (i : nat) (st : Counters)
  : option (Result Counters) :=
  match fights with
  | [] => Some (Ok st)
  | f :: fights' =>
      match getDeathEvents unmarshalDeathEvent sortSlice (gqlEvents i)
              fuel reportCode (ID f) wipeCutoff with
      | None => None
      | Some (Err e, _) => Some (Err (ErrEventsForFight (ID f) e))
      | Some (Ok events, _) =>
          match eventsLoop events false st with
          | None => None
          | Some st' => fightsLoop fuel reportCode wipeCutoff fights' (S i) st'
          end
      end
  end.

(** [None]: the call does not return (a panic, or a loop that outlives its
    fuel). *)
Definition TopDeathsForReport (fuel : nat) (reportCode : string)
    (wipeCutoff : Z) : option (Result ReportDetails) :=
  match bossFights with
  | Err e => Some (Err e)
  | Ok [] => Some (Ok {| TopDeaths := []; TopFirstDeaths := [] |})
  | Ok fights =>
      match fightsLoop fuel reportCode wipeCutoff fights 0 noCounters with
      | None => None
      | Some (Err e) => Some (Err e)
      | Some (Ok st) =>
          Some (Ok {| TopDeaths :=
                        truncate (SliceStable lessByValue (totalDeaths st));
                      TopFirstDeaths :=
                        truncate (SliceStable lessByValue (firstDeaths st)) |})
      end
  end.

End TopDeaths.

End warcraftlogs.

(** ** Package watcher *)

Module watcher.

Import warcraftlogs.

Record StatsEvent : Type := {
  Server : storage.Server;
  ReportId : string;
  EventTitle : string;
  EventZone : string;
  URL : string;
  Live : bool;
  TopDPS : list PlayerTop;
  TopHPS : list PlayerTop;
  TopDeath : list PlayerTop;
  TopFirstDeath : list PlayerTop;
  StartedBy : string;
  StartedAt : Z;
  LastUpload : Z
}.

Record CachedReport : Type := {
  code : string;
  endTime : Z;
  isLive : bool
}.

(** *** The supervisor

    A context made by [context.WithCancel] is named by a number; [contexts]
    counts the contexts made so far.  [watched] is the [sync.Map] from guild
    identifier to the cancel function of a context, [loops] lists the
    [watchLoop] goroutines started (context and server, in order of
    starting), [cancelled] the contexts whose cancel function has been
    called.  [LoadOrStore] and [LoadAndDelete] are atomic, so that a call of
    [Watch] or [Unwatch] acts on this state in one step. *)

Record Watcher : Type := {
  watched : gmap string nat;
  contexts : nat;
  loops : list (nat * storage.Server);
  cancelled : list nat
}.

Definition New : Watcher :=
  {| watched := ∅; contexts := 0; loops := []; cancelled := [] |}.

Definition Watch (w : Watcher) (server : storage.Server) : Watcher :=
  let ctx := contexts w in
  match watched w !! storage.ServerId server with
  | Some _ =>
      {| watched := watched w; contexts := S ctx;
         loops := loops w; cancelled := cancelled w |}
  | None =>
      {| watched := <[storage.ServerId server := ctx]> (watched w);
         contexts := S ctx;
         loops := loops w ++ [(ctx, server)];
         cancelled := cancelled w |}
  end.

Definition Unwatch (w : Watcher) (serverId : string) : Watcher :=
  match watched w !! serverId with
  | Some cancel =>
      {| watched := delete serverId (watched w); contexts := contexts w;
         loops := loops w; cancelled := cancel :: cancelled w |}
  | None => w
  end.

(** The loops of guild [g] whose context has not been cancelled. *)
Definition activeLoops (w : Watcher) (g : string) : list (nat * storage.Server) :=
  filter (fun l => storage.ServerId l.2 = g ∧ l.1 ∉ cancelled w) (loops w).

(** The loops ever started for guild [g]. *)
Definition startedLoops (w : Watcher) (g : string) : list (nat * storage.Server) :=
  filter (fun l => storage.ServerId l.2 = g) (loops w).

Inductive Op : Type :=
| OpWatch (server : storage.Server)
| OpUnwatch (serverId : string).

Definition perform (w : Watcher) (o : Op) : Watcher :=
  match o with
  | OpWatch server => Watch w server
  | OpUnwatch serverId => Unwatch w serverId
  end.

Definition performAll (w : Watcher) (os : list Op) : Watcher :=
  foldl perform w os.

(** *** The raid filter *)

(** The closure handed to [slices.DeleteFunc]: [true] deletes the report. *)
Fixpoint noMythic20 (difficulties : list Difficulty) : bool :=
  match difficulties with
  | [] => true
  | difficulty :: rest =>
      if bool_decide (DifficultyName difficulty = "Mythic")
         && bool_decide (length (Sizes difficulty) = 1)
         && bool_decide (Sizes difficulty !! 0 = Some 20%Z)
      then false
      else noMythic20 rest
  end.

(** [slices.DeleteFunc]: the elements for which [del] is false, in order. *)
Fixpoint DeleteFunc {A} (s : list A) (del : A -> bool) : list A :=
  match s with
  | [] => []
  | x :: s' => if del x then DeleteFunc s' del else x :: DeleteFunc s' del
  end.

Definition deleteNonRaid (reports : list Report) : list Report :=
  DeleteFunc reports (fun report => noMythic20 (Difficulties (ReportZone report))).

(** *** The change detector *)

Inductive LogRecord : Type :=
| LogErrorLoadingReports (guild : Z) (e : Error)
| LogLoadedReports (len : nat)
| LogOldReport (report : string)
| LogErrorFetchingDetails (report : string)
| LogLoadedDetails (report : string)
| LogNewLiveReport (report : string)
| LogReportHasChanges (report : string)
| LogReportWentOffline (report : string)
| LogNoChanges (report : string).

(** The state of one watch loop: its cache of reports, the events handed to
    the handler so far, the reports whose details have been asked for, and
    the log. *)
Record Loop : Type := {
  reportsCache : gmap string CachedReport;
  handled : list StatsEvent;
  detailsAsked : list string;
  logged : list LogRecord
}.

(** What one iteration over a report meets outside: the clock at
    [time.Since], the outcome of [TopDeathsForReport] should the iteration
    ask for it, and whether the context is done when [sendUpdate] looks. *)
Record Tick : Type := {
  now : Z;
  details : Result ReportDetails;
  ctxDone : bool
}.

Definition isOutdated (now : Z) (report : Report) : bool :=
  (15 * Minute <? Since now (UnixMilli (EndTime report)))%Z.

Definition statsEvent (server : storage.Server) (isLive : bool)
    (report : Report) (details : ReportDetails) : StatsEvent :=
  {| Server := server;
     ReportId := Code report;
     EventTitle := Title report;
     EventZone := ZoneName (ReportZone report);
     URL := "https://www.warcraftlogs.com/reports/" +:+ Code report;
     Live := isLive;
     TopDPS := [];
     TopHPS := [];
     TopDeath := TopDeaths details;
     TopFirstDeath := TopFirstDeaths details;
     StartedBy := OwnerName (ReportOwner report);
     StartedAt := UnixMilli (StartTime report);
     LastUpload := UnixMilli (EndTime report) |}.

Definition sendUpdate (ctxDone : bool) (server : storage.Server) (isLive : bool)
    (report : Report) (details : ReportDetails) (l : Loop) : Loop :=
  if ctxDone then l
  else
    {| reportsCache := reportsCache l;
       handled := handled l ++ [statsEvent server isLive report details];
       detailsAsked := detailsAsked l;
       logged := logged l |}.

Definition log (r : LogRecord) (l : Loop) : Loop :=
  {| reportsCache := reportsCache l; handled := handled l;
     detailsAsked := detailsAsked l; logged := logged l ++ [r] |}.

Definition askDetails (report : Report) (l : Loop) : Loop :=
  {| reportsCache := reportsCache l; handled := handled l;
     detailsAsked := detailsAsked l ++ [Code report]; logged := logged l |}.

(** [reportsCache.Set(report.Code, lr, ttlcache.DefaultTTL)] *)
Definition cacheSet (lr : CachedReport) (l : Loop) : Loop :=
  {| reportsCache := <[code lr := lr]> (reportsCache l); handled := handled l;
     detailsAsked := detailsAsked l; logged := logged l |}.

(** The body of the loop over the reports. *)
Definition checkReport (t : Tick) (server : storage.Server) (report : Report)
    (l : Loop) : Loop :=
  let isOutdated := isOutdated (now t) report in
  match reportsCache l !! Code report with
  | None =>
      if isOutdated then log (LogOldReport (Code report)) l
      else
        let l := askDetails report l in
        match details t with
        | Err _ => log (LogErrorFetchingDetails (Code report)) l
        | Ok details =>
            let l := log (LogLoadedDetails (Code report)) l in
            let l := log (LogNewLiveReport (Code report)) l in
            let l := sendUpdate (ctxDone t) server true report details l in
            cacheSet {| code := Code report; endTime := EndTime report;
                        isLive := true |} l
        end
  | Some cachedReport =>
      if negb (endTime cachedReport =? EndTime report)%Z then
        let l := askDetails report l in
        match details t with
        | Err _ => log (LogErrorFetchingDetails (Code report)) l
        | Ok details =>
            let l := log (LogLoadedDetails (Code report)) l in
            let l := log (LogReportHasChanges (Code report)) l in
            let l := sendUpdate (ctxDone t) server (negb isOutdated) report
                       details l in
            cacheSet {| code := Code report; endTime := EndTime report;
                        isLive := negb isOutdated |} l
        end
      else if isLive cachedReport && isOutdated then
        let l := askDetails report l in
        match details t with
        | Err _ => log (LogErrorFetchingDetails (Code report)) l
        | Ok details =>
            let l := log (LogLoadedDetails (Code report)) l in
            let l := log (LogReportWentOffline (Code report)) l in
            let l := sendUpdate (ctxDone t) server false report details l in
            cacheSet {| code := Code report; endTime := EndTime report;
                        isLive := false |} l
        end
      else log (LogNoChanges (Code report)) l
  end.

(** The loop over the reports; [i] is the position of the first of them, and
    [ticks i] what the i-th iteration meets. *)
Fixpoint checkReports (ticks : nat -> Tick) (server : storage.Server)
    (reports : list Report) (i : nat) (l : Loop) : Loop :=
  match reports with
  | [] => l
  | report :: reports' =>
      checkReports ticks server reports' (S i)
        (checkReport (ticks i) server report l)
  end.

(** [found] is the outcome of [FindReports]. *)
Definition checkChanges (found : Result (list Report)) (ticks : nat -> Tick)
    (server : storage.Server) (l : Loop) : Loop :=
  match found with
  | Err e => log (LogErrorLoadingReports (storage.WlGuildId server) e) l
  | Ok reports =>
      let reports := deleteNonRaid reports in
      let l := log (LogLoadedReports (length reports)) l in
      checkReports ticks server reports 0 l
  end.

(** What happens to a watch loop: a poll cycle, or the cache dropping an
    entry whose time to live has passed. *)
Inductive Happening : Type :=
| Cycle (found : Result (list Report)) (ticks : nat -> Tick)
| Expire (report : string).

Definition happen (server : storage.Server) (l : Loop) (h : Happening) : Loop :=
  match h with
  | Cycle found ticks => checkChanges found ticks server l
  | Expire report =>
      {| reportsCache := delete report (reportsCache l); handled := handled l;
         detailsAsked := detailsAsked l; logged := logged l |}
  end.

Definition newLoop : Loop :=
  {| reportsCache := ∅; handled := []; detailsAsked := []; logged := [] |}.

Definition watchLoop (server : storage.Server) (hs : list Happening) : Loop :=
  foldl (happen server) newLoop hs.

End watcher.

(** * Vocabulary of the statements *)

Import warcraftlogs watcher.

(** A report qualifies when its zone lists a difficulty named "Mythic"
    whose sizes are exactly the one size 20. *)
Definition isMythic20 (report : Report) : Prop :=
  Exists (fun d => DifficultyName d = "Mythic" ∧ Sizes d = [20%Z])
         (Difficulties (ReportZone report)).

#[global] Instance isMythic20_dec report : Decision (isMythic20 report).
Proof. unfold isMythic20. apply _. Defined.

(** The shape that the three fetching branches of [checkReport] share:
    fetch, give up on an error, otherwise log, send and cache. *)
Definition fetchSendCache (t : Tick) (server : storage.Server)
    (report : Report) (isLive : bool) (why : LogRecord) (l : Loop) : Loop :=
  let l := askDetails report l in
  match details t with
  | Err _ => log (LogErrorFetchingDetails (Code report)) l
  | Ok d =>
      let l := log (LogLoadedDetails (Code report)) l in
      let l := log why l in
      let l := sendUpdate (ctxDone t) server isLive report d l in
      cacheSet {| code := Code report; endTime := EndTime report;
                  isLive := isLive |} l
  end.

(** The update that an emitting branch hands to the handler: none when the
    context is already done. *)
Definition delivered (t : Tick) (server : storage.Server) (isLive : bool)
    (report : Report) (d : ReportDetails) : list StatsEvent :=
  if ctxDone t then [] else [statsEvent server isLive report d].

Definition cached (report : Report) (live : bool) : CachedReport :=
  {| code := Code report; endTime := EndTime report; isLive := live |}.

(** Iterations of the loop body over any reports with any surroundings;
    the reports of one cycle are one such run, and so are those of several
    cycles in a row. *)
Definition iterate (server : storage.Server) (its : list (Tick * Report))
    (l : Loop) : Loop :=
  foldl (fun l it => checkReport it.1 server it.2 l) l its.

(** The branch that an iteration takes, and the liveness it reports, as
    decided by the cache and the clock alone: [None] for the two branches
    that neither fetch nor emit. *)
Definition verdict (t : Tick) (report : Report) (l : Loop) : option bool :=
  match reportsCache l !! Code report with
  | None => if isOutdated (now t) report then None else Some true
  | Some c =>
      if decide (endTime c = EndTime report)
      then if isLive c && isOutdated (now t) report then Some false else None
      else Some (negb (isOutdated (now t) report))
  end.




(** The events that [l'] has handed over beyond those of [l]. *)
Definition newEvents (l l' : Loop) : list StatsEvent :=
  drop (length (handled l)) (handled l').

(** *** Sample data *)

Definition guild1 : storage.Server :=
  {| storage.ServerId := "guild-1"; storage.ChannelId := "raid-logs";
     storage.WlGuildId := 42; storage.WipeCutoff := 3 |}.

Definition mythicZone : Zone :=
  {| ZoneName := "Manaforge Omega";
     Difficulties :=
       [ {| DifficultyName := "Heroic"; Sizes := [10; 30]%Z |};
         {| DifficultyName := "Mythic"; Sizes := [20]%Z |} ] |}.

Definition flexZone : Zone :=
  {| ZoneName := "Manaforge Omega";
     Difficulties :=
       [ {| DifficultyName := "Heroic"; Sizes := [10; 30]%Z |};
         {| DifficultyName := "Mythic"; Sizes := [20; 25]%Z |} ] |}.

Definition reportABC (endTime : Z) : Report :=
  {| Code := "ABC"; Title := "Wednesday raid"; StartTime := 1000;
     EndTime := endTime; ReportOwner := {| OwnerName := "Thrall" |};
     ReportZone := mythicZone |}.

Definition reportFlex : Report :=
  {| Code := "XYZ"; Title := "Alt run"; StartTime := 1000; EndTime := 5000;
     ReportOwner := {| OwnerName := "Jaina" |}; ReportZone := flexZone |}.

Definition detailsABC : ReportDetails :=
  {| TopDeaths := [ {| Name := "Leeroy"; Value := 3 |} ];
     TopFirstDeaths := [ {| Name := "Leeroy"; Value := 2 |} ] |}.

(** A report last uploaded at millisecond [endTime], seen [age] minutes
    later. *)
Definition tickAt (endTime age : Z) (details : Result ReportDetails)
    (ctxDone : bool) : Tick :=
  {| now := (UnixMilli endTime + age * Minute)%Z; details := details;
     ctxDone := ctxDone |}.


(** What every state of the supervisor satisfies: a watched guild maps to a
    context that is not cancelled and belongs to a started loop of that
    guild; a loop whose context is not cancelled is the one its guild maps
    to; contexts are numbered below [contexts] and no two loops share one. *)
Definition supervised (w : Watcher) : Prop :=
  (∀ g h, watched w !! g = Some h ->
     (h ∉ cancelled w) ∧ (∃ s, (h, s) ∈ loops w ∧ storage.ServerId s = g)) ∧
  (∀ h s, (h, s) ∈ loops w ->
     h < contexts w ∧
     (h ∉ cancelled w -> watched w !! storage.ServerId s = Some h)) ∧
  (∀ h, h ∈ cancelled w -> h < contexts w) ∧
  NoDup ((loops w).*1).

(** The freshness condition on a stored token at clock value [now]: the
    token is not empty and expires more than 60 seconds after [now]. *)
Definition Fresh (c : Client) (now : Z) : Prop :=
  token c ≠ "" ∧ (now + 60 * Second < expiresAt c)%Z.

(** The number of clock readings behind once the freshness of [c] has been
    checked: the check reads the clock unless the token is empty. *)
Definition readsAfterCheck (c : Client) (reads : nat) : nat :=
  if decide (token c = "") then reads else S reads.

(** The state in which a call of [ensureToken] or [refreshToken] returns
    without having touched the token endpoint or the client. *)
Definition tokenKept (c : Client) (reads : nat) (lockings : nat) (s : Run)
  : Run :=
  {| client := c; clockReads := reads; exchanges := exchanges s;
     lockings := lockings; posted := posted s |}.

(** What the one credential exchange of a refresh leads to, from the client
    [c] found under the lock and with [reads] clock readings behind. *)
Definition exchanged (net : Net) (c : Client) (reads : nat) (lockings : nat)
    (s : Run) : Result unit * Run :=
  match oauth net (exchanges s) with
  | Err e =>
      (Err e,
       {| client := c; clockReads := reads; exchanges := S (exchanges s);
          lockings := lockings; posted := posted s |})
  | Ok resp =>
      if IsError (TokenStatusCode resp)
      then (Err (ErrOAuth (TokenStatusCode resp) (TokenBody resp)),
            {| client := c; clockReads := reads; exchanges := S (exchanges s);
               lockings := lockings; posted := posted s |})
      else (Ok tt,
            {| client :=
                 {| token := AccessToken (TokenResult resp);
                    expiresAt :=
                      (clock net reads
                       + wrap64 (wrap64 (ExpiresIn (TokenResult resp)) * Second))%Z |};
               clockReads := S reads; exchanges := S (exchanges s);
               lockings := lockings; posted := posted s |})
  end.

Definition startRun (c : Client) : Run :=
  {| client := c; clockReads := 0; exchanges := 0; lockings := 0;
     posted := [] |}.

(** A world in which the clock stands a thousand seconds after the epoch
    and advances a nanosecond per reading, the token endpoint hands out the
    token "new" for an hour, the GraphQL endpoint accepts that token and
    answers 401 to any other, and no other goroutine touches the client. *)
Definition sampleNet : Net :=
  {| clock := fun k => (1000 * Second + Z.of_nat k)%Z;
     oauth := fun _ =>
       Ok {| TokenStatusCode := 200; TokenBody := "";
             TokenResult := {| AccessToken := "new"; ExpiresIn := 3600;
                               TokenType := "Bearer" |} |};
     graphql := fun _ rq =>
       if decide (AuthToken rq = "new")
       then Ok {| StatusCode := 200; Body := "";
                  Envelope := {| Data := "{}"; Errors := [] |} |}
       else Ok {| StatusCode := 401; Body := "Unauthenticated.";
                  Envelope := {| Data := ""; Errors := [] |} |};
     others := fun _ c => c |}.

(** A token that the server no longer accepts although the client believes
    it good for another hour, and one that the client knows to be expired. *)
Definition revokedClient : Client :=
  {| token := "revoked"; expiresAt := (1000 * Second + Hour)%Z |}.

Definition expiredClient : Client :=
  {| token := "revoked"; expiresAt := 0 |}.

(** *** Pagination *)

(** The events of a run of pages: the records that parse, page after page
    and in the order of each page. *)
Definition parsedEvents (unmarshal : string -> option DeathEvent)
    (pages : list eventsPage) : list DeathEvent :=
  concat (map (fun page => omap unmarshal (EventsData page)) pages).

(** The number of records of a run of pages that do not parse. *)
Definition unparsed (unmarshal : string -> option DeathEvent)
    (pages : list eventsPage) : nat :=
  length (filter (fun raw => unmarshal raw = None)
            (concat (map EventsData pages))).

(** [Served gql vars k c pages]: the requests number [k], [k+1], ... were
    answered by [pages], the first of them asked with cursor [c] and each
    later one with the cursor that came with the page before; a page that
    is followed by a request carried a cursor. *)
Inductive Served (gql : nat -> gmap string Var -> Result eventsPage)
    (vars : option float64 -> gmap string Var)
  : nat -> option float64 -> list eventsPage -> Prop :=
| Served_nil k c : Served gql vars k c []
| Served_cons k c page pages :
    gql k (vars c) = Ok page ->
    (pages ≠ [] -> is_Some (NextPageTimestamp page)) ->
    Served gql vars (S k) (NextPageTimestamp page) pages ->
    Served gql vars k c (page :: pages).

(** The cursor in hand after a run of pages that began with cursor [c]. *)
Definition cursorAfter (c : option float64) (pages : list eventsPage)
  : option float64 :=
  match last pages with
  | Some page => NextPageTimestamp page
  | None => c
  end.

(** Why the pagination stopped. *)
Inductive Stop : Type :=
| StopFailed (e : Error)
| StopNoCursor
| StopMaxPages.

Definition stopResult (stop : Stop) (deaths : list DeathEvent)
  : Result (list DeathEvent) :=
  match stop with
  | StopFailed e => Err e
  | StopNoCursor | StopMaxPages => Ok deaths
  end.

Definition stopWarning (stop : Stop) : list Warning :=
  match stop with
  | StopMaxPages => [WarnMaxPages maxPages]
  | StopFailed _ | StopNoCursor => []
  end.

(** When the pagination that began at request [k] with cursor [c] and was
    served [pages] stops with [stop]. *)
Definition StoppedBy (gql : nat -> gmap string Var -> Result eventsPage)
    (vars : option float64 -> gmap string Var) (k : nat)
    (c : option float64) (pages : list eventsPage) (stop : Stop) : Prop :=
  match stop with
  | StopFailed e =>
      gql (k + length pages) (vars (cursorAfter c pages)) = Err e ∧
      (pages ≠ [] -> is_Some (cursorAfter c pages)) ∧
      k + length pages < maxPages
  | StopNoCursor => pages ≠ [] ∧ cursorAfter c pages = None
  | StopMaxPages =>
      pages ≠ [] ∧ is_Some (cursorAfter c pages) ∧
      k + length pages = maxPages
  end.

Definition byTimestamp (a b : DeathEvent) : Prop :=
  (Timestamp a ≤ Timestamp b)%Z.

(** [Before l a b]: [a] stands somewhere ahead of [b] in [l]. *)
Definition Before {A} (l : list A) (a b : A) : Prop :=
  ∃ l1 l2 l3, l = l1 ++ a :: l2 ++ b :: l3.

(** *** Sample data for the pagination *)

Definition deathOf (timestamp : Z) (name : string) : DeathEvent :=
  {| Timestamp := timestamp; Type_ := "death";
     EventTarget := {| TargetName := name; TargetServer := "Draenor" |} |}.

(** A decoder of raw records that knows five records and rejects the rest. *)
Definition sampleUnmarshal (raw : string) : option DeathEvent :=
  (list_to_map
     [("r30", deathOf 30 "Leeroy"); ("r10", deathOf 10 "Thrall");
      ("r20", deathOf 20 "Leeroy"); ("r05", deathOf 5 "");
      ("r40", deathOf 40 "Jaina")] : gmap string DeathEvent) !! raw.

(** One possible [sort.Slice] on timestamps. *)
Definition sampleSort (l : list DeathEvent) : list DeathEvent :=
  SliceStable (fun a b => (Timestamp a <? Timestamp b)%Z) l.

(** A server that pages by cursor: three pages, out of chronological order,
    the first with a record that does not parse. *)
Definition threePages (_ : nat) (vars : gmap string Var) : Result eventsPage :=
  match vars !! "startTime" with
  | None =>
      Ok {| EventsData := ["r30"; "garbage"]; NextPageTimestamp := Some 100%Z |}
  | Some (VFloat 100%Z) =>
      Ok {| EventsData := ["r10"; "r40"]; NextPageTimestamp := Some 200%Z |}
  | Some (VFloat 200%Z) =>
      Ok {| EventsData := ["r20"; "r05"]; NextPageTimestamp := None |}
  | Some _ => Err (ErrGraphql "bad cursor")
  end.

(** A server that always has one more page. *)
Definition endlessPages (k : nat) (_ : gmap string Var) : Result eventsPage :=
  Ok {| EventsData := ["r10"]; NextPageTimestamp := Some (Z.of_nat k) |}.

(** *** Counting deaths *)

(** The player an event names. *)
Definition victim (ev : DeathEvent) : string := TargetName (EventTarget ev).

(** The names that the events of a fight bring to the counters, in order:
    those that are not empty. *)
Definition victims (events : list DeathEvent) : list string :=
  filter (fun name => name ≠ "") (map victim events).

(** The first event of a fight that names a player. *)
Definition firstNamed (events : list DeathEvent) : option DeathEvent :=
  head (filter (fun ev => victim ev ≠ "") events).

(** The names that the fights of a report bring to the first-death counter:
    for each fight that has one, the player of its first named death. *)
Definition firstVictims (fights : list (list DeathEvent)) : list string :=
  omap (fun events => victim <$> firstNamed events) fights.

(** How often [name] occurs in [names]. *)
Definition occurrences (name : string) (names : list string) : nat :=
  length (filter (fun n => n = name) names).

(** [SeenBefore names a b]: when [b] was first seen, [a] had been seen. *)
Definition SeenBefore (names : list string) (a b : string) : Prop :=
  ∃ pre post, names = pre ++ b :: post ∧ (b ∉ pre) ∧ a ∈ pre.

(** The index map finds exactly the entries of the slice, by name. *)
Definition indexed (lst : list PlayerTop) (idx : gmap string nat) : Prop :=
  ∀ name i, idx !! name = Some i ↔ Name <$> lst !! i = Some name.

(** [Tallied names lst idx]: the slice and its index map are what counting
    [names] one by one leaves behind: every name counted has its entry, the
    entry holds the number of its occurrences as a Go [int], and the entries
    stand in the order in which their names were first seen. *)
Record Tallied (names : list string) (lst : list PlayerTop)
    (idx : gmap string nat) : Prop := {
  tallied_indexed : indexed lst idx;
  tallied_count : ∀ i p, lst !! i = Some p ->
    Name p ∈ names ∧
    Value p = wrap64 (Z.of_nat (occurrences (Name p) names));
  tallied_all : ∀ n, n ∈ names -> ∃ i p, lst !! i = Some p ∧ Name p = n;
  tallied_order : ∀ i j p q, i < j -> lst !! i = Some p -> lst !! j = Some q ->
    SeenBefore names (Name p) (Name q)
}.

(** [FightsFetched getEvents i fights evss]: the death events of [fights],
    the fights at positions [i], [i+1], ..., were fetched without error and
    are [evss], fight by fight. *)
Inductive FightsFetched
    (getEvents : nat -> Fight -> option (Result (list DeathEvent) * list Warning))
  : nat -> list Fight -> list (list DeathEvent) -> Prop :=
| FightsFetched_nil i : FightsFetched getEvents i [] []
| FightsFetched_cons i f fights events evss warns :
    getEvents i f = Some (Ok events, warns) ->
    FightsFetched getEvents (S i) fights evss ->
    FightsFetched getEvents i (f :: fights) (events :: evss).

(** The deaths of [name] in the events of a report, and the fights of the
    report in which the first named death is that of [name]. *)
Definition deathsOf (name : string) (evss : list (list DeathEvent)) : nat :=
  length (filter (fun ev => victim ev = name) (concat evss)).

Definition firstDeathsOf (name : string) (evss : list (list DeathEvent)) : nat :=
  length (filter (fun events => victim <$> firstNamed events = Some name) evss).

(** All names counted over a report, fight after fight. *)
Definition allVictims (evss : list (list DeathEvent)) : list string :=
  concat (map victims evss).

(** The call of [getDeathEvents] that [TopDeathsForReport] makes for the
    fight [f] at position [i] of the list of fights. *)
Definition eventsFetcher (unmarshal : string -> option DeathEvent)
    (sortSlice : list DeathEvent -> list DeathEvent)
    (gqlEvents : nat -> nat -> gmap string Var -> Result eventsPage)
    (fuel : nat) (reportCode : string) (wipeCutoff : Z) (i : nat) (f : Fight)
  : option (Result (list DeathEvent) * list Warning) :=
  getDeathEvents unmarshal sortSlice (gqlEvents i) fuel reportCode (ID f)
    wipeCutoff.

(** *** Sample data for the leaderboards *)

Definition fight (id : Z) : Fight :=
  {| ID := id; EncounterID := 3000; FightName := "Dimensius";
     FightStartTime := 0; FightEndTime := 60000; FightDifficulty := 5;
     Kill := false |}.

(** The first fight is served by the three pages, any other by one page. *)
Definition sampleEvents (i : nat) : nat -> gmap string Var -> Result eventsPage :=
  match i with
  | 0 => threePages
  | _ => fun _ _ =>
      Ok {| EventsData := ["r40"; "r20"]; NextPageTimestamp := None |}
  end.

Definition sampleDeaths : list (list DeathEvent) :=
  [ [deathOf 5 ""; deathOf 10 "Thrall"; deathOf 20 "Leeroy";
     deathOf 30 "Leeroy"; deathOf 40 "Jaina"];
    [deathOf 20 "Leeroy"; deathOf 40 "Jaina"] ].

(** A server whose first page comes with a cursor and whose second request
    fails. *)
Definition secondRequestFails (k : nat) (_ : gmap string Var)
  : Result eventsPage :=
  match k with
  | 0 => Ok {| EventsData := ["r30"]; NextPageTimestamp := Some 100%Z |}
  | _ => Err (ErrGraphqlStatus 502 "Bad Gateway")
  end.

(** *** Runs of the change detector *)

(** The liveness flags of the events about report [k], in order. *)
Definition liveFlags (k : string) (events : list StatsEvent) : list bool :=
  Live <$> filter (fun e => ReportId e = k) events.

(** A happening during which report [k], if listed, has end time [E], and
    its cache entry does not expire. *)
Definition KeepsEndTime (k : string) (E : Z) (h : Happening) : Prop :=
  match h with
  | Expire k' => k' ≠ k
  | Cycle (Err _) _ => True
  | Cycle (Ok found) ticks =>
      ∀ i r, deleteNonRaid found !! i = Some r -> Code r = k -> EndTime r = E
  end.

(** The flags that may still come for a report of constant end time [E],
    by its cache entry: none once it is cached as offline, at most an
    offline one once it is cached as live, and otherwise a live one, an
    offline one, or a live one followed by an offline one. *)
Definition liveThenOffline (fl : list bool) : Prop :=
  fl = [] ∨ fl = [true] ∨ fl = [false] ∨ fl = [true; false].

Definition flagsAllowed (E : Z) (c : option CachedReport) (fl : list bool)
  : Prop :=
  match c with
  | Some c =>
      if decide (endTime c = E)
      then if isLive c then fl = [] ∨ fl = [false] else fl = []
      else liveThenOffline fl
  | None => liveThenOffline fl
  end.

(** An iteration that has nothing to do: the report is unseen and
    outdated, or cached with its end time and not due to go offline. *)
Definition NothingToDo (t : Tick) (report : Report) (l : Loop) : Prop :=
  (reportsCache l !! Code report = None ∧
   isOutdated (now t) report = true) ∨
  (∃ c, reportsCache l !! Code report = Some c ∧
        endTime c = EndTime report ∧
        isLive c && isOutdated (now t) report = false).

(** The cache files every report under its own code, and holds only
    reports whose details were asked for. *)
Definition cacheWellKept (l : Loop) : Prop :=
  ∀ k c, reportsCache l !! k = Some c -> code c = k ∧ k ∈ detailsAsked l.

(** A poll that lists the sample report with end time [endTime], seen
    [age] minutes after that. *)
Definition pollABC (endTime age : Z) : Happening :=
  Cycle (Ok [reportFlex; reportABC endTime])
        (fun _ => tickAt endTime age (Ok detailsABC) false).

(** *** Outcomes and sums of the leaderboards *)

(** A server on which the events of the first fight arrive in three pages
    and the second request for any later fight fails. *)
Definition laterFightsFail (i : nat) : nat -> gmap string Var -> Result eventsPage :=
  match i with
  | 0 => threePages
  | _ => secondRequestFails
  end.

(** The sum of the counts of a leaderboard. *)
Definition sumValues (board : list PlayerTop) : Z :=
  foldr Z.add 0%Z (Value <$> board).

(** * The constructor, the store and the bot *)

(** ** Package warcraftlogs: the constructor of the client *)

(** The zero [time.Time], 1 January of the year 1, as an instant. *)
Definition zeroTime : Z := (- 62135596800 * Second)%Z.

(** [NewClient]: a client with no token yet, refreshed once.  Until it is
    returned no other goroutine holds the client, so that nothing happens
    to it while [refreshToken] waits for the lock. *)
Definition NewClient (net : Net) : Result Client * Run :=
  let alone := {| clock := clock net; oauth := oauth net;
                  graphql := graphql net; others := fun _ c => c |} in
  let '(r, s) := refreshToken alone
                   (startRun {| token := ""; expiresAt := zeroTime |}) in
  match r with
  | Err e => (Err e, s)
  | Ok _ => (Ok (client s), s)
  end.

(** ** Package storage: the store

    The store keeps one bucket of a bbolt database, "servers", which maps
    the identifier of a Discord guild to the JSON of its configuration.
    Keys and values are byte strings. *)

(** An error of bbolt, by its message. *)
Inductive BoltError : Type := BoltErr (msg : string).

(** The database as the store sees it: the content of the bucket, or
    [None] as long as the bucket does not exist. *)
Definition DB : Type := option (gmap string string).

(** What a transaction meets outside: the error, if any, of beginning it
    and of committing it. *)
Record Tx : Type := {
  beginErr : option BoltError;
  commitErr : option BoltError
}.

Definition txOk : Tx := {| beginErr := None; commitErr := None |}.

(** [db.Update(fn)]: the function runs once the transaction has begun; an
    error of the function or of the commit rolls the transaction back and
    is returned.  [fn] yields [None] when it panics, and so does the call. *)
Definition Update (tx : Tx) (fn : DB -> option (option BoltError * DB))
    (db : DB) : option (option BoltError * DB) :=
  match beginErr tx with
  | Some e => Some (Some e, db)
  | None =>
      match fn db with
      | None => None
      | Some (Some e, _) => Some (Some e, db)
      | Some (None, db') =>
          match commitErr tx with
          | Some e => Some (Some e, db)
          | None => Some (None, db')
          end
      end
  end.

(** [MustInitDB]: [None] is the panic on an error. *)
Definition MustInitDB (tx : Tx) (db : DB) : option DB :=
  match Update tx (fun db => Some (None, Some (default ∅ db))) db with
  | Some (None, db') => Some db'
  | Some (Some _, _) => None
  | None => None
  end.

Section Store.

(** [json.Marshal(&server)], whose error the store discards. *)
Variable Marshal : storage.Server -> string.

(** What [json.Unmarshal(data, &srv)] leaves in a zero [srv]; the store
    discards its error. *)
Variable Unmarshal : string -> storage.Server.

(** The error, if any, with which [Bucket.Put] refuses a key and a value. *)
Variable putErr : string -> string -> option BoltError.

(** [SaveServer]; [tx.Bucket] yields nil for a bucket that does not exist,
    on which [Put] panics. *)
Definition SaveServer (tx : Tx) (server : storage.Server) (db : DB)
  : option (option BoltError * DB) :=
  Update tx
    (fun db =>
       match db with
       | None => None
       | Some b =>
           let data := Marshal server in
           match putErr (storage.ServerId server) data with
           | Some e => Some (Some e, db)
           | None => Some (None, Some (<[storage.ServerId server := data]> b))
           end
       end) db.

(** [ReadServer]: the server found, if any; the error it returns is always
    nil.  The error of [db.View] is discarded, so that a transaction that
    does not begin reads as no server. *)
Definition ReadServer (tx : Tx) (serverId : string) (db : DB)
  : option (option storage.Server) :=
  match beginErr tx with
  | Some _ => Some None
  | None =>
      match db with
      | None => None
      | Some b =>
          match b !! serverId with
          | None => Some None
          | Some data =>
              if decide (String.length data = 0) then Some None
              else Some (Some (Unmarshal data))
          end
      end
  end.

(** [DeleteServer]; [Bucket.Delete] of a key that is not there is no
    error. *)
Definition DeleteServer (tx : Tx) (serverId : string) (db : DB)
  : option (option BoltError * DB) :=
  Update tx
    (fun db =>
       match db with
       | None => None
       | Some b => Some (None, Some (delete serverId b))
       end) db.

End Store.

(** ** Package main *)

(** *** Strings *)

(** [strings.HasPrefix] *)
Fixpoint HasPrefix (s prefix : string) {struct prefix} : bool :=
  match prefix with
  | EmptyString => true
  | String a prefix' =>
      match s with
      | EmptyString => false
      | String b s' => if decide (a = b) then HasPrefix s' prefix' else false
      end
  end.

(** [strings.LastIndex]: the index of the last occurrence of [substr] in
    [s], or -1. *)
Fixpoint LastIndex (s substr : string) : Z :=
  match s with
  | EmptyString => if HasPrefix EmptyString substr then 0%Z else (-1)%Z
  | String c s' =>
      let later := LastIndex s' substr in
      if (0 <=? later)%Z then (later + 1)%Z
      else if HasPrefix (String c s') substr then 0%Z else (-1)%Z
  end.

(** [s[i:]] for an index within the string. *)
Fixpoint sliceFrom (s : string) (i : nat) : string :=
  match i, s with
  | O, _ => s
  | S i', String _ s' => sliceFrom s' i'
  | S _, EmptyString => EmptyString
  end.

(** [strings.Repeat(" ", n)] *)
Fixpoint spaces (n : nat) : string :=
  match n with
  | O => EmptyString
  | S n' => String Ascii.Space (spaces n')
  end.

(** *** Counting runes

    [utf8.RuneCountInString]: a byte below 0x80 is a rune; a byte that
    starts a well-formed sequence of two, three or four bytes is a rune
    together with the bytes of the sequence; any other byte is a rune by
    itself. *)

(** The table [first] with [acceptRanges]: for a leading byte the size of
    its sequence and the range of its second byte, [None] for a byte that
    is not a leading byte of a sequence. *)
Definition first (c : BinNums.N) : option (nat * BinNums.N * BinNums.N) :=
  if (c <? 0xC2)%N then None
  else if (c <=? 0xDF)%N then Some (2, 0x80%N, 0xBF%N)
  else if (c =? 0xE0)%N then Some (3, 0xA0%N, 0xBF%N)
  else if (c <=? 0xEC)%N then Some (3, 0x80%N, 0xBF%N)
  else if (c =? 0xED)%N then Some (3, 0x80%N, 0x9F%N)
  else if (c <=? 0xEF)%N then Some (3, 0x80%N, 0xBF%N)
  else if (c =? 0xF0)%N then Some (4, 0x90%N, 0xBF%N)
  else if (c <=? 0xF3)%N then Some (4, 0x80%N, 0xBF%N)
  else if (c =? 0xF4)%N then Some (4, 0x80%N, 0x8F%N)
  else None.

(** A continuation byte: 0x80 to 0xBF. *)
Definition continuation (c : BinNums.N) : bool := (0x80 <=? c)%N && (c <=? 0xBF)%N.

(** The number of bytes that the rune at the head of [s] takes. *)
Definition runeSize (s : list BinNums.N) : nat :=
  match s with
  | [] => 0
  | c :: rest =>
      if (c <? 0x80)%N then 1
      else
        match first c with
        | None => 1
        | Some (size, lo, hi) =>
            if length s <? size then 1
            else
              match rest with
              | c1 :: rest1 =>
                  if (c1 <? lo)%N || (hi <? c1)%N then 1
                  else if size =? 2 then 2
                  else
                    match rest1 with
                    | c2 :: rest2 =>
                        if negb (continuation c2) then 1
                        else if size =? 3 then 3
                        else
                          match rest2 with
                          | c3 :: _ => if negb (continuation c3) then 1 else 4
                          | [] => 1
                          end
                    | [] => 1
                    end
              | [] => 1
              end
        end
  end.

(** The loop of [RuneCountInString]; it makes at most one turn per byte. *)
Fixpoint countRunes (turns : nat) (s : list BinNums.N) : nat :=
  match turns with
  | O => 0
  | S turns' =>
      match s with
      | [] => 0
      | _ :: _ => S (countRunes turns' (drop (runeSize s) s))
      end
  end.

Fixpoint bytes (s : string) : list BinNums.N :=
  match s with
  | EmptyString => []
  | String c s' => Ascii.N_of_ascii c :: bytes s'
  end.

Definition RuneCountInString (s : string) : nat :=
  countRunes (String.length s) (bytes s).

(** *** The messages *)

Definition padRight (s : string) (to : Z) : string :=
  let diff := (to - Z.of_nat (RuneCountInString s))%Z in
  if (0 <? diff)%Z then s +:+ spaces (Z.to_nat diff) else s.

Definition padLeft (s : string) (to : Z) : string :=
  let diff := (to - Z.of_nat (RuneCountInString s))%Z in
  if (0 <? diff)%Z then spaces (Z.to_nat diff) +:+ s else s.

Definition newline : string := String (Ascii.ascii_of_N 10) EmptyString.

(** [strconv.Itoa]: the decimal digits, least significant first to most,
    behind a minus sign for a negative number.  A 64-bit integer has at
    most 20 digits. *)
Definition digit (d : Z) : Ascii.ascii := Ascii.ascii_of_N (48 + Z.to_N d).

Fixpoint formatBits (turns : nat) (u : Z) (a : string) : string :=
  match turns with
  | O => a
  | S turns' =>
      if (u <? 10)%Z then String (digit u) a
      else formatBits turns' (u / 10)%Z (String (digit (u mod 10)) a)
  end.

Definition Itoa (i : Z) : string :=
  if (i <? 0)%Z then "-" +:+ formatBits 20 (- i) EmptyString
  else formatBits 20 i EmptyString.

Section Formatting.

(** [t.Format(layout)] for an instant [t] *)
Variable Format : Z -> string -> string.

(** The loop of [formatTop]; [i] is the index of the first of [top] and
    [len] the length of the whole slice. *)
Fixpoint formatRows (top : list PlayerTop) (i : Z) (len : Z) (sb : string)
  : string :=
  match top with
  | [] => sb
  | t :: top' =>
      let sb := sb +:+ padRight (Name t) 12 in
      let sb := sb +:+ padLeft (Itoa (Value t)) 12 in
      let sb := if decide (i ≠ len - 1)%Z then sb +:+ newline else sb in
      formatRows top' (i + 1)%Z len sb
  end.

Definition formatTop (top : list PlayerTop) : string :=
  if decide (length top = 0) then "``` ```"
  else
    let sb := "```" in
    let sb := formatRows top 0 (Z.of_nat (length top)) sb in
    sb +:+ "```".

Record MessageEmbedField : Type := {
  FieldName : string;
  FieldValue : string;
  Inline : bool
}.

Record MessageEmbed : Type := {
  EmbedTitle : string;
  Description : string;
  EmbedURL : string;
  Color : Z;
  Fields : list MessageEmbedField;
  FooterText : string;
  EmbedTimestamp : string
}.

Definition DateTime : string := "2006-01-02 15:04:05".
Definition RFC3339 : string := "2006-01-02T15:04:05Z07:00".

Definition constructEmbed (stats : StatsEvent) : MessageEmbed :=
  let color := if negb (Live stats) then 0x95A5A6%Z else 0x2ECC71%Z in
  {| EmbedTitle := "Warcraft Logs" +:+ newline +:+ EventTitle stats;
     Description :=
       "```Started by " +:+ StartedBy stats +:+ newline +:+ "on "
       +:+ Format (StartedAt stats) DateTime +:+ "```";
     EmbedURL := URL stats;
     Color := color;
     Fields :=
       [ {| FieldName := "Top First Deaths";
            FieldValue := formatTop (TopFirstDeath stats);
            Inline := false |};
         {| FieldName := "Top Deaths Before Wipe";
            FieldValue := formatTop (TopDeath stats);
            Inline := false |} ];
     FooterText := "Last upload";
     EmbedTimestamp := Format (LastUpload stats) RFC3339 |}.

Definition makeKey (se : StatsEvent) : string :=
  storage.ServerId (Server se) +:+ storage.ChannelId (Server se)
  +:+ ReportId se.

(** *** The update handler *)

Inductive DiscordCall : Type :=
| MessageEdit (id channel : string) (embeds : list MessageEmbed)
| MessageSend (channel : string) (embeds : list MessageEmbed).

(** The state that the update handler works on: the cache of message
    identifiers, and the calls made to Discord so far. *)
Record Bot : Type := {
  messageCache : gmap string string;
  calls : list DiscordCall
}.

(** The handler given to [OnUpdate].  [discord k] is the outcome of the
    k-th call to Discord: the identifier of the message, or an error. *)
Definition onUpdate (discord : nat -> Result string) (se : StatsEvent)
    (b : Bot) : Bot :=
  let key := makeKey se in
  let embed := constructEmbed se in
  match messageCache b !! key with
  | Some item =>
      {| messageCache := messageCache b;
         calls := calls b ++ [MessageEdit item
                                (storage.ChannelId (Server se)) [embed]] |}
  | None =>
      let sent := calls b ++ [MessageSend (storage.ChannelId (Server se))
                                [embed]] in
      match discord (length (calls b)) with
      | Err _ => {| messageCache := messageCache b; calls := sent |}
      | Ok msgOut =>
          {| messageCache := <[key := msgOut]> (messageCache b);
             calls := sent |}
      end
  end.

(** What happens to the bot's messages: an update from a watch loop, or
    the cache dropping a key whose twelve hours have passed. *)
Inductive BotHappening : Type :=
| StatsUpdate (se : StatsEvent)
| ExpireMessage (key : string).

Definition botHappen (discord : nat -> Result string) (b : Bot)
    (h : BotHappening) : Bot :=
  match h with
  | StatsUpdate se => onUpdate discord se b
  | ExpireMessage key =>
      {| messageCache := delete key (messageCache b); calls := calls b |}
  end.

End Formatting.

(** *** Joining and leaving a guild, and the configuration commands *)

(** A message of the channel history, as far as the bot looks at it. *)
Record ChannelMessage : Type := {
  MsgID : string;
  AuthorID : string;
  MsgTimestamp : Z;
  EditedTimestamp : option Z;
  EmbedURLs : list string
}.

(** The report code that the bot reads off the URL of an embed. *)
Definition reportCodeOf (url : string) : string :=
  let idx := LastIndex url "/" in
  sliceFrom url (Z.to_nat (idx + 1)).

(** The loop over the message history when the bot joins a guild; [clock i]
    is the clock as the i-th turn reads it, and [None] the panic of taking
    the first embed of a message that has none. *)
Fixpoint restoreMessages (botId : string) (clock : nat -> Z)
    (srv : storage.Server) (msgs : list ChannelMessage) (i : nat)
    (cache : gmap string string) : option (gmap string string) :=
  match msgs with
  | [] => Some cache
  | msg :: msgs' =>
      if decide (AuthorID msg ≠ botId)
      then restoreMessages botId clock srv msgs' (S i) cache
      else
        let lastDate := match EditedTimestamp msg with
                        | Some edited => edited
                        | None => MsgTimestamp msg
                        end in
        if (12 * Hour <? Since (clock i) lastDate)%Z
        then restoreMessages botId clock srv msgs' (S i) cache
        else
          match EmbedURLs msg !! 0 with
          | None => None
          | Some url =>
              let reportCode := reportCodeOf url in
              let key := storage.ServerId srv +:+ storage.ChannelId srv
                         +:+ reportCode in
              restoreMessages botId clock srv msgs' (S i)
                (<[key := MsgID msg]> cache)
          end
  end.

Inductive Reply : Type :=
| ReplyError
| ReplyConfigured
| ReplyNotConfigured
| ReplyConfig (channelId : string) (wlGuildId wipeCutoff : Z)
| ReplyUnknownCommand.

(** What the handlers of the guild events and of the commands share: the
    database, the supervisor of the watch loops and the message cache. *)
Record App : Type := {
  db : DB;
  w : Watcher;
  messages : gmap string string
}.

Section Handlers.

Variable Marshal : storage.Server -> string.
Variable Unmarshal : string -> storage.Server.
Variable putErr : string -> string -> option BoltError.

(** The [GuildCreate] handler, the registration of the commands apart.
    [history] is the outcome of [ChannelMessages]. *)
Definition onGuildCreate (tx : Tx) (botId : string) (clock : nat -> Z)
    (history : Result (list ChannelMessage)) (guildId : string) (a : App)
  : option App :=
  match ReadServer Unmarshal tx guildId (db a) with
  | None => None
  | Some None => Some a
  | Some (Some srv) =>
      let msgs := match history with
                  | Ok msgs => msgs
                  | Err _ => []
                  end in
      match restoreMessages botId clock srv msgs 0 (messages a) with
      | None => None
      | Some cache =>
          Some {| db := db a; w := Watch (w a) srv; messages := cache |}
      end
  end.

(** The [GuildDelete] handler; the error of [DeleteServer] is dropped. *)
Definition onGuildDelete (tx : Tx) (guildId : string) (a : App)
  : option App :=
  match DeleteServer tx guildId (db a) with
  | None => None
  | Some (_, db') =>
      Some {| db := db'; w := Unwatch (w a) guildId; messages := messages a |}
  end.

(** The command [set-config], from the server built of its options on. *)
Definition setConfig (tx : Tx) (server : storage.Server) (a : App)
  : option (Reply * App) :=
  match SaveServer Marshal putErr tx server (db a) with
  | None => None
  | Some (Some _, db') =>
      Some (ReplyError, {| db := db'; w := w a; messages := messages a |})
  | Some (None, db') =>
      let w1 := Unwatch (w a) (storage.ServerId server) in
      let w2 := Watch w1 server in
      Some (ReplyConfigured, {| db := db'; w := w2; messages := messages a |})
  end.

(** The command [get-config]. *)
Definition getConfig (tx : Tx) (guildId : string) (a : App) : option Reply :=
  match ReadServer Unmarshal tx guildId (db a) with
  | None => None
  | Some None => Some ReplyNotConfigured
  | Some (Some server) =>
      Some (ReplyConfig (storage.ChannelId server) (storage.WlGuildId server)
              (storage.WipeCutoff server))
  end.

End Handlers.

(** * Vocabulary of the further statements *)

(** ** The client *)

(** A token endpoint that is down. *)
Definition oauthDown : Net :=
  {| clock := clock sampleNet;
     oauth := fun _ => Err (ErrTransport "connection refused");
     graphql := graphql sampleNet; others := others sampleNet |}.

(** Queries made one after the other, each with its variables and decoded
    by [unmarshal]; the outcomes in order, and the state after the last. *)
Fixpoint gqlAll {A} (net : Net) (unmarshal : string -> Result A)
    (qs : list (string * gmap string Var)) (s : Run)
  : list (Result A) * Run :=
  match qs with
  | [] => ([], s)
  | q :: qs' =>
      let '(r, s') := gql net q.1 q.2 (Some unmarshal) s in
      let '(rs, s'') := gqlAll net unmarshal qs' s' in
      (r :: rs, s'')
  end.

(** The client of the sample world once it holds the token handed out. *)
Definition freshClient : Client :=
  {| token := "new"; expiresAt := (1000 * Second + Hour)%Z |}.

(** ** The store *)

(** A JSON of the sample guild, and a decoder that knows it. *)
Definition sampleMarshal (server : storage.Server) : string :=
  "{" +:+ storage.ServerId server +:+ "," +:+ storage.ChannelId server +:+ "}".

Definition zeroServer : storage.Server :=
  {| storage.ServerId := ""; storage.ChannelId := "";
     storage.WlGuildId := 0; storage.WipeCutoff := 0 |}.

Definition sampleUnmarshalServer (data : string) : storage.Server :=
  if decide (data = sampleMarshal guild1) then guild1 else zeroServer.

Definition noPutErr (key value : string) : option BoltError := None.

(** The operations of the store, each with the transaction it runs in. *)
Inductive StoreOp : Type :=
| OpSave (tx : Tx) (server : storage.Server)
| OpRead (tx : Tx) (serverId : string)
| OpDelete (tx : Tx) (serverId : string).

(** The database after an operation; [None] when the operation panics. *)
Definition storeOp (Marshal : storage.Server -> string)
    (Unmarshal : string -> storage.Server)
    (putErr : string -> string -> option BoltError)
    (o : StoreOp) (db : DB) : option DB :=
  match o with
  | OpSave tx server => snd <$> SaveServer Marshal putErr tx server db
  | OpRead tx serverId => (fun _ => db) <$> ReadServer Unmarshal tx serverId db
  | OpDelete tx serverId => snd <$> DeleteServer tx serverId db
  end.

Fixpoint storeOps (Marshal : storage.Server -> string)
    (Unmarshal : string -> storage.Server)
    (putErr : string -> string -> option BoltError)
    (os : list StoreOp) (db : DB) : option DB :=
  match os with
  | [] => Some db
  | o :: os' =>
      match storeOp Marshal Unmarshal putErr o db with
      | None => None
      | Some db' => storeOps Marshal Unmarshal putErr os' db'
      end
  end.

(** ** The handlers *)

Definition guild2 : storage.Server :=
  {| storage.ServerId := "guild-2"; storage.ChannelId := "logs";
     storage.WlGuildId := 7; storage.WipeCutoff := 5 |}.

(** The bot as it starts: the bucket made, nothing watched, no message
    remembered. *)
Definition startApp : App :=
  {| db := Some ∅; w := New; messages := ∅ |}.

(** ** The message history *)

(** The date that the bot goes by: that of the last edit, or else that of
    the message. *)
Definition lastDate (msg : ChannelMessage) : Z :=
  match EditedTimestamp msg with
  | Some edited => edited
  | None => MsgTimestamp msg
  end.

(** A message that the loop over the history takes into the cache at clock
    value [now]: one of the bot's own, last touched at most twelve hours
    ago. *)
Definition Restored (botId : string) (now : Z) (msg : ChannelMessage) : Prop :=
  AuthorID msg = botId ∧ (Since now (lastDate msg) ≤ 12 * Hour)%Z.

(** A message history: somebody's chatter, and the bot's message about the
    sample report. *)
Definition sampleHistory : list ChannelMessage :=
  [ {| MsgID := "m-7"; AuthorID := "someone"; MsgTimestamp := 0;
       EditedTimestamp := None; EmbedURLs := [] |};
    {| MsgID := "m-8"; AuthorID := "bot"; MsgTimestamp := 0;
       EditedTimestamp := Some (1000 * Second)%Z;
       EmbedURLs := ["https://www.warcraftlogs.com/reports/ABC"] |} ].

(** A Discord that accepts every call and numbers the messages. *)
Definition sampleDiscord (k : nat) : Result string :=
  Ok ("m-" +:+ Itoa (Z.of_nat k)).

Definition sampleFormat (t : Z) (layout : string) : string := Itoa t.

(** ** The messages of the bot *)

Definition isUpdate (h : BotHappening) : bool :=
  match h with
  | StatsUpdate _ => true
  | ExpireMessage _ => false
  end.

(** A row of a leaderboard as [formatTop] writes it. *)
Definition formatRow (t : PlayerTop) : string :=
  padRight (Name t) 12 +:+ padLeft (Itoa (Value t)) 12.

Definition isSend (c : DiscordCall) : bool :=
  match c with
  | MessageSend _ _ => true
  | MessageEdit _ _ _ => false
  end.

(** The bot with nothing remembered and nothing said. *)
Definition newBot : Bot := {| messageCache := ∅; calls := [] |}.

(** * Properties *)

(** ** The raid filter *)

Lemma noMythic20_false (ds : list Difficulty) :
  noMythic20 ds = false ↔
  Exists (fun d => DifficultyName d = "Mythic" ∧ Sizes d = [20%Z]) ds.
Proof.
  induction ds as [|d ds IH]; simpl.
  - split; [discriminate | intros H; inversion H].
  - rewrite Exists_cons, <- IH.
    assert (bool_decide (DifficultyName d = "Mythic")
            && bool_decide (length (Sizes d) = 1)
            && bool_decide (Sizes d !! 0 = Some 20%Z) = true
            ↔ DifficultyName d = "Mythic" ∧ Sizes d = [20%Z]) as Hd.
    { rewrite !andb_true_iff, !bool_decide_eq_true.
      destruct (Sizes d) as [|size [|size' sizes]]; simpl;
        split; intros; destruct_and?; simplify_eq; done. }
    destruct (_ && _ && _).
    + split; [intros _; left; by apply Hd | done].
    + split; [by right | intros [H|H]; [apply Hd in H; discriminate | done]].
Qed.

Lemma DeleteFunc_filter {A} (del : A -> bool) (s : list A) :
  DeleteFunc s del = filter (fun x => del x = false) s.
Proof.
  induction s as [|x s IH]; simpl; [done|].
  rewrite filter_cons, <- IH.
  destruct (del x); case_decide; done.
Qed.

Lemma deleteNonRaid_filter (reports : list Report) :
  deleteNonRaid reports = filter isMythic20 reports.
Proof.
  unfold deleteNonRaid. rewrite DeleteFunc_filter.
  apply list_filter_iff. intros r. apply noMythic20_false.
Qed.

Lemma elem_of_deleteNonRaid (reports : list Report) (r : Report) :
  r ∈ deleteNonRaid reports ↔ r ∈ reports ∧ isMythic20 r.
Proof. rewrite deleteNonRaid_filter, list_elem_of_filter. tauto. Qed.

(** ** The change detector, one report at a time *)


Lemma fetchSendCache_ok t server report live why l d :
  details t = Ok d ->
  reportsCache (fetchSendCache t server report live why l)
    = <[Code report := cached report live]> (reportsCache l) ∧
  handled (fetchSendCache t server report live why l)
    = handled l ++ delivered t server live report d ∧
  detailsAsked (fetchSendCache t server report live why l)
    = detailsAsked l ++ [Code report].
Proof.
  intros Hd. unfold fetchSendCache, delivered, sendUpdate. rewrite Hd.
  destruct (ctxDone t); simpl; rewrite ?app_nil_r; done.
Qed.

Lemma fetchSendCache_err t server report live why l e :
  details t = Err e ->
  reportsCache (fetchSendCache t server report live why l) = reportsCache l ∧
  handled (fetchSendCache t server report live why l) = handled l ∧
  detailsAsked (fetchSendCache t server report live why l)
    = detailsAsked l ++ [Code report].
Proof. intros Hd. unfold fetchSendCache. rewrite Hd. done. Qed.

Lemma checkReport_quiet t server report l :
  verdict t report l = None ->
  reportsCache (checkReport t server report l) = reportsCache l ∧
  handled (checkReport t server report l) = handled l ∧
  detailsAsked (checkReport t server report l) = detailsAsked l.
Proof.
  unfold verdict, checkReport.
  destruct (reportsCache l !! Code report) as [c|].
  - destruct (decide (endTime c = EndTime report)) as [->|Hne].
    + rewrite Z.eqb_refl. simpl.
      destruct (isLive c && isOutdated (now t) report); [discriminate | done].
    + discriminate.
  - destruct (isOutdated (now t) report); [done | discriminate].
Qed.

Lemma checkReport_fetching t server report l live :
  verdict t report l = Some live ->
  ∃ why, checkReport t server report l
         = fetchSendCache t server report live why l.
Proof.
  unfold verdict, checkReport.
  destruct (reportsCache l !! Code report) as [c|].
  - destruct (decide (endTime c = EndTime report)) as [->|Hne].
    + rewrite Z.eqb_refl. simpl.
      destruct (isLive c && isOutdated (now t) report); [|discriminate].
      intros [= <-]. eauto.
    + apply Z.eqb_neq in Hne. rewrite Hne. simpl. intros [= <-]. eauto.
  - destruct (isOutdated (now t) report); [discriminate|].
    intros [= <-]. eauto.
Qed.

Lemma checkReport_ok t server report l live d :
  verdict t report l = Some live ->
  details t = Ok d ->
  reportsCache (checkReport t server report l)
    = <[Code report := cached report live]> (reportsCache l) ∧
  handled (checkReport t server report l)
    = handled l ++ delivered t server live report d ∧
  detailsAsked (checkReport t server report l)
    = detailsAsked l ++ [Code report].
Proof.
  intros Hv Hd. destruct (checkReport_fetching _ server _ _ _ Hv) as [why ->].
  by apply fetchSendCache_ok.
Qed.

Lemma checkReport_err t server report l live e :
  verdict t report l = Some live ->
  details t = Err e ->
  reportsCache (checkReport t server report l) = reportsCache l ∧
  handled (checkReport t server report l) = handled l ∧
  detailsAsked (checkReport t server report l)
    = detailsAsked l ++ [Code report].
Proof.
  intros Hv Hd. destruct (checkReport_fetching _ server _ _ _ Hv) as [why ->].
  by eapply fetchSendCache_err.
Qed.

(** Whatever an iteration does, it appends at most one event, for its own
    report, and touches the cache at most at its own report's code. *)
Lemma checkReport_effects t server report l :
  (∃ new, handled (checkReport t server report l) = handled l ++ new ∧
          ∀ e, e ∈ new -> ReportId e = Code report ∧ details t = Ok
               {| TopDeaths := TopDeath e; TopFirstDeaths := TopFirstDeath e |}) ∧
  (∃ new, detailsAsked (checkReport t server report l) = detailsAsked l ++ new ∧
          ∀ c, c ∈ new -> c = Code report) ∧
  (∀ k, k ≠ Code report ->
        reportsCache (checkReport t server report l) !! k = reportsCache l !! k).
Proof.
  destruct (verdict t report l) as [live|] eqn:Hv.
  - destruct (details t) as [d|e] eqn:Hd.
    + destruct (checkReport_ok _ server _ _ _ _ Hv Hd) as (-> & -> & ->).
      split_and!.
      * eexists; split; [done|]. unfold delivered.
        destruct (ctxDone t); intros e He; [by apply elem_of_nil in He|].
        apply list_elem_of_singleton in He as ->. simpl. by destruct d.
      * eexists; split; [done|]. by intros c ->%list_elem_of_singleton.
      * intros k Hk. by rewrite lookup_insert_ne.
    + destruct (checkReport_err _ server _ _ _ _ Hv Hd) as (-> & -> & ->).
      split_and!; [exists []; rewrite app_nil_r; split; [done|] | | done].
      * intros ? H. by apply elem_of_nil in H.
      * eexists; split; [done|]. by intros c ->%list_elem_of_singleton.
  - destruct (checkReport_quiet _ server _ _ Hv) as (-> & -> & ->).
    split_and!; [exists [] | exists [] | done];
      (rewrite app_nil_r; split; [done|]; intros ? H; by apply elem_of_nil in H).
Qed.


Lemma newEvents_app (l l' : Loop) (new : list StatsEvent) :
  handled l' = handled l ++ new -> newEvents l l' = new.
Proof. intros H. unfold newEvents. rewrite H. by rewrite drop_app_length. Qed.


Lemma iterate_cons server it its l :
  iterate server (it :: its) l
  = iterate server its (checkReport it.1 server it.2 l).
Proof. done. Qed.



Lemma checkReports_iterate ticks server reports i l :
  checkReports ticks server reports i l
  = iterate server (imap (fun k r => (ticks (i + k), r)) reports) l.
Proof.
  revert i l. induction reports as [|r reports IH]; intros i l; [done|].
  rewrite imap_cons, iterate_cons. cbn [checkReports fst snd].
  rewrite Nat.add_0_r, IH. f_equal. apply imap_ext. intros k x _. simpl.
  f_equal. f_equal. lia.
Qed.

Lemma iterate_effects server its l :
  (∃ new, handled (iterate server its l) = handled l ++ new ∧
          ∀ e, e ∈ new -> ∃ it, it ∈ its ∧ ReportId e = Code it.2) ∧
  (∃ new, detailsAsked (iterate server its l) = detailsAsked l ++ new ∧
          ∀ c, c ∈ new -> ∃ it, it ∈ its ∧ c = Code it.2) ∧
  (∀ k, reportsCache (iterate server its l) !! k ≠ reportsCache l !! k ->
        ∃ it, it ∈ its ∧ Code it.2 = k).
Proof.
  revert l. induction its as [|it its IH]; intros l.
  - split_and!; [exists [] | exists [] | done];
      (rewrite app_nil_r; split; [done|]; intros ? H; by apply elem_of_nil in H).
  - rewrite iterate_cons.
    destruct (checkReport_effects it.1 server it.2 l)
      as ((n1 & Hh1 & Hn1) & (a1 & Ha1 & Hb1) & Hk1).
    destruct (IH (checkReport it.1 server it.2 l))
      as ((n2 & Hh2 & Hn2) & (a2 & Ha2 & Hb2) & Hk2).
    split_and!.
    + exists (n1 ++ n2). rewrite Hh2, Hh1, app_assoc. split; [done|].
      intros e [He|He]%elem_of_app.
      * exists it. split; [left|]. by destruct (Hn1 e He).
      * destruct (Hn2 e He) as (it' & ? & ?). exists it'. split; [by right|done].
    + exists (a1 ++ a2). rewrite Ha2, Ha1, app_assoc. split; [done|].
      intros c [Hc|Hc]%elem_of_app.
      * exists it. split; [left|]. by apply Hb1.
      * destruct (Hb2 c Hc) as (it' & ? & ?). exists it'. split; [by right|done].
    + intros k Hk.
      destruct (decide (k = Code it.2)) as [->|Hd].
      * exists it. split; [left|done].
      * destruct (Hk2 k) as (it' & ? & ?).
        { rewrite (Hk1 k Hd). done. }
        exists it'. split; [by right|done].
Qed.

(** A cycle is a run of iterations over the reports that pass the filter. *)
Lemma checkChanges_iterate found ticks server l :
  checkChanges (Ok found) ticks server l
  = iterate server (imap (fun k r => (ticks k, r)) (deleteNonRaid found))
      (log (LogLoadedReports (length (deleteNonRaid found))) l).
Proof. unfold checkChanges. by rewrite checkReports_iterate. Qed.

Lemma elem_of_cycle_iterations (ticks : nat -> Tick) (reports : list Report)
    (it : Tick * Report) :
  it ∈ imap (fun k r => (ticks k, r)) reports ->
  ∃ k, reports !! k = Some it.2 ∧ it.1 = ticks k.
Proof.
  intros (k & r & -> & Hr)%elem_of_lookup_imap. by exists k.
Qed.

Example deleteNonRaid_sample :
  deleteNonRaid [reportFlex; reportABC 2000; reportFlex] = [reportABC 2000].
Proof. reflexivity. Qed.

(** C7. The filter applied before classification keeps exactly the reports
    whose zone lists a difficulty named "Mythic" with the single size 20, in
    their order; filtering twice is filtering once; and whatever a cycle
    emits, fetches or caches belongs to a report that passed the filter. *)
Theorem deleteNonRaid_keeps_exactly_mythic20 (reports : list Report) :
  deleteNonRaid reports = filter isMythic20 reports ∧
  (∀ r, r ∈ deleteNonRaid reports ↔ r ∈ reports ∧ isMythic20 r) ∧
  deleteNonRaid (deleteNonRaid reports) = deleteNonRaid reports ∧
  ∀ ticks server l,
    (∀ e, e ∈ newEvents l (checkChanges (Ok reports) ticks server l) ->
       ∃ r, r ∈ reports ∧ isMythic20 r ∧ ReportId e = Code r) ∧
    (∀ c, c ∈ drop (length (detailsAsked l))
                 (detailsAsked (checkChanges (Ok reports) ticks server l)) ->
       ∃ r, r ∈ reports ∧ isMythic20 r ∧ c = Code r) ∧
    (∀ k, reportsCache (checkChanges (Ok reports) ticks server l) !! k
          ≠ reportsCache l !! k ->
       ∃ r, r ∈ reports ∧ isMythic20 r ∧ Code r = k).
Proof.
  split_and!.
  - apply deleteNonRaid_filter.
  - apply elem_of_deleteNonRaid.
  - rewrite !deleteNonRaid_filter. apply list_filter_filter_l. done.
  - intros ticks server l. rewrite checkChanges_iterate.
    set (l0 := log _ l). set (its := imap _ _).
    destruct (iterate_effects server its l0)
      as ((n & Hh & Hn) & (a & Ha & Hb) & Hk).
    assert (∀ it, it ∈ its -> it.2 ∈ reports ∧ isMythic20 it.2) as Hin.
    { intros it (k & Hr & _)%elem_of_cycle_iterations.
      apply elem_of_deleteNonRaid. by eapply list_elem_of_lookup_2. }
    split_and!.
    + intros e He. rewrite (newEvents_app l _ n) in He by done.
      destruct (Hn e He) as (it & Hit & ?). destruct (Hin it Hit).
      by exists it.2.
    + intros c Hc. rewrite Ha in Hc. simpl in Hc.
      rewrite drop_app_length in Hc.
      destruct (Hb c Hc) as (it & Hit & ?). destruct (Hin it Hit).
      by exists it.2.
    + intros k Hne. destruct (Hk k Hne) as (it & Hit & ?).
      destruct (Hin it Hit). by exists it.2.
Qed.








(** The scenario of four polls: a new report, an upload, fifteen quiet
    minutes, and a poll with nothing new. *)
Example four_polls :
  let poll endTime age :=
    Cycle (Ok [reportABC endTime])
          (fun _ => tickAt endTime age (Ok detailsABC) false) in
  let l := watchLoop guild1 [poll 2000 1; poll 62000 1; poll 62000 16;
                             poll 62000 17]%Z in
  map (fun e => (ReportId e, LastUpload e, Live e)) (handled l)
  = [("ABC", UnixMilli 2000, true); ("ABC", UnixMilli 62000, true);
     ("ABC", UnixMilli 62000, false)] ∧
  reportsCache l !! "ABC"
  = Some {| code := "ABC"; endTime := 62000; isLive := false |}.
Proof. vm_compute. done. Qed.

(** ** The supervisor *)

Lemma loops_same_context (ls : list (nat * storage.Server)) h s s' :
  NoDup (ls.*1) -> (h, s) ∈ ls -> (h, s') ∈ ls -> s = s'.
Proof.
  intros Hnd H1 H2.
  induction ls as [|[h0 s0] ls IH]; [by apply elem_of_nil in H1|].
  rewrite fmap_cons in Hnd. apply NoDup_cons in Hnd as [Hnin Hnd].
  apply elem_of_cons in H1 as [[= -> ->]|H1];
    apply elem_of_cons in H2 as [[= <-]|H2]; auto.
  - exfalso. apply Hnin. by apply (list_elem_of_fmap_2 fst) in H2.
  - subst. exfalso. apply Hnin. by apply (list_elem_of_fmap_2 fst) in H1.
Qed.

Lemma supervised_New : supervised New.
Proof.
  split_and!; simpl.
  - intros g h. by rewrite lookup_empty.
  - intros h s H. by apply elem_of_nil in H.
  - intros h H. by apply elem_of_nil in H.
  - constructor.
Qed.

Lemma supervised_Watch w server : supervised w -> supervised (Watch w server).
Proof.
  intros (Hw & Hl & Hc & Hnd). unfold Watch.
  destruct (watched w !! storage.ServerId server) as [h0|] eqn:Hg.
  - split_and!; simpl; [done| | |done].
    + intros h s Hin. destruct (Hl h s Hin). split; [lia|done].
    + intros h Hin. specialize (Hc h Hin). lia.
  - split_and!; simpl.
    + intros g h. rewrite lookup_insert. case_decide as Hd.
      * intros [= <-]. subst g. split.
        -- intros Hin. specialize (Hc _ Hin). lia.
        -- exists server. split; [|done]. apply elem_of_app. right. left.
      * intros Hh. destruct (Hw g h Hh) as (? & s & ? & ?). split; [done|].
        exists s. split; [|done]. apply elem_of_app. by left.
    + intros h s [Hin|Hin]%elem_of_app.
      * destruct (Hl h s Hin) as [Hlt Hact]. split; [lia|].
        intros Hnc. rewrite lookup_insert_ne; [by apply Hact|].
        intros Heq. rewrite Heq, Hact in Hg by done. done.
      * apply list_elem_of_singleton in Hin as [= -> ->]. split; [lia|].
        intros _. apply lookup_insert_eq.
    + intros h Hin. specialize (Hc h Hin). lia.
    + rewrite fmap_app. apply NoDup_app. split_and!; [done| |].
      * intros h Hh Hin. apply list_elem_of_singleton in Hin. simpl in Hin.
        subst h. apply list_elem_of_fmap in Hh as ([h s] & Heq & Hin).
        destruct (Hl h s Hin). simpl in *. lia.
      * simpl. apply NoDup_singleton.
Qed.

Lemma supervised_Unwatch w serverId :
  supervised w -> supervised (Unwatch w serverId).
Proof.
  intros (Hw & Hl & Hc & Hnd). unfold Unwatch.
  destruct (watched w !! serverId) as [h0|] eqn:Hg; [|done].
  destruct (Hw _ _ Hg) as (Hn0 & s0 & Hin0 & Hs0).
  split_and!; simpl.
  - intros g h. rewrite lookup_delete. case_decide as Hd; [done|].
    intros Hh. destruct (Hw g h Hh) as (Hn & s & Hin & Hs).
    split; [|by exists s]. apply not_elem_of_cons. split; [|done].
    intros ->. apply Hd.
    rewrite <- Hs0, <- Hs. f_equal. by eapply loops_same_context.
  - intros h s Hin. destruct (Hl h s Hin) as [Hlt Hact]. split; [done|].
    intros [Hne Hnc]%not_elem_of_cons. rewrite lookup_delete_ne; [by apply Hact|].
    intros Heq. rewrite Heq, Hact in Hg by done. congruence.
  - intros h [->|Hin]%elem_of_cons; [|by apply Hc].
    by destruct (Hl _ _ Hin0).
  - done.
Qed.

Lemma supervised_performAll os w :
  supervised w -> supervised (performAll w os).
Proof.
  revert w. induction os as [|o os IH]; intros w Hw; [done|].
  apply IH. destruct o; [by apply supervised_Watch|by apply supervised_Unwatch].
Qed.

(** In a supervised state the loops of a guild that are not cancelled are
    the one the guild maps to, if it maps to any. *)
Lemma activeLoops_supervised w g :
  supervised w ->
  match watched w !! g with
  | Some h => ∃ s, activeLoops w g = [(h, s)] ∧ storage.ServerId s = g
  | None => activeLoops w g = []
  end.
Proof.
  intros (Hw & Hl & Hc & Hnd).
  assert (NoDup (activeLoops w g)) as Hnda.
  { apply NoDup_filter. by eapply NoDup_fmap_1. }
  assert (∀ h s, (h, s) ∈ activeLoops w g -> watched w !! g = Some h) as Hall.
  { intros h s [[Hs Hn] Hin]%list_elem_of_filter. simpl in *.
    rewrite <- Hs. by apply Hl. }
  destruct (watched w !! g) as [h|] eqn:Hg.
  - destruct (Hw g h Hg) as (Hn & s & Hin & Hs). exists s. split; [|done].
    assert ((h, s) ∈ activeLoops w g) as Hact.
    { apply list_elem_of_filter. by repeat split. }
    assert (∀ x, x ∈ activeLoops w g -> x = (h, s)) as Hone.
    { intros [h' s'] Hx. pose proof (Hall _ _ Hx) as [= <-].
      f_equal. apply list_elem_of_filter in Hx as [_ Hx].
      by eapply loops_same_context. }
    destruct (activeLoops w g) as [|x [|y rest]].
    + by apply elem_of_nil in Hact.
    + f_equal. apply Hone. left.
    + exfalso. apply NoDup_cons in Hnda as [Hnin _]. apply Hnin.
      rewrite (Hone x), (Hone y); [left | right; left | left].
  - destruct (activeLoops w g) as [|[h s] rest]; [done|].
    specialize (Hall h s). discriminate Hall. left.
Qed.

Lemma Watch_loaded w server h :
  watched w !! storage.ServerId server = Some h ->
  watched (Watch w server) = watched w ∧
  loops (Watch w server) = loops w ∧
  cancelled (Watch w server) = cancelled w.
Proof. intros H. unfold Watch. by rewrite H. Qed.

Example watch_twice_starts_once :
  loops (performAll New [OpWatch guild1; OpWatch guild1]) = [(0, guild1)].
Proof. reflexivity. Qed.

(** C8. After any calls of [Watch] and [Unwatch] a guild has at most one
    loop whose context is not cancelled, and exactly one when it is
    watched.  [Watch] for a watched guild changes neither the map nor the
    loops; two calls of [Watch] for a guild not yet watched start one loop;
    [Unwatch] for a watched guild removes the guild from the map and cancels
    the stored context, leaving the guild without a live loop; [Unwatch] for
    a guild that is not watched, or was just unwatched, changes nothing. *)
Theorem one_loop_per_guild (os : list Op) (g : string) :
  let w := performAll New os in
  length (activeLoops w g) ≤ 1 ∧
  (is_Some (watched w !! g) ↔ length (activeLoops w g) = 1) ∧
  (∀ server, storage.ServerId server = g -> is_Some (watched w !! g) ->
     watched (Watch w server) = watched w ∧
     loops (Watch w server) = loops w ∧
     cancelled (Watch w server) = cancelled w) ∧
  (∀ server server',
     storage.ServerId server = g -> storage.ServerId server' = g ->
     watched w !! g = None ->
     loops (Watch (Watch w server) server') = loops w ++ [(contexts w, server)] ∧
     length (startedLoops (Watch (Watch w server) server') g)
       = S (length (startedLoops w g)) ∧
     activeLoops (Watch (Watch w server) server') g = [(contexts w, server)]) ∧
  (∀ cancel, watched w !! g = Some cancel ->
     watched (Unwatch w g) = delete g (watched w) ∧
     cancelled (Unwatch w g) = cancel :: cancelled w ∧
     loops (Unwatch w g) = loops w ∧
     activeLoops (Unwatch w g) g = []) ∧
  (watched w !! g = None -> Unwatch w g = w) ∧
  Unwatch (Unwatch w g) g = Unwatch w g.
Proof.
  cbv zeta. set (w := performAll New os).
  assert (supervised w) as Hsup.
  { apply supervised_performAll, supervised_New. }
  pose proof (activeLoops_supervised w g Hsup) as Hact.
  split_and!.
  - destruct (watched w !! g); [destruct Hact as (s & -> & _)|rewrite Hact];
      simpl; lia.
  - destruct (watched w !! g).
    + destruct Hact as (s & -> & _). split; [done|]. by eexists.
    + rewrite Hact. split; [by intros [? ?]|done].
  - intros server <- [h Hh]. by eapply Watch_loaded.
  - intros server server' Hs Hs' Hnone.
    assert (watched (Watch w server) !! g = Some (contexts w) ∧
            loops (Watch w server) = loops w ++ [(contexts w, server)])
      as [Hw1 Hl1].
    { unfold Watch. rewrite Hs, Hnone. simpl.
      by rewrite lookup_insert_eq. }
    destruct (Watch_loaded (Watch w server) server' (contexts w))
      as (Hw2 & Hl2 & Hc2); [by rewrite Hs'|].
    split; [by rewrite Hl2, Hl1|].
    split.
    { unfold startedLoops. rewrite Hl2, Hl1, filter_app, length_app.
      rewrite filter_cons, decide_True by done. simpl. lia. }
    pose proof (activeLoops_supervised (Watch (Watch w server) server') g)
      as Hact2.
    rewrite Hw2, Hw1 in Hact2. destruct Hact2 as (s & Heq & _).
    { by do 2 apply supervised_Watch. }
    rewrite Heq. f_equal. f_equal.
    assert ((contexts w, s) ∈ activeLoops (Watch (Watch w server) server') g)
      as Hin by (rewrite Heq; left).
    apply list_elem_of_filter in Hin as [_ Hin]. rewrite Hl2 in Hin.
    destruct (supervised_Watch w server Hsup) as (_ & _ & _ & Hnd).
    eapply loops_same_context; [exact Hnd|exact Hin|].
    rewrite Hl1. apply elem_of_app. right. left.
  - intros cancel Hc.
    pose proof (activeLoops_supervised (Unwatch w g) g
                  (supervised_Unwatch w g Hsup)) as Hact2.
    unfold Unwatch in *. rewrite Hc in *. simpl in *.
    rewrite lookup_delete_eq in Hact2. done.
  - intros Hnone. unfold Unwatch. by rewrite Hnone.
  - unfold Unwatch at 1. destruct (watched w !! g) as [h|] eqn:Hh.
    + unfold Unwatch. rewrite Hh. simpl. by rewrite lookup_delete_eq.
    + unfold Unwatch. rewrite Hh. by rewrite Hh.
Qed.

(** ** The token *)

Lemma fresh_spec net (c : Client) (s : Run) :
  fresh net (token c) (expiresAt c) s
  = (bool_decide (Fresh c (clock net (clockReads s))),
     {| client := client s; clockReads := readsAfterCheck c (clockReads s);
        exchanges := exchanges s; lockings := lockings s;
        posted := posted s |}).
Proof.
  unfold fresh, readsAfterCheck, Fresh, tokenSkew.
  destruct (decide (token c = "")) as [He|Hne].
  - unfold ret. destruct s. simpl. rewrite bool_decide_eq_false_2; [done|].
    intros [? _]. done.
  - unfold bind, Now, ret. simpl. f_equal.
    destruct (Z.ltb_spec (clock net (clockReads s) + 60 * Second)
                (expiresAt c)).
    + by rewrite bool_decide_eq_true_2.
    + rewrite bool_decide_eq_false_2; [done|]. intros [_ ?]. lia.
Qed.

Lemma refreshToken_spec net (s : Run) :
  let c := others net (lockings s) (client s) in
  refreshToken net s =
    if bool_decide (Fresh c (clock net (clockReads s)))
    then (Ok tt, tokenKept c (readsAfterCheck c (clockReads s))
                   (S (lockings s)) s)
    else exchanged net c (readsAfterCheck c (clockReads s)) (S (lockings s)) s.
Proof.
  cbv zeta. unfold refreshToken, bind, acquire, getClient. simpl.
  rewrite fresh_spec. simpl.
  destruct (bool_decide (Fresh _ _)); [done|].
  unfold getToken, exchanged, bind, postToken, ret. simpl.
  destruct (oauth net (exchanges s)) as [resp|e]; [|done].
  destruct (IsError (TokenStatusCode resp)); done.
Qed.

Lemma ensureToken_spec net (s : Run) :
  ensureToken net s =
    if bool_decide (Fresh (client s) (clock net (clockReads s)))
    then (Ok tt, tokenKept (client s)
                   (readsAfterCheck (client s) (clockReads s)) (lockings s) s)
    else refreshToken net
           (tokenKept (client s) (readsAfterCheck (client s) (clockReads s))
              (lockings s) s).
Proof.
  unfold ensureToken, bind, getClient. rewrite fresh_spec.
  destruct (bool_decide (Fresh _ _)); done.
Qed.

(** C6. [ensureToken] with a stored token that is not empty and expires
    more than 60 seconds from now returns at once: no credential exchange,
    no lock taken for writing, token and expiry as they were.  Otherwise it
    goes on to [refreshToken], which checks the same condition again on the
    client as it finds it under the lock; only when that second check fails
    too is the token endpoint called, once; a failed exchange is returned as
    the error it is, with the client left as found, and nothing is retried. *)
Theorem ensureToken_exchanges_only_when_stale (net : Net) (s : Run) :
  let c1 := client s in
  let now1 := clock net (clockReads s) in
  let reads1 := readsAfterCheck c1 (clockReads s) in
  let c2 := others net (lockings s) c1 in
  let now2 := clock net reads1 in
  let reads2 := readsAfterCheck c2 reads1 in
  let out := ensureToken net s in
  (Fresh c1 now1 ->
     out.1 = Ok tt ∧ client out.2 = c1 ∧ exchanges out.2 = exchanges s ∧
     lockings out.2 = lockings s) ∧
  (¬ Fresh c1 now1 -> Fresh c2 now2 ->
     out.1 = Ok tt ∧ client out.2 = c2 ∧ exchanges out.2 = exchanges s) ∧
  (¬ Fresh c1 now1 -> ¬ Fresh c2 now2 ->
     exchanges out.2 = S (exchanges s) ∧
     match oauth net (exchanges s) with
     | Err e => out.1 = Err e ∧ client out.2 = c2
     | Ok resp =>
         if IsError (TokenStatusCode resp)
         then out.1 = Err (ErrOAuth (TokenStatusCode resp) (TokenBody resp)) ∧
              client out.2 = c2
         else out.1 = Ok tt ∧
              client out.2 =
                {| token := AccessToken (TokenResult resp);
                   expiresAt :=
                     (clock net reads2
                      + wrap64 (wrap64 (ExpiresIn (TokenResult resp)) * Second))%Z |}
     end) ∧
  exchanges s ≤ exchanges out.2 ≤ S (exchanges s) ∧
  (exchanges out.2 = S (exchanges s) ↔ ¬ Fresh c1 now1 ∧ ¬ Fresh c2 now2).
Proof.
  cbv zeta. rewrite ensureToken_spec.
  destruct (decide (Fresh (client s) (clock net (clockReads s)))) as [H1|H1].
  { rewrite bool_decide_eq_true_2 by done. simpl.
    split_and!; try done; try lia. split; [lia|by intros [? _]]. }
  rewrite bool_decide_eq_false_2 by done. rewrite refreshToken_spec. simpl.
  set (c2 := others net (lockings s) (client s)).
  set (reads1 := readsAfterCheck (client s) (clockReads s)).
  destruct (decide (Fresh c2 (clock net reads1))) as [H2|H2].
  { rewrite bool_decide_eq_true_2 by done. simpl.
    split_and!; try done; try lia. split; [lia|by intros [_ ?]]. }
  rewrite bool_decide_eq_false_2 by done. unfold exchanged. simpl.
  destruct (oauth net (exchanges s)) as [resp|e]; simpl.
  - destruct (IsError (TokenStatusCode resp)); simpl;
      split_and!; try done; try lia.
  - split_and!; try done; lia.
Qed.

(** C6 at work: a token known to be expired is exchanged, once. *)
Lemma ensureToken_exchanges_only_when_stale_witness :
  exchanges (ensureToken sampleNet (startRun expiredClient)).2 = 1.
Proof.
  destruct (ensureToken_exchanges_only_when_stale sampleNet
              (startRun expiredClient)) as (_ & _ & H & _).
  destruct H as [He _].
  - intros [_ Hlt]. vm_compute in Hlt. discriminate.
  - intros [_ Hlt]. vm_compute in Hlt. discriminate.
  - exact He.
Defined.

Example ensureToken_fresh_and_expired :
  ensureToken sampleNet (startRun revokedClient)
  = (Ok tt, {| client := revokedClient; clockReads := 1; exchanges := 0;
               lockings := 0; posted := [] |}) ∧
  client (ensureToken sampleNet (startRun expiredClient)).2
  = {| token := "new"; expiresAt := (1000 * Second + 2 + Hour)%Z |}.
Proof. vm_compute. done. Qed.

(** ** Queries *)

Lemma doOnce_spec net reqBody (s : Run) :
  let c := others net (lockings s) (client s) in
  doOnce net reqBody s =
    (graphql net (length (posted s))
       {| AuthToken := token c; ReqBody := reqBody |},
     {| client := c; clockReads := clockReads s; exchanges := exchanges s;
        lockings := S (lockings s);
        posted := posted s ++ [{| AuthToken := token c; ReqBody := reqBody |}] |}).
Proof. done. Qed.

Lemma refreshToken_posted net s :
  posted (refreshToken net s).2 = posted s ∧
  exchanges s ≤ exchanges (refreshToken net s).2 ≤ S (exchanges s).
Proof.
  rewrite refreshToken_spec. cbv zeta.
  destruct (bool_decide _); simpl; [split; [done|lia]|].
  unfold exchanged. destruct (oauth net (exchanges s)) as [resp|e]; simpl.
  - destruct (IsError _); simpl; (split; [done|lia]).
  - split; [done|lia].
Qed.

Lemma ensureToken_posted net s :
  posted (ensureToken net s).2 = posted s ∧
  exchanges s ≤ exchanges (ensureToken net s).2 ≤ S (exchanges s).
Proof.
  rewrite ensureToken_spec.
  destruct (bool_decide _); simpl; [split; [done|lia]|].
  apply (refreshToken_posted net (tokenKept _ _ _ s)).
Qed.

(** A query sends at most two requests, the second only after a 401, and
    exchanges credentials at most twice. *)
Lemma gql_sends_at_most_twice {A} net query vars
    (out : option (string -> Result A)) (s : Run) :
  ∃ sent, posted (gql net query vars out s).2 = posted s ++ sent ∧
          length sent ≤ 2 ∧
          (length sent = 2 ->
           ∃ rq rq' resp, sent = [rq; rq'] ∧ ReqBody rq' = ReqBody rq ∧
                          graphql net (length (posted s)) rq = Ok resp ∧
                          StatusCode resp = 401%Z).
Proof.
  unfold gql, bind.
  destruct (ensureToken net s) as [t s1] eqn:Het.
  pose proof (ensureToken_posted net s) as [Hp1 _]. rewrite Het in Hp1.
  simpl in Hp1. destruct t as [[]|e]; [|exists []; simpl;
    rewrite app_nil_r; split_and!; [done|lia|discriminate]].
  rewrite doOnce_spec. cbv zeta. rewrite Hp1.
  set (rq := {| AuthToken := _; ReqBody := _ |}).
  destruct (graphql net (length (posted s)) rq) as [resp|e] eqn:Hg;
    [|exists [rq]; simpl; split_and!; [done|lia|discriminate]].
  destruct (decide (StatusCode resp = 401%Z)) as [H401|Hne];
    [|exists [rq]; simpl; split_and!; [done|lia|discriminate]].
  match goal with |- context [refreshToken net ?s0] =>
    pose proof (refreshToken_posted net s0) as [Hp2 _];
    destruct (refreshToken net s0) as [t' s2] end.
  simpl in Hp2.
  destruct t' as [[]|e]; [|exists [rq]; unfold ret; simpl; rewrite Hp2;
    split_and!; [done|lia|discriminate]].
  rewrite doOnce_spec. cbv zeta. rewrite Hp2.
  set (rq' := {| AuthToken := _; ReqBody := _ |}).
  exists [rq; rq'].
  destruct (graphql net _ rq') as [resp'|e']; unfold ret; simpl;
    rewrite <- app_assoc; (split_and!; [done|lia|]); intros _;
    by exists rq, rq', resp.
Qed.

(** What a response leads to once the retry is over: an error status is a
    failure; failing that, errors in the envelope are a failure carrying the
    first message; failing that, an empty or null payload is a failure. *)
Lemma gqlFinish_failures {A} (out : option (string -> Result A))
    (resp : Response) :
  (IsError (StatusCode resp) = true ->
   gqlFinish out resp = Err (ErrGraphqlStatus (StatusCode resp) (Body resp))) ∧
  (IsError (StatusCode resp) = false ->
   ∀ e es, Errors (Envelope resp) = e :: es ->
           gqlFinish out resp = Err (ErrGraphql (Message e))) ∧
  (IsError (StatusCode resp) = false -> Errors (Envelope resp) = [] ->
   Data (Envelope resp) = "" ∨ Data (Envelope resp) = "null" ->
   gqlFinish out resp = Err ErrEmptyData).
Proof.
  unfold gqlFinish. split_and!.
  - by intros ->.
  - intros -> e es ->. done.
  - intros -> -> Hd. destruct out as [f|]; [|done].
    destruct Hd as [->| ->]; done.
Qed.

(** Whenever the stored token passes the freshness check and nobody else
    replaces it, a 401 changes nothing: no credentials are exchanged and the
    second request carries the token of the first. *)
Lemma gql_401_keeps_fresh_token {A} net query vars
    (out : option (string -> Result A)) (s : Run) (resp : Response) :
  let c := client s in
  let rq := {| AuthToken := token c;
               ReqBody := {| Query := query; Variables := vars |} |} in
  Fresh c (clock net (clockReads s)) ->
  Fresh c (clock net (S (clockReads s))) ->
  (∀ k, others net k c = c) ->
  graphql net (length (posted s)) rq = Ok resp ->
  StatusCode resp = 401%Z ->
  exchanges (gql net query vars out s).2 = exchanges s ∧
  client (gql net query vars out s).2 = c ∧
  posted (gql net query vars out s).2 = posted s ++ [rq; rq].
Proof.
  cbv zeta. intros Hf1 Hf2 Hid Hg H401.
  assert (readsAfterCheck (client s) (clockReads s) = S (clockReads s)) as Hr.
  { unfold readsAfterCheck. destruct Hf1 as [Hne _]. by rewrite decide_False. }
  unfold gql, bind. rewrite ensureToken_spec.
  rewrite bool_decide_eq_true_2 by done.
  rewrite doOnce_spec. cbv zeta. simpl. rewrite Hid, Hg, Hr.
  rewrite decide_True by done.
  rewrite refreshToken_spec. cbv zeta. simpl. rewrite Hid.
  rewrite bool_decide_eq_true_2 by done. simpl. rewrite Hid.
  match goal with
  | |- context [match ?r with Ok _ => _ | Err _ => _ end] => destruct r
  end; unfold ret; simpl; by rewrite <- app_assoc.
Qed.

(** C5, the code at the failing input.  The server has revoked a token
    that the client believes good for another hour.  The first request is
    answered 401; [refreshToken] finds the stored token fresh and exchanges
    nothing; the request goes out again with the same token and the call
    fails with the second 401, although the token endpoint would have
    handed out a token that the server accepts.  Had the client known the
    token to be expired, the same call would have succeeded. *)
Theorem gql_401_retry_without_refresh :
  let out := gql sampleNet "query" ∅ (Some (fun data => Ok data))
               (startRun revokedClient) in
  out.1 = Err (ErrGraphqlStatus 401 "Unauthenticated.") ∧
  exchanges out.2 = 0 ∧
  map AuthToken (posted out.2) = ["revoked"; "revoked"] ∧
  client out.2 = revokedClient ∧
  (gql sampleNet "query" ∅ (Some (fun data => Ok data))
     (startRun expiredClient)).1 = Ok "{}".
Proof. vm_compute. done. Qed.

(** ** Pagination *)

Section Pagination.

Variable unmarshal : string -> option DeathEvent.
Variable sortSlice : list DeathEvent -> list DeathEvent.
Variable gqlEvents : nat -> gmap string Var -> Result eventsPage.

Lemma appendEvents_spec data deaths warns :
  appendEvents unmarshal data deaths warns
  = (deaths ++ omap unmarshal data,
     warns ++ replicate (length (filter (fun raw => unmarshal raw = None) data))
                WarnUnmarshalDeathEvent).
Proof.
  revert deaths warns. induction data as [|raw data IH]; intros deaths warns.
  - simpl. by rewrite !app_nil_r.
  - simpl. rewrite filter_cons. destruct (unmarshal raw) as [ev|] eqn:Hu.
    + rewrite IH, decide_False by done. rewrite <- app_assoc. reflexivity.
    + rewrite IH, decide_True by done. simpl. rewrite <- app_assoc.
      reflexivity.
Qed.

Lemma cursorAfter_cons c page pages :
  cursorAfter c (page :: pages) = cursorAfter (NextPageTimestamp page) pages.
Proof.
  unfold cursorAfter. destruct pages as [|page' pages]; [done|].
  rewrite last_cons.
  destruct (last (page' :: pages)) eqn:Hl; [done|].
  by apply last_None in Hl.
Qed.

Lemma parsedEvents_cons page pages :
  parsedEvents unmarshal (page :: pages)
  = omap unmarshal (EventsData page) ++ parsedEvents unmarshal pages.
Proof. done. Qed.

Lemma unparsed_cons page pages :
  unparsed unmarshal (page :: pages)
  = length (filter (fun raw => unmarshal raw = None) (EventsData page))
    + unparsed unmarshal pages.
Proof.
  unfold unparsed. simpl. by rewrite filter_app, length_app.
Qed.

Lemma pagesLoop_S fuel reportCode fightId wipeCutoff cursor pageCount
    deaths warns :
  pagesLoop unmarshal gqlEvents (S fuel) reportCode fightId wipeCutoff cursor
    pageCount deaths warns
  = match gqlEvents pageCount
            (eventsVars reportCode fightId wipeCutoff cursor) with
    | Err e => Some (Err e, warns)
    | Ok out =>
        let '(deaths', warns') :=
          appendEvents unmarshal (EventsData out) deaths warns in
        match NextPageTimestamp out with
        | None => Some (Ok deaths', warns')
        | Some ts =>
            if maxPages <=? S pageCount
            then Some (Ok deaths', warns' ++ [WarnMaxPages maxPages])
            else pagesLoop unmarshal gqlEvents fuel reportCode fightId
                   wipeCutoff (Some ts) (S pageCount) deaths' warns'
        end
    end.
Proof. reflexivity. Qed.

Lemma pagesLoop_run fuel reportCode fightId wipeCutoff cursor pageCount
    deaths warns :
  pageCount < maxPages -> maxPages ≤ fuel + pageCount ->
  ∃ pages stop,
    Served gqlEvents (eventsVars reportCode fightId wipeCutoff)
      pageCount cursor pages ∧
    StoppedBy gqlEvents (eventsVars reportCode fightId wipeCutoff)
      pageCount cursor pages stop ∧
    pagesLoop unmarshal gqlEvents fuel reportCode fightId wipeCutoff cursor
      pageCount deaths warns
    = Some (stopResult stop (deaths ++ parsedEvents unmarshal pages),
            warns ++ replicate (unparsed unmarshal pages)
                       WarnUnmarshalDeathEvent ++ stopWarning stop) ∧
    pageCount + length pages ≤ maxPages.
Proof.
  revert cursor pageCount deaths warns.
  induction fuel as [|fuel IH]; intros cursor pageCount deaths warns Hlt Hfuel;
    [lia|].
  rewrite pagesLoop_S.
  destruct (gqlEvents pageCount
              (eventsVars reportCode fightId wipeCutoff cursor))
    as [out|e] eqn:Hg.
  2:{ exists [], (StopFailed e). split_and!.
      - constructor.
      - simpl. rewrite Nat.add_0_r. split_and!; [done|done|done].
      - simpl. by rewrite !app_nil_r.
      - simpl. lia. }
  rewrite appendEvents_spec.
  destruct (NextPageTimestamp out) as [ts|] eqn:Hn.
  2:{ exists [out], StopNoCursor. split_and!.
      - constructor; [done|done|constructor].
      - simpl. split; [done|]. unfold cursorAfter. by simpl.
      - simpl. rewrite unparsed_cons, parsedEvents_cons. unfold unparsed.
        simpl. by rewrite !app_nil_r, Nat.add_0_r.
      - simpl. lia. }
  destruct (maxPages <=? S pageCount) eqn:Hcap.
  { apply Nat.leb_le in Hcap. exists [out], StopMaxPages. split_and!.
    - constructor; [done|done|constructor].
    - simpl. split_and!; [done| |lia]. unfold cursorAfter. simpl.
      rewrite Hn. by eexists.
    - simpl. rewrite unparsed_cons, parsedEvents_cons. unfold unparsed.
      simpl. rewrite !app_nil_r, Nat.add_0_r. by rewrite <- app_assoc.
    - simpl. lia. }
  apply Nat.leb_gt in Hcap.
  destruct (IH (Some ts) (S pageCount)
              (deaths ++ omap unmarshal (EventsData out))
              (warns ++ replicate
                 (length (filter (fun raw => unmarshal raw = None)
                            (EventsData out))) WarnUnmarshalDeathEvent))
    as (pages & stop & Hserved & Hstop & Hrun & Hlen); [lia|lia|].
  exists (out :: pages), stop. split_and!.
  - constructor; [done| |by rewrite Hn]. rewrite Hn. by eexists.
  - destruct stop as [e| |]; simpl in *; rewrite cursorAfter_cons, Hn.
    + destruct Hstop as (He & Hc & Hl).
      replace (pageCount + S (length pages)) with (S pageCount + length pages)
        by lia.
      split_and!; [done| |lia]. intros _.
      destruct pages as [|p ps]; [by eexists|]. by apply Hc.
    + destruct Hstop as (Hne & Hc). done.
    + destruct Hstop as (Hne & Hc & Hl). split_and!; [done|done|lia].
  - rewrite Hrun. rewrite unparsed_cons, parsedEvents_cons, replicate_add.
    by rewrite <- !app_assoc.
  - simpl. lia.
Qed.

End Pagination.

(** ** Sorting *)

Section StableSort.

Context {A : Type} (less : A -> A -> bool).

Lemma insertStable_Permutation (x : A) (l : list A) :
  insertStable less x l ≡ₚ x :: l.
Proof.
  induction l as [|y l IH]; simpl; [done|].
  destruct (less y x); [|done]. rewrite IH. apply Permutation_swap.
Qed.

Lemma SliceStable_Permutation (l : list A) : SliceStable less l ≡ₚ l.
Proof.
  induction l as [|x l IH]; simpl; [done|].
  by rewrite insertStable_Permutation, IH.
Qed.

Lemma Before_cons_inv (l : list A) (x a b : A) :
  Before (x :: l) a b -> (a = x ∧ b ∈ l) ∨ Before l a b.
Proof.
  intros (l1 & l2 & l3 & Heq). destruct l1 as [|y l1]; simpl in Heq.
  - injection Heq as <- ->. left. split; [done|].
    apply elem_of_app. right. left.
  - injection Heq as <- ->. right. by exists l1, l2, l3.
Qed.

Lemma Before_cons (l : list A) (x a b : A) : Before l a b -> Before (x :: l) a b.
Proof. intros (l1 & l2 & l3 & ->). by exists (x :: l1), l2, l3. Qed.

Lemma Before_head (l : list A) (x b : A) : b ∈ l -> Before (x :: l) x b.
Proof.
  intros (l2 & l3 & ->)%list_elem_of_split. by exists [], l2, l3.
Qed.

Lemma Before_elem_of (l : list A) (a b : A) : Before l a b -> a ∈ l ∧ b ∈ l.
Proof.
  intros (l1 & l2 & l3 & ->). split.
  - apply elem_of_app. right. left.
  - apply elem_of_app. right. right. apply elem_of_app. right. left.
Qed.

Lemma Before_take (n : nat) (l : list A) (a b : A) :
  Before (take n l) a b -> Before l a b.
Proof.
  intros (l1 & l2 & l3 & Heq). exists l1, l2, (l3 ++ drop n l).
  rewrite <- (take_drop n l) at 1. rewrite Heq.
  by rewrite <- !app_assoc, <- !app_comm_cons, <- !app_assoc.
Qed.

Lemma Before_lookup (l : list A) (a b : A) :
  Before l a b ↔ ∃ i j, i < j ∧ l !! i = Some a ∧ l !! j = Some b.
Proof.
  split.
  - intros (l1 & l2 & l3 & ->). exists (length l1), (length l1 + S (length l2)).
    split_and!; [lia| |].
    + by rewrite lookup_app_r, Nat.sub_diag by lia.
    + rewrite lookup_app_r by lia.
      replace (length l1 + S (length l2) - length l1) with (S (length l2))
        by lia.
      simpl. by rewrite lookup_app_r, Nat.sub_diag by lia.
  - intros (i & j & Hij & Hi & Hj).
    apply list_elem_of_split_length in Hi as (l1 & l' & -> & ->).
    rewrite lookup_app_r in Hj by lia.
    destruct (j - length l1) as [|k] eqn:Hk; [lia|]. simpl in Hj.
    apply list_elem_of_split_length in Hj as (l2 & l3 & -> & _).
    by exists l1, l2, l3.
Qed.

(** Where an inserted element lands: what was ahead stays ahead, and the
    new element passes only those that sort strictly ahead of it. *)
Lemma Before_insertStable (x : A) (l : list A) (a b : A) :
  Before (insertStable less x l) a b ->
  Before l a b ∨ (a = x ∧ b ∈ l) ∨ (b = x ∧ a ∈ l ∧ less a x = true).
Proof.
  induction l as [|y l IH]; simpl.
  - intros (l1 & l2 & l3 & Heq). destruct l1 as [|? [|? ?]]; simplify_eq.
    destruct l2; simplify_eq.
  - destruct (less y x) eqn:Hl.
    + intros [[-> Hin]|Hb]%Before_cons_inv.
      * rewrite insertStable_Permutation in Hin.
        apply elem_of_cons in Hin as [->|Hin].
        -- right; right. split_and!; [done|left|done].
        -- left. by apply Before_head.
      * destruct (IH Hb) as [?|[[-> ?]|(-> & ? & ?)]].
        -- left. by apply Before_cons.
        -- right; left. split; [done|by right].
        -- right; right. split_and!; [done|by right|done].
    + intros [[-> Hin]|Hb]%Before_cons_inv.
      * right; left. done.
      * by left.
Qed.

(** Stability: what ends up ahead in the sorted slice either was ahead
    before, or sorts strictly ahead. *)
Lemma Before_SliceStable (l : list A) (a b : A) :
  Before (SliceStable less l) a b -> Before l a b ∨ less a b = true.
Proof.
  revert a b. induction l as [|x l IH]; intros a b; simpl.
  - intros (l1 & l2 & l3 & Heq). by destruct l1.
  - intros [Hb|[[-> Hin]|(-> & Hin & Hl)]]%Before_insertStable.
    + destruct (IH _ _ Hb); [left; by apply Before_cons|by right].
    + left. apply Before_head. by rewrite SliceStable_Permutation in Hin.
    + by right.
Qed.

Hypothesis less_asym : ∀ a b, less a b = true -> less b a = false.
Hypothesis less_negtrans :
  ∀ a b c, less b a = false -> less c b = false -> less c a = false.

Lemma insertStable_sorted (x : A) (l : list A) :
  StronglySorted (fun a b => less b a = false) l ->
  StronglySorted (fun a b => less b a = false) (insertStable less x l).
Proof.
  induction 1 as [|y l Hs IH Hall]; simpl.
  - repeat constructor.
  - destruct (less y x) eqn:Hl.
    + constructor; [done|]. rewrite insertStable_Permutation.
      constructor; [by apply less_asym|done].
    + constructor; [by constructor|]. constructor; [done|].
      eapply Forall_impl; [exact Hall|]. simpl. intros z Hz.
      by eapply less_negtrans.
Qed.

Lemma SliceStable_sorted (l : list A) :
  StronglySorted (fun a b => less b a = false) (SliceStable less l).
Proof.
  induction l as [|x l IH]; simpl; [constructor|].
  by apply insertStable_sorted.
Qed.

End StableSort.

Lemma StronglySorted_weaken {A} (R R' : A -> A -> Prop) (l : list A) :
  (∀ a b, R a b -> R' a b) -> StronglySorted R l -> StronglySorted R' l.
Proof.
  intros Himp. induction 1 as [|x l Hs IH Hall]; constructor; [done|].
  eapply Forall_impl; [exact Hall|]. auto.
Qed.

Lemma sampleSort_Permutation l : sampleSort l ≡ₚ l.
Proof. apply SliceStable_Permutation. Qed.

Lemma sampleSort_Sorted l : Sorted byTimestamp (sampleSort l).
Proof.
  apply StronglySorted_Sorted.
  eapply StronglySorted_weaken;
    [|apply SliceStable_sorted; intros; simpl in *; lia].
  intros a b Hab. unfold byTimestamp. simpl in Hab. lia.
Qed.

(** The counterexample to C2 as it is worded: the first page parses and
    comes with a cursor, the request that follows the cursor fails; the call
    stops there, short of a page without cursor and of the cap, and returns
    the error and no events. *)
Lemma getDeathEvents_request_failure :
  secondRequestFails 0 (eventsVars "ABC" 7 3 None)
    = Ok {| EventsData := ["r30"]; NextPageTimestamp := Some 100%Z |} ∧
  sampleUnmarshal "r30" = Some (deathOf 30 "Leeroy") ∧
  getDeathEvents sampleUnmarshal sampleSort secondRequestFails 10 "ABC" 7 3
    = Some (Err (ErrGraphqlStatus 502 "Bad Gateway"), []).
Proof. vm_compute. done. Qed.

Section SortedPagination.

Variable unmarshal : string -> option DeathEvent.
Variable sortSlice : list DeathEvent -> list DeathEvent.

(** What [sort.Slice] promises for a comparison by [<] on timestamps. *)
Hypothesis sortSlice_Permutation : ∀ l, sortSlice l ≡ₚ l.
Hypothesis sortSlice_Sorted : ∀ l, Sorted byTimestamp (sortSlice l).

(** C2, amended.  Whatever the server answers, [getDeathEvents] returns.
    The pages it fetched number at most 10, the first was asked for without
    a cursor and each later one with the cursor of the page before it.  It
    stopped because a request failed, and then it returns that error and
    none of the events; or because a page came without a cursor; or because
    10 pages were fetched and the last still had a cursor, and then it logs
    the warning and returns what it has.  In the last two cases the list
    returned is the records of the fetched pages that parse, the others
    being skipped with a warning each, rearranged in ascending order of
    timestamp. *)
Theorem getDeathEvents_paginates
    (gqlEvents : nat -> gmap string Var -> Result eventsPage) (fuel : nat)
    (reportCode : string) (fightId wipeCutoff : Z) :
  maxPages ≤ fuel ->
  ∃ pages stop r warns,
    getDeathEvents unmarshal sortSlice gqlEvents fuel reportCode fightId
      wipeCutoff = Some (r, warns) ∧
    Served gqlEvents (eventsVars reportCode fightId wipeCutoff) 0 None pages ∧
    length pages ≤ 10 ∧
    StoppedBy gqlEvents (eventsVars reportCode fightId wipeCutoff) 0 None
      pages stop ∧
    r = stopResult stop (sortSlice (parsedEvents unmarshal pages)) ∧
    warns = replicate (unparsed unmarshal pages) WarnUnmarshalDeathEvent
            ++ stopWarning stop ∧
    (∀ deaths, r = Ok deaths ->
       deaths ≡ₚ parsedEvents unmarshal pages ∧ Sorted byTimestamp deaths) ∧
    (∀ e, r = Err e ↔ stop = StopFailed e).
Proof.
  intros Hfuel.
  destruct (pagesLoop_run unmarshal gqlEvents fuel reportCode fightId
              wipeCutoff None 0 [] [])
    as (pages & stop & Hserved & Hstop & Hrun & Hlen);
    [unfold maxPages; lia|lia|].
  exists pages, stop, (stopResult stop (sortSlice (parsedEvents unmarshal pages))),
    (replicate (unparsed unmarshal pages) WarnUnmarshalDeathEvent
     ++ stopWarning stop).
  split_and!; try done.
  - unfold getDeathEvents. rewrite Hrun. simpl. by destruct stop.
  - intros deaths Hr. destruct stop; simplify_eq/=; by split.
  - intros e. destruct stop; simpl; split; intros; by simplify_eq.
Qed.

End SortedPagination.

Lemma threePages_Served :
  Served threePages (eventsVars "ABC" 7 3) 0 None
    [ {| EventsData := ["r30"; "garbage"]; NextPageTimestamp := Some 100%Z |};
      {| EventsData := ["r10"; "r40"]; NextPageTimestamp := Some 200%Z |};
      {| EventsData := ["r20"; "r05"]; NextPageTimestamp := None |} ].
Proof.
  constructor; [reflexivity|by eexists|].
  constructor; [reflexivity|by eexists|].
  constructor; [reflexivity|done|].
  constructor.
Qed.

Example getDeathEvents_threePages :
  getDeathEvents sampleUnmarshal sampleSort threePages 10 "ABC" 7 3
  = Some (Ok [deathOf 5 ""; deathOf 10 "Thrall"; deathOf 20 "Leeroy";
              deathOf 30 "Leeroy"; deathOf 40 "Jaina"],
          [WarnUnmarshalDeathEvent]).
Proof. vm_compute. reflexivity. Qed.

Example getDeathEvents_endlessPages :
  getDeathEvents sampleUnmarshal sampleSort endlessPages 10 "ABC" 7 3
  = Some (Ok (replicate 10 (deathOf 10 "Thrall")), [WarnMaxPages 10]).
Proof. vm_compute. reflexivity. Qed.

(** C2 at work, with an insertion sort for [sort.Slice] and the server of
    three pages. *)
Lemma getDeathEvents_paginates_witness :
  ∃ pages stop r warns,
    getDeathEvents sampleUnmarshal sampleSort threePages 10 "ABC" 7 3
      = Some (r, warns) ∧
    Served threePages (eventsVars "ABC" 7 3) 0 None pages ∧
    length pages ≤ 10 ∧
    StoppedBy threePages (eventsVars "ABC" 7 3) 0 None pages stop ∧
    r = stopResult stop (sampleSort (parsedEvents sampleUnmarshal pages)) ∧
    warns = replicate (unparsed sampleUnmarshal pages) WarnUnmarshalDeathEvent
            ++ stopWarning stop ∧
    (∀ deaths, r = Ok deaths ->
       deaths ≡ₚ parsedEvents sampleUnmarshal pages ∧
       Sorted byTimestamp deaths) ∧
    (∀ e, r = Err e ↔ stop = StopFailed e).
Proof.
  apply (getDeathEvents_paginates sampleUnmarshal sampleSort
           sampleSort_Permutation sampleSort_Sorted threePages 10 "ABC" 7 3).
  unfold maxPages. lia.
Defined.

(** ** The counters *)

Lemma wrap64_succ (z : Z) : wrap64 (wrap64 z + 1) = wrap64 (z + 1).
Proof.
  unfold wrap64.
  replace ((z + 2 ^ 63) mod 2 ^ 64 - 2 ^ 63 + 1 + 2 ^ 63)%Z
    with ((z + 2 ^ 63) mod 2 ^ 64 + 1)%Z by lia.
  rewrite Zplus_mod_idemp_l. f_equal. f_equal. lia.
Qed.

Lemma wrap64_small (z : Z) :
  (- 2 ^ 63 ≤ z < 2 ^ 63)%Z -> wrap64 z = z.
Proof.
  intros Hz. unfold wrap64. rewrite Z.mod_small; lia.
Qed.

Lemma occurrences_app name l1 l2 :
  occurrences name (l1 ++ l2) = occurrences name l1 + occurrences name l2.
Proof. unfold occurrences. by rewrite filter_app, length_app. Qed.

Lemma occurrences_singleton name n :
  occurrences name [n] = if decide (n = name) then 1 else 0.
Proof.
  unfold occurrences. rewrite filter_cons, filter_nil.
  by destruct (decide (n = name)).
Qed.

Lemma occurrences_not_elem name l : name ∉ l -> occurrences name l = 0.
Proof.
  intros Hn. unfold occurrences.
  induction l as [|x l IH]; [done|].
  apply not_elem_of_cons in Hn as [Hne Hn].
  rewrite filter_cons, decide_False by done. auto.
Qed.

Lemma occurrences_elem name l : name ∈ l -> 0 < occurrences name l.
Proof.
  intros (l1 & l2 & ->)%list_elem_of_split.
  rewrite occurrences_app. change (name :: l2) with ([name] ++ l2).
  rewrite occurrences_app, occurrences_singleton, decide_True by done. lia.
Qed.

Lemma occurrences_length name l : occurrences name l ≤ length l.
Proof. unfold occurrences. apply length_filter. Qed.

Lemma SeenBefore_app names more a b :
  SeenBefore names a b -> SeenBefore (names ++ more) a b.
Proof.
  intros (pre & post & -> & Hb & Ha). exists pre, (post ++ more).
  by rewrite <- app_assoc.
Qed.

Lemma Tallied_nil : Tallied [] [] ∅.
Proof.
  split.
  - intros name i. rewrite lookup_empty, lookup_nil. done.
  - intros i p. by rewrite lookup_nil.
  - intros n Hn. by apply elem_of_nil in Hn.
  - intros i j p q _. by rewrite lookup_nil.
Qed.

(** One call of the closure: it does not panic, and it keeps the tally. *)
Lemma inc_Tallied names lst idx name :
  name ≠ "" -> Tallied names lst idx ->
  ∃ lst' idx', inc lst idx name = Some (lst', idx') ∧
               Tallied (names ++ [name]) lst' idx'.
Proof.
  intros Hne [Hidx Hcount Hall Hord]. unfold indexed in Hidx. unfold inc.
  rewrite decide_False by done.
  destruct (idx !! name) as [i|] eqn:Hi.
  - pose proof Hi as Hp. apply Hidx in Hp.
    destruct (lst !! i) as [p|] eqn:Hlp; [|done]. simpl in Hp.
    injection Hp as Hp.
    eexists _, _. split; [done|].
    assert (i < length lst) as Hlt by (by eapply lookup_lt_Some).
    assert (∀ j, Name <$> (<[i:={| Name := Name p;
                                   Value := wrap64 (Value p + 1) |}]> lst) !! j
                 = Name <$> lst !! j) as Hnames.
    { intros j. destruct (decide (i = j)) as [<-|Hij].
      - by rewrite list_lookup_insert_eq, Hlp by done.
      - by rewrite list_lookup_insert_ne by done. }
    split.
    + intros n j. rewrite Hnames. apply Hidx.
    + intros j q. destruct (decide (i = j)) as [<-|Hij].
      * rewrite list_lookup_insert_eq by done. intros [= <-]. simpl.
        destruct (Hcount i p Hlp) as [Hin Hv]. split.
        -- apply elem_of_app. by left.
        -- rewrite occurrences_app, occurrences_singleton,
             decide_True, Hv by done.
           rewrite wrap64_succ. f_equal. lia.
      * rewrite list_lookup_insert_ne by done. intros Hq.
        destruct (Hcount j q Hq) as [Hin Hv]. split.
        -- apply elem_of_app. by left.
        -- rewrite occurrences_app, occurrences_singleton, decide_False.
           ++ by rewrite Nat.add_0_r.
           ++ intros Hn. apply Hij.
              assert (idx !! name = Some j) as Hj.
              { apply Hidx. by rewrite Hq, Hn. }
              congruence.
    + intros n [Hn|Hn]%elem_of_app.
      * destruct (Hall n Hn) as (j & q & Hq & Hnq).
        specialize (Hnames j). rewrite Hq in Hnames. simpl in Hnames.
        destruct (_ !! j) as [q'|] eqn:Hq'; [|done].
        injection Hnames as Hn'. exists j, q'. split; [done|congruence].
      * apply list_elem_of_singleton in Hn as ->.
        exists i, {| Name := Name p; Value := wrap64 (Value p + 1) |}.
        split; [by rewrite list_lookup_insert_eq|done].
    + intros j k q r Hjk Hq Hr. apply SeenBefore_app.
      pose proof (Hnames j) as Hnj. pose proof (Hnames k) as Hnk.
      rewrite Hq in Hnj. rewrite Hr in Hnk. simpl in *.
      destruct (lst !! j) as [q0|] eqn:Hq0; [|done].
      destruct (lst !! k) as [r0|] eqn:Hr0; [|done].
      injection Hnj as ->. injection Hnk as ->. by eapply Hord.
  - assert (name ∉ names) as Hnin.
    { intros (j & q & Hq & Hn)%Hall.
      assert (idx !! name = Some j) as Hj.
      { apply Hidx. rewrite Hq. simpl. by rewrite Hn. }
      congruence. }
    eexists _, _. split; [done|]. split.
    + intros n j. rewrite lookup_insert. case_decide as Hd.
      * subst n. split.
        -- intros [= <-]. by rewrite lookup_app_r, Nat.sub_diag by lia.
        -- intros Hj. f_equal.
           destruct (decide (j < length lst)) as [Hlt|Hge].
           ++ rewrite lookup_app_l in Hj by done.
              apply Hidx in Hj. congruence.
           ++ destruct (decide (j = length lst)) as [->|Hne']; [done|].
              rewrite lookup_ge_None_2 in Hj; [done|].
              rewrite length_app. simpl. lia.
      * rewrite Hidx. destruct (decide (j < length lst)) as [Hlt|Hge].
        -- by rewrite lookup_app_l by done.
        -- rewrite (lookup_ge_None_2 lst j) by lia.
           destruct (decide (j = length lst)) as [->|Hne'].
           ++ rewrite lookup_app_r, Nat.sub_diag by lia. simpl.
              split; [done|]. intros [= ?]. done.
           ++ rewrite lookup_ge_None_2; [done|]. rewrite length_app. simpl. lia.
    + intros j q Hq. apply lookup_app_Some in Hq as [Hq|[Hge Hq]].
      * destruct (Hcount j q Hq) as [Hin Hv]. split.
        -- apply elem_of_app. by left.
        -- rewrite occurrences_app, occurrences_singleton, decide_False.
           ++ by rewrite Nat.add_0_r.
           ++ intros Hn. apply Hnin. by rewrite Hn.
      * apply list_lookup_singleton_Some in Hq as [_ <-]. simpl. split.
        -- apply elem_of_app. right. left.
        -- rewrite occurrences_app, occurrences_singleton, decide_True by done.
           by rewrite occurrences_not_elem.
    + intros n [Hn|Hn]%elem_of_app.
      * destruct (Hall n Hn) as (j & q & Hq & Hnq). exists j, q.
        split; [|done]. rewrite lookup_app_l; [done|by eapply lookup_lt_Some].
      * apply list_elem_of_singleton in Hn as ->.
        exists (length lst), {| Name := name; Value := 1 |}.
        split; [|done]. by rewrite lookup_app_r, Nat.sub_diag by lia.
    + intros j k q r Hjk Hq Hr.
      apply lookup_app_Some in Hr as [Hr|[Hge Hr]].
      * apply SeenBefore_app. eapply Hord; [exact Hjk| |exact Hr].
        rewrite lookup_app_l in Hq; [done|].
        apply lookup_lt_Some in Hr. lia.
      * apply list_lookup_singleton_Some in Hr as [Hk <-]. simpl.
        rewrite lookup_app_l in Hq by lia.
        exists names, []. split_and!; [done|done|].
        by destruct (Hcount j q Hq).
Qed.

Lemma victims_cons ev events :
  victims (ev :: events)
  = if decide (victim ev = "") then victims events
    else victim ev :: victims events.
Proof.
  unfold victims. simpl. rewrite filter_cons.
  destruct (decide (victim ev = "")) as [He|Hne].
  - by rewrite decide_False by (by intros ?).
  - by rewrite decide_True.
Qed.

Lemma firstNamed_cons ev events :
  firstNamed (ev :: events)
  = if decide (victim ev = "") then firstNamed events else Some ev.
Proof.
  unfold firstNamed. rewrite filter_cons.
  destruct (decide (victim ev = "")) as [He|Hne].
  - by rewrite decide_False by (by intros ?).
  - by rewrite decide_True.
Qed.

(** The loop over the events of a fight does not panic; it counts every
    named death in the overall counter and, if none was taken yet, the
    first named death in the first-death counter. *)
Lemma eventsLoop_Tallied events firstTaken st namesT namesF :
  Tallied namesT (totalDeaths st) (totalIdx st) ->
  Tallied namesF (firstDeaths st) (firstIdx st) ->
  ∃ st', eventsLoop events firstTaken st = Some st' ∧
    Tallied (namesT ++ victims events) (totalDeaths st') (totalIdx st') ∧
    Tallied (namesF ++ (if firstTaken then []
                        else option_list (victim <$> firstNamed events)))
      (firstDeaths st') (firstIdx st').
Proof.
  revert firstTaken st namesT namesF.
  induction events as [|ev events IH]; intros firstTaken st namesT namesF HT HF.
  - exists st. unfold victims, firstNamed.
    destruct firstTaken; simpl; rewrite ?filter_nil; simpl;
      rewrite !app_nil_r; done.
  - cbn [eventsLoop]. fold (victim ev).
    rewrite victims_cons, firstNamed_cons.
    destruct (decide (victim ev = "")) as [He|Hne]; [by apply IH|].
    destruct (inc_Tallied namesT _ _ (victim ev) Hne HT)
      as (total & tidx & -> & HT').
    destruct firstTaken.
    + destruct (IH true {| totalDeaths := total; firstDeaths := firstDeaths st;
                           totalIdx := tidx; firstIdx := firstIdx st |}
                  (namesT ++ [victim ev]) namesF HT' HF)
        as (st' & -> & HT'' & HF'').
      exists st'. rewrite <- app_assoc in HT''. done.
    + destruct (inc_Tallied namesF _ _ (victim ev) Hne HF)
        as (first & fidx & -> & HF').
      destruct (IH true {| totalDeaths := total; firstDeaths := first;
                           totalIdx := tidx; firstIdx := fidx |}
                  (namesT ++ [victim ev]) (namesF ++ [victim ev]) HT' HF')
        as (st' & -> & HT'' & HF'').
      exists st'. rewrite <- app_assoc in HT''. rewrite app_nil_r in HF''.
      done.
Qed.

Section Aggregation.

Variable unmarshal : string -> option DeathEvent.
Variable sortSlice : list DeathEvent -> list DeathEvent.
Variable bossFights : Result (list Fight).
Variable gqlEvents : nat -> nat -> gmap string Var -> Result eventsPage.
Variable fuel : nat.
Variable reportCode : string.
Variable wipeCutoff : Z.

Local Abbreviation getEvents :=
  (eventsFetcher unmarshal sortSlice gqlEvents fuel reportCode wipeCutoff).

Lemma fightsLoop_fetched fights i evss st namesT namesF :
  FightsFetched getEvents i fights evss ->
  Tallied namesT (totalDeaths st) (totalIdx st) ->
  Tallied namesF (firstDeaths st) (firstIdx st) ->
  ∃ st', fightsLoop unmarshal sortSlice gqlEvents fuel reportCode wipeCutoff
           fights i st = Some (Ok st') ∧
    Tallied (namesT ++ allVictims evss) (totalDeaths st') (totalIdx st') ∧
    Tallied (namesF ++ firstVictims evss) (firstDeaths st') (firstIdx st').
Proof.
  intros Hf. revert st namesT namesF.
  induction Hf as [i|i f fights events evss warns Hget Hf IH];
    intros st namesT namesF HT HF.
  - exists st. simpl. unfold allVictims, firstVictims. simpl.
    by rewrite !app_nil_r.
  - cbn [fightsLoop]. unfold eventsFetcher in Hget. rewrite Hget.
    destruct (eventsLoop_Tallied events false st namesT namesF HT HF)
      as (st1 & -> & HT1 & HF1).
    destruct (IH st1 _ _ HT1 HF1) as (st' & -> & HT' & HF').
    exists st'. split; [done|].
    unfold allVictims, firstVictims in *. simpl.
    rewrite <- app_assoc in HT'. split; [done|].
    destruct (firstNamed events) as [ev|]; simpl in *.
    + by rewrite <- app_assoc in HF'.
    + by rewrite app_nil_r in HF'.
Qed.

Lemma fightsLoop_inv fights i st st' :
  fightsLoop unmarshal sortSlice gqlEvents fuel reportCode wipeCutoff
    fights i st = Some (Ok st') ->
  ∃ evss, FightsFetched getEvents i fights evss.
Proof.
  revert i st. induction fights as [|f fights IH]; intros i st.
  - intros _. exists []. constructor.
  - cbn [fightsLoop].
    destruct (getDeathEvents unmarshal sortSlice (gqlEvents i) fuel reportCode
                (ID f) wipeCutoff) as [[[events|e] warns]|] eqn:Hget;
      [|done|done].
    destruct (eventsLoop events false st) as [st1|]; [|done].
    intros (evss & Hf)%IH. exists (events :: evss).
    by econstructor.
Qed.

(** When the fights and their events are fetched, the report details are
    returned, and they are the two tallies, sorted and cut. *)
Lemma TopDeathsForReport_fetched fights evss :
  bossFights = Ok fights ->
  FightsFetched getEvents 0 fights evss ->
  ∃ total tidx first fidx,
    Tallied (allVictims evss) total tidx ∧
    Tallied (firstVictims evss) first fidx ∧
    TopDeathsForReport unmarshal sortSlice bossFights gqlEvents fuel
      reportCode wipeCutoff
    = Some (Ok {| TopDeaths := truncate (SliceStable lessByValue total);
                  TopFirstDeaths := truncate (SliceStable lessByValue first) |}).
Proof.
  intros Hb Hf. unfold TopDeathsForReport. rewrite Hb.
  destruct fights as [|f fights].
  - inversion Hf; subst. exists [], ∅, [], ∅.
    split_and!; [apply Tallied_nil|apply Tallied_nil|done].
  - destruct (fightsLoop_fetched (f :: fights) 0 evss noCounters [] [] Hf)
      as (st' & -> & HT & HF); [apply Tallied_nil|apply Tallied_nil|].
    by exists (totalDeaths st'), (totalIdx st'), (firstDeaths st'), (firstIdx st').
Qed.

Lemma TopDeathsForReport_inv d :
  TopDeathsForReport unmarshal sortSlice bossFights gqlEvents fuel
    reportCode wipeCutoff = Some (Ok d) ->
  ∃ fights evss, bossFights = Ok fights ∧ FightsFetched getEvents 0 fights evss.
Proof.
  unfold TopDeathsForReport. destruct bossFights as [[|f fights]|e]; [| |done].
  - intros _. exists [], []. split; [done|constructor].
  - destruct (fightsLoop _ _ _ _ _ _ _ _ _) as [[st|e]|] eqn:Hl; [|done|done].
    intros _. apply fightsLoop_inv in Hl as [evss Hf]. by exists (f :: fights), evss.
Qed.

End Aggregation.

(** ** From names back to events *)

Lemma occurrences_victims name events :
  name ≠ "" ->
  occurrences name (victims events)
  = length (filter (fun ev => victim ev = name) events).
Proof.
  intros Hne. induction events as [|ev events IH]; [done|].
  rewrite victims_cons, filter_cons.
  destruct (decide (victim ev = "")) as [He|Hn].
  - rewrite decide_False by congruence. done.
  - change (victim ev :: victims events) with ([victim ev] ++ victims events).
    rewrite occurrences_app, occurrences_singleton, IH.
    by destruct (decide (victim ev = name)).
Qed.

Lemma occurrences_allVictims name evss :
  name ≠ "" -> occurrences name (allVictims evss) = deathsOf name evss.
Proof.
  intros Hne. unfold allVictims, deathsOf.
  induction evss as [|events evss IH]; [done|]. simpl.
  by rewrite occurrences_app, filter_app, length_app, IH,
    occurrences_victims.
Qed.

Lemma firstVictims_cons events evss :
  firstVictims (events :: evss)
  = option_list (victim <$> firstNamed events) ++ firstVictims evss.
Proof. unfold firstVictims. simpl. by destruct (firstNamed events). Qed.

Lemma firstDeathsOf_cons name events evss :
  firstDeathsOf name (events :: evss)
  = (if decide (victim <$> firstNamed events = Some name) then 1 else 0)
    + firstDeathsOf name evss.
Proof. unfold firstDeathsOf. rewrite filter_cons. by case_decide. Qed.

Lemma occurrences_firstVictims name evss :
  occurrences name (firstVictims evss) = firstDeathsOf name evss.
Proof.
  induction evss as [|events evss IH]; [done|].
  rewrite firstVictims_cons, firstDeathsOf_cons, occurrences_app, IH.
  f_equal. destruct (firstNamed events) as [ev|].
  - change (option_list (victim <$> Some ev)) with [victim ev].
    rewrite occurrences_singleton.
    repeat case_decide; simplify_eq/=; done.
  - case_decide; simplify_eq/=; done.
Qed.

Lemma elem_of_victims name events :
  name ∈ victims events -> name ≠ "".
Proof. unfold victims. by intros [? _]%list_elem_of_filter. Qed.

Lemma elem_of_allVictims name evss : name ∈ allVictims evss -> name ≠ "".
Proof.
  unfold allVictims. rewrite list_elem_of_In, in_concat.
  intros (l & Hl & Hin). apply list_elem_of_In in Hl, Hin.
  apply list_elem_of_fmap in Hl as (events & -> & _).
  by eapply elem_of_victims.
Qed.

Lemma firstNamed_Some events ev :
  firstNamed events = Some ev -> ev ∈ events ∧ victim ev ≠ "".
Proof.
  unfold firstNamed. intros Hh.
  assert (ev ∈ filter (fun ev => victim ev ≠ "") events) as Hin.
  { destruct (filter _ events) as [|x l]; simplify_eq/=. left. }
  apply list_elem_of_filter in Hin. tauto.
Qed.

Lemma elem_of_firstVictims name evss : name ∈ firstVictims evss -> name ≠ "".
Proof.
  unfold firstVictims. intros (events & _ & Hv)%list_elem_of_omap.
  destruct (firstNamed events) as [ev|] eqn:Hf; simplify_eq/=.
  by apply firstNamed_Some in Hf as [_ ?].
Qed.

(** Among events in order of timestamp, the first named death is an
    earliest named death. *)
Lemma firstNamed_earliest events ev :
  Sorted byTimestamp events -> firstNamed events = Some ev ->
  ∀ ev', ev' ∈ events -> victim ev' ≠ "" ->
         (Timestamp ev ≤ Timestamp ev')%Z.
Proof.
  intros Hs. apply Sorted_StronglySorted in Hs;
    [|intros a b c; unfold byTimestamp; lia].
  induction Hs as [|x events Hs IH Hall]; [done|].
  rewrite firstNamed_cons.
  destruct (decide (victim x = "")) as [He|Hne].
  - intros Hf ev' [->|Hin]%elem_of_cons Hv; [done|]. by apply IH.
  - intros [= <-] ev' [->|Hin]%elem_of_cons _; [done|].
    rewrite Forall_forall in Hall. by apply Hall.
Qed.

(** ** Consequences of a tally *)

Lemma Tallied_NoDup names lst idx :
  Tallied names lst idx -> NoDup (Name <$> lst).
Proof.
  intros [Hidx _ _ _]. apply NoDup_alt. intros i j n Hi Hj.
  rewrite list_lookup_fmap in Hi, Hj.
  apply Hidx in Hi, Hj. congruence.
Qed.

Lemma Tallied_elem_of names lst idx p :
  Tallied names lst idx -> p ∈ lst ->
  Name p ∈ names ∧ Value p = wrap64 (Z.of_nat (occurrences (Name p) names)).
Proof.
  intros [_ Hcount _ _] (i & Hi)%list_elem_of_lookup. by eapply Hcount.
Qed.

Lemma Tallied_Before names lst idx p q :
  Tallied names lst idx -> Before lst p q ->
  SeenBefore names (Name p) (Name q).
Proof.
  intros [_ _ _ Hord] (i & j & Hij & Hi & Hj)%Before_lookup. by eapply Hord.
Qed.

Lemma SeenBefore_asym names a b :
  SeenBefore names a b -> ¬ SeenBefore names b a.
Proof.
  intros (pre & post & -> & Hb & Ha) (pre' & post' & Heq & Ha' & Hb').
  apply list_elem_of_split in Ha as (l1 & l2 & ->).
  apply list_elem_of_split in Hb' as (m1 & m2 & ->).
  (* pre = l1 ++ a :: l2 has no b; pre' = m1 ++ b :: m2 has no a *)
  assert (length (m1 ++ b :: m2) < length l1 ∨ length l1 ≤ length (m1 ++ b :: m2))
    as [Hlt|Hge] by lia.
  - (* b occurs within l1 *)
    apply Hb. apply elem_of_app. left.
    assert (((l1 ++ a :: l2) ++ b :: post) !! length m1 = Some b) as Hl.
    { rewrite Heq. rewrite <- app_assoc.
      by rewrite lookup_app_r, Nat.sub_diag by lia. }
    rewrite <- !app_assoc in Hl. rewrite lookup_app_l in Hl.
    + by eapply list_elem_of_lookup_2.
    + rewrite length_app in Hlt. simpl in Hlt. lia.
  - (* a occurs within pre' *)
    apply Ha'.
    assert (((m1 ++ b :: m2) ++ a :: post') !! length l1 = Some a) as Hl.
    { rewrite <- Heq. rewrite <- !app_assoc.
      by rewrite lookup_app_r, Nat.sub_diag by lia. }
    destruct (decide (length l1 = length (m1 ++ b :: m2))) as [Heql|Hne].
    + exfalso.
      assert (((l1 ++ a :: l2) ++ b :: post) !! length l1
              = ((m1 ++ b :: m2) ++ a :: post') !! length l1) as Hsame
        by (by rewrite Heq).
      rewrite <- (app_assoc l1), lookup_app_r, Nat.sub_diag in Hsame by lia.
      rewrite Hl in Hsame. clear Hsame.
      (* the element of the list at position [length l1] is [a]; the
         prefix [l1 ++ a :: l2] of the same list contains [b] only after *)
      assert (take (length (m1 ++ b :: m2)) ((l1 ++ a :: l2) ++ b :: post)
              = m1 ++ b :: m2) as Ht.
      { rewrite Heq. by rewrite take_app_length. }
      rewrite <- Heql, <- app_assoc, take_app_length in Ht.
      apply Hb. rewrite Ht. apply elem_of_app. left.
      apply elem_of_app. right. left.
    + rewrite lookup_app_l in Hl by lia. by eapply list_elem_of_lookup_2.
Qed.

Lemma Before_total {A} (l : list A) (a b : A) :
  a ∈ l -> b ∈ l -> a ≠ b -> Before l a b ∨ Before l b a.
Proof.
  intros (i & Hi)%list_elem_of_lookup (j & Hj)%list_elem_of_lookup Hne.
  destruct (decide (i < j)); [left|right]; apply Before_lookup.
  - by exists i, j.
  - exists j, i. split; [|done].
    destruct (decide (i = j)) as [->|?]; [congruence|lia].
Qed.

Lemma Before_NoDup_asym {A} (l : list A) (a b : A) :
  NoDup l -> Before l a b -> ¬ Before l b a.
Proof.
  intros Hnd (i & j & Hij & Hi & Hj)%Before_lookup
    (i' & j' & Hij' & Hi' & Hj')%Before_lookup.
  pose proof (NoDup_lookup _ _ _ _ Hnd Hi Hj').
  pose proof (NoDup_lookup _ _ _ _ Hnd Hj Hi'). lia.
Qed.

Lemma elem_of_take_l {A} (x : A) n (l : list A) : x ∈ take n l -> x ∈ l.
Proof. intros (i & Hi & _)%elem_of_take. by eapply list_elem_of_lookup_2. Qed.

Lemma truncate_take l : truncate l = take N l.
Proof.
  unfold truncate. destruct (N <? length l) eqn:Hl; [done|].
  apply Nat.ltb_ge in Hl. by rewrite take_ge.
Qed.

Lemma StronglySorted_take {A} (R : A -> A -> Prop) n (l : list A) :
  StronglySorted R l -> StronglySorted R (take n l).
Proof.
  intros Hs. revert n. induction Hs as [|x l Hs IH Hall]; intros [|n]; simpl;
    try constructor; [done|].
  rewrite Forall_forall in *. intros y Hy. apply Hall.
  by eapply elem_of_take_l.
Qed.

Lemma SliceStable_lessByValue_sorted l :
  StronglySorted (fun a b => (Value b ≤ Value a)%Z)
    (SliceStable lessByValue l).
Proof.
  eapply StronglySorted_weaken; [|apply SliceStable_sorted].
  - unfold lessByValue. intros a b Hab. simpl in Hab. lia.
  - unfold lessByValue. intros; lia.
  - unfold lessByValue. intros; lia.
Qed.

(** A leaderboard: its entries are entries of the tally, without repeats,
    at most 5, in descending order of count, ties in the order of the
    tally, and an entry that ties one of the board and stands ahead of it in
    the tally is in the board too, ahead of it. *)
Lemma board_of_tally names lst idx :
  Tallied names lst idx ->
  let board := truncate (SliceStable lessByValue lst) in
  length board ≤ 5 ∧
  (∀ p, p ∈ board -> p ∈ lst) ∧
  NoDup (Name <$> board) ∧
  StronglySorted (fun a b => (Value b ≤ Value a)%Z) board ∧
  (∀ a b, Before board a b -> Value a = Value b -> Before lst a b) ∧
  (∀ a b, b ∈ board -> Before lst a b -> Value a = Value b ->
          Before board a b) ∧
  (∀ p, p ∈ lst ->
        p ∈ board ∨
        (length board = 5 ∧ ∀ q, q ∈ board -> (Value p ≤ Value q)%Z)).
Proof.
  intros HT. cbv zeta. rewrite truncate_take.
  set (S := SliceStable lessByValue lst).
  assert (S ≡ₚ lst) as Hperm by apply SliceStable_Permutation.
  assert (NoDup lst) as Hnd.
  { eapply NoDup_fmap_1, Tallied_NoDup. exact HT. }
  assert (NoDup S) as HndS by (by rewrite Hperm).
  split_and!.
  - rewrite length_take. unfold N. lia.
  - intros p Hp%elem_of_take_l. by rewrite <- Hperm.
  - apply (NoDup_fmap_2_strong Name).
    + intros p q Hp%elem_of_take_l Hq%elem_of_take_l Hn.
      rewrite Hperm in Hp, Hq.
      apply list_elem_of_lookup in Hp as (i & Hi).
      apply list_elem_of_lookup in Hq as (j & Hj).
      destruct HT as [Hidx _ _ _].
      assert (idx !! Name p = Some i) as H1 by (apply Hidx; by rewrite Hi).
      assert (idx !! Name p = Some j) as H2
        by (apply Hidx; rewrite Hj; simpl; by rewrite Hn).
      congruence.
    + exact (sublist_NoDup _ _ HndS (sublist_take S N)).
  - apply StronglySorted_take, SliceStable_lessByValue_sorted.
  - intros a b Hb%Before_take Hv.
    destruct (Before_SliceStable lessByValue lst a b Hb) as [?|Hl]; [done|].
    unfold lessByValue in Hl. lia.
  - intros a b Hb Hab Hv.
    assert (a ≠ b) as Hne.
    { intros ->. by eapply (Before_NoDup_asym lst b b). }
    destruct (Before_elem_of _ _ _ Hab) as [Ha Hb'].
    assert (Before S a b) as HS.
    { destruct (Before_total S a b) as [?|Hba]; [by rewrite Hperm..|done|done|].
      exfalso.
      destruct (Before_SliceStable lessByValue lst b a Hba) as [Hba'|Hl].
      - by eapply (Before_NoDup_asym lst a b).
      - unfold lessByValue in Hl. lia. }
    apply Before_lookup in HS as (i & j & Hij & Hi & Hj).
    apply list_elem_of_lookup in Hb as (k & Hk).
    pose proof (lookup_lt_Some _ _ _ Hk) as Hlen. rewrite length_take in Hlen.
    rewrite lookup_take_lt in Hk by lia.
    pose proof (NoDup_lookup _ _ _ _ HndS Hj Hk) as ->.
    apply Before_lookup. exists i, k.
    rewrite !lookup_take_lt by lia. done.
  - intros p Hp. rewrite <- Hperm, <- (take_drop N S) in Hp.
    apply elem_of_app in Hp as [Hp|Hp]; [by left|]. right.
    pose proof (SliceStable_lessByValue_sorted lst) as Hs. fold S in Hs.
    rewrite <- (take_drop N S) in Hs. apply StronglySorted_app in Hs.
    destruct Hs as (Hcross & _ & _). split.
    + rewrite length_take. apply Nat.min_l.
      destruct (decide (N ≤ length S)) as [?|Hlt]; [done|].
      rewrite drop_ge in Hp by lia. by apply elem_of_nil in Hp.
    + intros q Hq. by apply Hcross.
Qed.

(** ** The leaderboards of a report *)

Lemma firstDeathsOf_le_deathsOf name evss :
  firstDeathsOf name evss ≤ deathsOf name evss.
Proof.
  induction evss as [|events evss IH]; [done|].
  rewrite firstDeathsOf_cons. unfold deathsOf in *. simpl.
  rewrite filter_app, length_app.
  case_decide as Hf; [|lia].
  destruct (firstNamed events) as [ev|] eqn:Hn; simplify_eq/=.
  apply firstNamed_Some in Hn as [Hin _].
  assert (ev ∈ filter (fun ev0 => victim ev0 = victim ev) events) as Hin'
    by (by apply list_elem_of_filter).
  destruct (filter _ events); [by apply elem_of_nil in Hin'|simpl; lia].
Qed.

Lemma deathsOf_le_length name evss : deathsOf name evss ≤ length (concat evss).
Proof. unfold deathsOf. apply length_filter. Qed.

Section Leaderboards.

Variable unmarshal : string -> option DeathEvent.
Variable sortSlice : list DeathEvent -> list DeathEvent.
Variable bossFights : Result (list Fight).
Variable gqlEvents : nat -> nat -> gmap string Var -> Result eventsPage.
Variable fuel : nat.
Variable reportCode : string.
Variable wipeCutoff : Z.

Local Abbreviation getEvents :=
  (eventsFetcher unmarshal sortSlice gqlEvents fuel reportCode wipeCutoff).

(** What [sort.Slice] promises for a comparison by [<] on timestamps. *)
Hypothesis sortSlice_Sorted : ∀ l, Sorted byTimestamp (sortSlice l).

Lemma FightsFetched_Sorted i fights evss :
  FightsFetched getEvents i fights evss -> Forall (Sorted byTimestamp) evss.
Proof.
  induction 1 as [i|i f fights events evss warns Hget Hf IH]; constructor;
    [|done].
  unfold eventsFetcher, getDeathEvents in Hget.
  destruct (pagesLoop _ _ _ _ _ _ _ _ _ _) as [[[deaths|e] w]|];
    simplify_eq/=. apply sortSlice_Sorted.
Qed.

(** C4. Over the fights of a report and their death events in order of
    timestamp, the aggregation counts in the overall counter every event
    that names a player, under that player, and in the first-death counter
    only the first named death of each fight, which is an earliest one;
    players are counted once each, and events without a name are counted
    nowhere.  Counts are Go integers: they are the numbers counted as long
    as these stay below 2^63. *)
Theorem aggregation_counts (fights : list Fight) (evss : list (list DeathEvent)) :
  FightsFetched getEvents 0 fights evss ->
  ∃ st,
    fightsLoop unmarshal sortSlice gqlEvents fuel reportCode wipeCutoff
      fights 0 noCounters = Some (Ok st) ∧
    (∀ p, p ∈ totalDeaths st ->
       Name p ≠ "" ∧ 0 < deathsOf (Name p) evss ∧
       Value p = wrap64 (Z.of_nat (deathsOf (Name p) evss))) ∧
    (∀ name, name ≠ "" -> 0 < deathsOf name evss ->
       ∃ p, p ∈ totalDeaths st ∧ Name p = name) ∧
    (∀ p, p ∈ firstDeaths st ->
       Name p ≠ "" ∧ 0 < firstDeathsOf (Name p) evss ∧
       Value p = wrap64 (Z.of_nat (firstDeathsOf (Name p) evss))) ∧
    (∀ name, 0 < firstDeathsOf name evss ->
       ∃ p, p ∈ firstDeaths st ∧ Name p = name) ∧
    NoDup (Name <$> totalDeaths st) ∧
    NoDup (Name <$> firstDeaths st) ∧
    (∀ events ev, events ∈ evss -> firstNamed events = Some ev ->
       ev ∈ events ∧ victim ev ≠ "" ∧
       ∀ ev', ev' ∈ events -> victim ev' ≠ "" ->
              (Timestamp ev ≤ Timestamp ev')%Z) ∧
    ((Z.of_nat (length (concat evss)) < 2 ^ 63)%Z ->
       (∀ p, p ∈ totalDeaths st ->
          Value p = Z.of_nat (deathsOf (Name p) evss)) ∧
       (∀ p, p ∈ firstDeaths st ->
          Value p = Z.of_nat (firstDeathsOf (Name p) evss))).
Proof.
  intros Hf.
  destruct (fightsLoop_fetched unmarshal sortSlice gqlEvents fuel reportCode
              wipeCutoff fights 0 evss noCounters [] [] Hf)
    as (st & Hrun & HT & HF); [apply Tallied_nil..|].
  simpl in HT, HF. exists st. split; [done|].
  assert (∀ p, p ∈ totalDeaths st ->
            Name p ≠ "" ∧ 0 < deathsOf (Name p) evss ∧
            Value p = wrap64 (Z.of_nat (deathsOf (Name p) evss))) as Htot.
  { intros p Hp. destruct (Tallied_elem_of _ _ _ _ HT Hp) as [Hin Hv].
    pose proof (elem_of_allVictims _ _ Hin) as Hne.
    rewrite <- occurrences_allVictims by done.
    split_and!; [done|by apply occurrences_elem|done]. }
  assert (∀ p, p ∈ firstDeaths st ->
            Name p ≠ "" ∧ 0 < firstDeathsOf (Name p) evss ∧
            Value p = wrap64 (Z.of_nat (firstDeathsOf (Name p) evss))) as Hfst.
  { intros p Hp. destruct (Tallied_elem_of _ _ _ _ HF Hp) as [Hin Hv].
    pose proof (elem_of_firstVictims _ _ Hin) as Hne.
    rewrite <- occurrences_firstVictims.
    split_and!; [done|by apply occurrences_elem|done]. }
  split_and!; try done.
  - intros name Hne Hpos. rewrite <- occurrences_allVictims in Hpos by done.
    assert (name ∈ allVictims evss) as Hin.
    { destruct (decide (name ∈ allVictims evss)) as [?|Hn]; [done|].
      rewrite occurrences_not_elem in Hpos by done. lia. }
    destruct (tallied_all _ _ _ HT name Hin) as (i & p & Hp & Hn).
    exists p. split; [by eapply list_elem_of_lookup_2|done].
  - intros name Hpos. rewrite <- occurrences_firstVictims in Hpos.
    assert (name ∈ firstVictims evss) as Hin.
    { destruct (decide (name ∈ firstVictims evss)) as [?|Hn]; [done|].
      rewrite occurrences_not_elem in Hpos by done. lia. }
    destruct (tallied_all _ _ _ HF name Hin) as (i & p & Hp & Hn).
    exists p. split; [by eapply list_elem_of_lookup_2|done].
  - by eapply Tallied_NoDup.
  - by eapply Tallied_NoDup.
  - intros events ev Hin Hfn.
    destruct (firstNamed_Some _ _ Hfn) as [? ?]. split_and!; [done|done|].
    apply firstNamed_earliest; [|done].
    pose proof (FightsFetched_Sorted _ _ _ Hf) as Hs.
    rewrite Forall_forall in Hs. by apply Hs.
  - intros Hbound. split.
    + intros p Hp. destruct (Htot p Hp) as (_ & _ & ->).
      apply wrap64_small. pose proof (deathsOf_le_length (Name p) evss). lia.
    + intros p Hp. destruct (Hfst p Hp) as (_ & _ & ->).
      apply wrap64_small.
      pose proof (firstDeathsOf_le_deathsOf (Name p) evss).
      pose proof (deathsOf_le_length (Name p) evss). lia.
Qed.

End Leaderboards.

Lemma sampleDeaths_fetched :
  FightsFetched (eventsFetcher sampleUnmarshal sampleSort sampleEvents 10 "ABC" 3)
    0 [fight 7; fight 8] sampleDeaths.
Proof.
  unfold sampleDeaths.
  eapply FightsFetched_cons; [vm_compute; reflexivity|].
  eapply FightsFetched_cons; [vm_compute; reflexivity|].
  constructor.
Qed.

Example TopDeathsForReport_sample :
  TopDeathsForReport sampleUnmarshal sampleSort (Ok [fight 7; fight 8])
    sampleEvents 10 "ABC" 3
  = Some (Ok {| TopDeaths := [ {| Name := "Leeroy"; Value := 3 |};
                               {| Name := "Jaina"; Value := 2 |};
                               {| Name := "Thrall"; Value := 1 |} ];
                TopFirstDeaths := [ {| Name := "Thrall"; Value := 1 |};
                                    {| Name := "Leeroy"; Value := 1 |} ] |}).
Proof. vm_compute. reflexivity. Qed.

(** C4 at work on the sample report. *)
Lemma aggregation_counts_witness :
  ∃ st,
    fightsLoop sampleUnmarshal sampleSort sampleEvents 10 "ABC" 3
      [fight 7; fight 8] 0 noCounters = Some (Ok st) ∧
    (∀ p, p ∈ totalDeaths st ->
       Value p = Z.of_nat (deathsOf (Name p) sampleDeaths)) ∧
    (∀ p, p ∈ firstDeaths st ->
       Value p = Z.of_nat (firstDeathsOf (Name p) sampleDeaths)).
Proof.
  destruct (aggregation_counts sampleUnmarshal sampleSort sampleEvents 10
              "ABC" 3 sampleSort_Sorted [fight 7; fight 8] sampleDeaths
              sampleDeaths_fetched) as (st & Hrun & _ & _ & _ & _ & _ & _ & _ & Hb).
  exists st. split; [exact Hrun|]. apply Hb. vm_compute. reflexivity.
Defined.

Section Boards.

Variable unmarshal : string -> option DeathEvent.
Variable sortSlice : list DeathEvent -> list DeathEvent.
Variable bossFights : Result (list Fight).
Variable gqlEvents : nat -> nat -> gmap string Var -> Result eventsPage.
Variable fuel : nat.
Variable reportCode : string.
Variable wipeCutoff : Z.

Local Abbreviation getEvents :=
  (eventsFetcher unmarshal sortSlice gqlEvents fuel reportCode wipeCutoff).

(** Report details are returned exactly when the fights and their events
    were fetched, and then they are two tallies, sorted and cut. *)
Lemma TopDeathsForReport_Ok d :
  TopDeathsForReport unmarshal sortSlice bossFights gqlEvents fuel
    reportCode wipeCutoff = Some (Ok d) ->
  ∃ fights evss total tidx first fidx,
    bossFights = Ok fights ∧
    FightsFetched getEvents 0 fights evss ∧
    Tallied (allVictims evss) total tidx ∧
    Tallied (firstVictims evss) first fidx ∧
    TopDeaths d = truncate (SliceStable lessByValue total) ∧
    TopFirstDeaths d = truncate (SliceStable lessByValue first).
Proof.
  intros Hrun.
  destruct (TopDeathsForReport_inv _ _ _ _ _ _ _ _ Hrun)
    as (fights & evss & Hb & Hf).
  destruct (TopDeathsForReport_fetched unmarshal sortSlice bossFights
              gqlEvents fuel reportCode wipeCutoff fights evss Hb Hf)
    as (total & tidx & first & fidx & HT & HF & Hrun').
  rewrite Hrun in Hrun'. injection Hrun' as ->.
  by exists fights, evss, total, tidx, first, fidx.
Qed.

(** With fuel for the ten pages of a fight, the call returns: the loops end
    and no index is out of range. *)
Lemma TopDeathsForReport_returns :
  maxPages ≤ fuel ->
  is_Some (TopDeathsForReport unmarshal sortSlice bossFights gqlEvents fuel
             reportCode wipeCutoff).
Proof.
  intros Hfuel.
  assert (∀ fights i st namesT namesF,
            Tallied namesT (totalDeaths st) (totalIdx st) ->
            Tallied namesF (firstDeaths st) (firstIdx st) ->
            is_Some (fightsLoop unmarshal sortSlice gqlEvents fuel reportCode
                       wipeCutoff fights i st)) as Hloop.
  { induction fights as [|f fights IH]; intros i st namesT namesF HT HF;
      [by eexists|].
    cbn [fightsLoop]. unfold getDeathEvents.
    destruct (pagesLoop_run unmarshal (gqlEvents i) fuel reportCode (ID f)
                wipeCutoff None 0 [] [])
      as (pages & stop & _ & _ & -> & _); [unfold maxPages; lia|lia|].
    destruct stop as [e| |]; simpl; [by eexists| |].
    - destruct (eventsLoop_Tallied (sortSlice (parsedEvents unmarshal pages))
                  false st namesT namesF HT HF) as (st' & -> & HT' & HF').
      by eapply IH.
    - destruct (eventsLoop_Tallied (sortSlice (parsedEvents unmarshal pages))
                  false st namesT namesF HT HF) as (st' & -> & HT' & HF').
      by eapply IH. }
  unfold TopDeathsForReport. destruct bossFights as [[|f fights]|e];
    [by eexists| |by eexists].
  destruct (Hloop (f :: fights) 0 noCounters [] [])
    as [[st|e] ->]; [apply Tallied_nil..| |]; by eexists.
Qed.

(** C10. In each of the two leaderboards that [TopDeathsForReport] returns,
    every entry has a name that is not empty, no two entries have the same
    name, and, the deaths of the report numbering less than 2^63, every
    entry has a count of at least 1. *)
Theorem leaderboard_entries (d : ReportDetails) :
  TopDeathsForReport unmarshal sortSlice bossFights gqlEvents fuel
    reportCode wipeCutoff = Some (Ok d) ->
  ∃ fights evss,
    bossFights = Ok fights ∧
    FightsFetched getEvents 0 fights evss ∧
    ∀ board, board = TopDeaths d ∨ board = TopFirstDeaths d ->
      (∀ p, p ∈ board -> Name p ≠ "") ∧
      NoDup (Name <$> board) ∧
      ((Z.of_nat (length (concat evss)) < 2 ^ 63)%Z ->
       ∀ p, p ∈ board -> (1 ≤ Value p)%Z).
Proof.
  intros (fights & evss & total & tidx & first & fidx & Hb & Hf & HT & HF
          & HdT & HdF)%TopDeathsForReport_Ok.
  exists fights, evss. split; [done|]. split; [done|].
  destruct (board_of_tally _ _ _ HT) as (_ & HinT & HndT & _).
  destruct (board_of_tally _ _ _ HF) as (_ & HinF & HndF & _).
  rewrite <- HdT in HinT, HndT. rewrite <- HdF in HinF, HndF.
  intros board [-> | ->].
  - split_and!; [|done|].
    + intros p Hp%HinT.
      destruct (Tallied_elem_of _ _ _ _ HT Hp) as [Hin _].
      by eapply elem_of_allVictims.
    + intros Hbound p Hp%HinT.
      destruct (Tallied_elem_of _ _ _ _ HT Hp) as [Hin Hv].
      pose proof (elem_of_allVictims _ _ Hin) as Hne.
      rewrite Hv, occurrences_allVictims by done.
      pose proof (occurrences_elem _ _ Hin) as Hpos.
      rewrite occurrences_allVictims in Hpos by done.
      pose proof (deathsOf_le_length (Name p) evss).
      rewrite wrap64_small; lia.
  - split_and!; [|done|].
    + intros p Hp%HinF.
      destruct (Tallied_elem_of _ _ _ _ HF Hp) as [Hin _].
      by eapply elem_of_firstVictims.
    + intros Hbound p Hp%HinF.
      destruct (Tallied_elem_of _ _ _ _ HF Hp) as [Hin Hv].
      rewrite Hv, occurrences_firstVictims.
      pose proof (occurrences_elem _ _ Hin) as Hpos.
      rewrite occurrences_firstVictims in Hpos.
      pose proof (firstDeathsOf_le_deathsOf (Name p) evss).
      pose proof (deathsOf_le_length (Name p) evss).
      rewrite wrap64_small; lia.
Qed.

(** C3. Each of the two leaderboards that [TopDeathsForReport] returns has
    at most 5 entries, in descending order of count; of two entries with
    the same count the one whose player was seen first stands ahead, and a
    player seen before one of the board and with the same count is in the
    board, ahead of it; whoever is left out counts no more than anyone in
    the board, which is then full. *)
Theorem leaderboards_stable_top5 (d : ReportDetails) :
  TopDeathsForReport unmarshal sortSlice bossFights gqlEvents fuel
    reportCode wipeCutoff = Some (Ok d) ->
  ∃ fights evss,
    bossFights = Ok fights ∧
    FightsFetched getEvents 0 fights evss ∧
    ∀ board names,
      (board = TopDeaths d ∧ names = allVictims evss) ∨
      (board = TopFirstDeaths d ∧ names = firstVictims evss) ->
      length board ≤ 5 ∧
      StronglySorted (fun a b => (Value b ≤ Value a)%Z) board ∧
      (∀ p, p ∈ board ->
         Name p ∈ names ∧
         Value p = wrap64 (Z.of_nat (occurrences (Name p) names))) ∧
      (∀ a b, Before board a b -> Value a = Value b ->
         SeenBefore names (Name a) (Name b)) ∧
      (∀ b name, b ∈ board -> SeenBefore names name (Name b) ->
         wrap64 (Z.of_nat (occurrences name names)) = Value b ->
         ∃ a, Name a = name ∧ Before board a b) ∧
      (∀ name, name ∈ names ->
         (∃ p, p ∈ board ∧ Name p = name) ∨
         (length board = 5 ∧
          ∀ q, q ∈ board ->
               (wrap64 (Z.of_nat (occurrences name names)) ≤ Value q)%Z)).
Proof.
  intros (fights & evss & total & tidx & first & fidx & Hb & Hf & HT & HF
          & HdT & HdF)%TopDeathsForReport_Ok.
  exists fights, evss. split; [done|]. split; [done|].
  assert (∀ names lst idx, Tallied names lst idx ->
            let board := truncate (SliceStable lessByValue lst) in
            length board ≤ 5 ∧
            StronglySorted (fun a b => (Value b ≤ Value a)%Z) board ∧
            (∀ p, p ∈ board ->
               Name p ∈ names ∧
               Value p = wrap64 (Z.of_nat (occurrences (Name p) names))) ∧
            (∀ a b, Before board a b -> Value a = Value b ->
               SeenBefore names (Name a) (Name b)) ∧
            (∀ b name, b ∈ board -> SeenBefore names name (Name b) ->
               wrap64 (Z.of_nat (occurrences name names)) = Value b ->
               ∃ a, Name a = name ∧ Before board a b) ∧
            (∀ name, name ∈ names ->
               (∃ p, p ∈ board ∧ Name p = name) ∨
               (length board = 5 ∧
                ∀ q, q ∈ board ->
                     (wrap64 (Z.of_nat (occurrences name names)) ≤ Value q)%Z)))
    as Hboard.
  { clear. intros names lst idx HT.
    destruct (board_of_tally _ _ _ HT)
      as (Hlen & Hin & Hnd & Hsorted & Hstable & Hahead & Htop).
    cbv zeta. split_and!; [done|done| | | |].
    - intros p Hp%Hin. by eapply Tallied_elem_of.
    - intros a b Hab Hv. eapply Tallied_Before; [exact HT|]. by apply Hstable.
    - intros b name Hbin Hseen Hv.
      assert (name ∈ names) as Hname.
      { destruct Hseen as (pre & post & -> & _ & Ha).
        apply elem_of_app. by left. }
      destruct (tallied_all _ _ _ HT name Hname) as (i & a & Hi & Hna).
      pose proof (Hin b Hbin) as Hbl.
      apply list_elem_of_lookup in Hbl as (j & Hj).
      exists a. split; [done|]. apply Hahead; [done| |].
      + apply Before_lookup.
        destruct (decide (i < j)) as [Hij|Hge]; [by exists i, j|].
        exfalso. destruct (decide (i = j)) as [->|Hne].
        * rewrite Hi in Hj. injection Hj as ->.
          destruct Hseen as (pre & post & _ & Hnb & Ha).
          rewrite <- Hna in Ha. done.
        * apply (SeenBefore_asym names name (Name b)); [done|].
          rewrite <- Hna. eapply (tallied_order _ _ _ HT j i); [lia|done|done].
      + destruct (tallied_count _ _ _ HT i a Hi) as [_ ->].
        by rewrite Hna.
    - intros name Hname.
      destruct (tallied_all _ _ _ HT name Hname) as (i & p & Hi & Hn).
      destruct (Htop p) as [Hp|[Hfull Hle]];
        [by eapply list_elem_of_lookup_2|left; by exists p|right].
      split; [done|]. intros q Hq.
      destruct (tallied_count _ _ _ HT i p Hi) as [_ Hv].
      rewrite <- Hn, <- Hv. by apply Hle. }
  intros board names [[-> ->]|[-> ->]].
  - rewrite HdT. by eapply Hboard.
  - rewrite HdF. by eapply Hboard.
Qed.

End Boards.

(** C10 at work on the sample report. *)
Lemma leaderboard_entries_witness :
  ∃ fights evss,
    Ok [fight 7; fight 8] = Ok fights ∧
    FightsFetched
      (eventsFetcher sampleUnmarshal sampleSort sampleEvents 10 "ABC" 3)
      0 fights evss ∧
    ∀ board,
      board = [ {| Name := "Leeroy"; Value := 3 |};
                {| Name := "Jaina"; Value := 2 |};
                {| Name := "Thrall"; Value := 1 |} ] ∨
      board = [ {| Name := "Thrall"; Value := 1 |};
                {| Name := "Leeroy"; Value := 1 |} ] ->
      (∀ p, p ∈ board -> Name p ≠ "") ∧
      NoDup (Name <$> board) ∧
      ((Z.of_nat (length (concat evss)) < 2 ^ 63)%Z ->
       ∀ p, p ∈ board -> (1 ≤ Value p)%Z).
Proof.
  apply (leaderboard_entries sampleUnmarshal sampleSort
           (Ok [fight 7; fight 8]) sampleEvents 10 "ABC" 3
           {| TopDeaths := [ {| Name := "Leeroy"; Value := 3 |};
                             {| Name := "Jaina"; Value := 2 |};
                             {| Name := "Thrall"; Value := 1 |} ];
              TopFirstDeaths := [ {| Name := "Thrall"; Value := 1 |};
                                  {| Name := "Leeroy"; Value := 1 |} ] |}).
  vm_compute. reflexivity.
Defined.

(** C3 at work on the sample report. *)
Lemma leaderboards_stable_top5_witness :
  ∃ fights evss,
    Ok [fight 7; fight 8] = Ok fights ∧
    FightsFetched
      (eventsFetcher sampleUnmarshal sampleSort sampleEvents 10 "ABC" 3)
      0 fights evss ∧
    ∀ a b,
      Before [ {| Name := "Thrall"; Value := 1 |};
               {| Name := "Leeroy"; Value := 1 |} ] a b ->
      Value a = Value b ->
      SeenBefore (firstVictims evss) (Name a) (Name b).
Proof.
  destruct (leaderboards_stable_top5 sampleUnmarshal sampleSort
              (Ok [fight 7; fight 8]) sampleEvents 10 "ABC" 3
              {| TopDeaths := [ {| Name := "Leeroy"; Value := 3 |};
                                {| Name := "Jaina"; Value := 2 |};
                                {| Name := "Thrall"; Value := 1 |} ];
                 TopFirstDeaths := [ {| Name := "Thrall"; Value := 1 |};
                                     {| Name := "Leeroy"; Value := 1 |} ] |})
    as (fights & evss & Hb & Hf & Hboards).
  - vm_compute. reflexivity.
  - exists fights, evss. split; [exact Hb|]. split; [exact Hf|].
    destruct (Hboards [ {| Name := "Thrall"; Value := 1 |};
                        {| Name := "Leeroy"; Value := 1 |} ]
                (firstVictims evss)) as (_ & _ & _ & Hst & _).
    + right. split; reflexivity.
    + exact Hst.
Defined.

(** * Further properties *)

(** ** The change detector over time *)

Lemma verdict_live t report l live :
  verdict t report l = Some live ->
  live = negb (isOutdated (now t) report).
Proof.
  unfold verdict. destruct (reportsCache l !! Code report) as [c|].
  - destruct (decide (endTime c = EndTime report)).
    + destruct (isLive c), (isOutdated (now t) report); simpl;
        intros; simplify_eq; done.
    + by intros [= <-].
  - destruct (isOutdated (now t) report); intros; simplify_eq; done.
Qed.

Lemma NothingToDo_verdict t report l :
  NothingToDo t report l ↔ verdict t report l = None.
Proof.
  unfold NothingToDo, verdict. split.
  - intros [[-> ->]|(c & -> & He & Hl)]; [done|].
    by rewrite decide_True, Hl.
  - destruct (reportsCache l !! Code report) as [c|].
    + destruct (decide (endTime c = EndTime report)); [|done].
      destruct (isLive c && isOutdated (now t) report) eqn:Hl; [done|].
      intros _. right. by exists c.
    + destruct (isOutdated (now t) report) eqn:Ho; [|done]. by left.
Qed.

(** What one iteration hands to the handler. *)
Lemma checkReport_event t server report l e :
  e ∈ newEvents l (checkReport t server report l) ->
  ∃ d, details t = Ok d ∧ ctxDone t = false ∧
       e = statsEvent server (negb (isOutdated (now t) report)) report d ∧
       reportsCache (checkReport t server report l) !! Code report
       = Some (cached report (negb (isOutdated (now t) report))).
Proof.
  destruct (verdict t report l) as [live|] eqn:Hv.
  - pose proof (verdict_live _ _ _ _ Hv) as ->.
    destruct (details t) as [d|err] eqn:Hd.
    + destruct (checkReport_ok _ server _ _ _ _ Hv Hd) as (Hk & Hh & _).
      rewrite (newEvents_app _ _ _ Hh). unfold delivered.
      destruct (ctxDone t); [by intros ?%elem_of_nil|].
      intros ->%list_elem_of_singleton. exists d.
      rewrite Hk, lookup_insert_eq. done.
    + destruct (checkReport_err _ server _ _ _ _ Hv Hd) as (_ & Hh & _).
      rewrite (newEvents_app _ _ []) by (by rewrite app_nil_r).
      by intros ?%elem_of_nil.
  - destruct (checkReport_quiet _ server _ _ Hv) as (_ & Hh & _).
    rewrite (newEvents_app _ _ []) by (by rewrite app_nil_r).
    by intros ?%elem_of_nil.
Qed.

Lemma iterate_events server its l :
  ∃ new, handled (iterate server its l) = handled l ++ new ∧
    ∀ e, e ∈ new ->
      ∃ it d, it ∈ its ∧ details it.1 = Ok d ∧ ctxDone it.1 = false ∧
              e = statsEvent server (negb (isOutdated (now it.1) it.2)) it.2 d.
Proof.
  revert l. induction its as [|it its IH]; intros l.
  - exists []. rewrite app_nil_r. split; [done|]. by intros ? ?%elem_of_nil.
  - rewrite iterate_cons.
    destruct (checkReport_effects it.1 server it.2 l) as ((n1 & Hh1 & _) & _).
    destruct (IH (checkReport it.1 server it.2 l)) as (n2 & Hh2 & Hn2).
    exists (n1 ++ n2). rewrite Hh2, Hh1, app_assoc. split; [done|].
    intros e [He|He]%elem_of_app.
    + rewrite <- (newEvents_app _ _ _ Hh1) in He.
      apply checkReport_event in He as (d & ? & ? & ? & _).
      exists it, d. split; [left|done].
    + destruct (Hn2 e He) as (it' & d & ? & ?). exists it', d.
      split; [by right|done].
Qed.

(** X1. Every update that a cycle hands to the handler is about a report of
    the poll that passed the raid filter, carries the details fetched for it
    in that iteration, and is flagged live exactly when the report was not
    outdated at that moment; no update is handed over with the context
    done. *)
Theorem update_reflects_report (found : list Report) (ticks : nat -> Tick)
    (server : storage.Server) (l : Loop) (e : StatsEvent) :
  e ∈ newEvents l (checkChanges (Ok found) ticks server l) ->
  ∃ i r d,
    deleteNonRaid found !! i = Some r ∧
    details (ticks i) = Ok d ∧
    ctxDone (ticks i) = false ∧
    e = statsEvent server (negb (isOutdated (now (ticks i)) r)) r d ∧
    Live e = negb (isOutdated (now (ticks i)) r) ∧
    ReportId e = Code r ∧
    URL e = "https://www.warcraftlogs.com/reports/" +:+ Code r ∧
    LastUpload e = UnixMilli (EndTime r).
Proof.
  rewrite checkChanges_iterate. set (l0 := log _ l).
  destruct (iterate_events server
              (imap (fun k r => (ticks k, r)) (deleteNonRaid found)) l0)
    as (new & Hh & Hn).
  rewrite (newEvents_app l _ new) by done.
  intros (it & d & (i & Hi & Ht)%elem_of_cycle_iterations & Hd & Hc & ->)%Hn.
  exists i, it.2, d. rewrite <- Ht. done.
Qed.

Lemma update_reflects_report_witness :
  ∃ i r d,
    deleteNonRaid [reportFlex; reportABC 2000] !! i = Some r ∧
    details (tickAt 2000 1 (Ok detailsABC) false) = Ok d ∧
    ctxDone (tickAt 2000 1 (Ok detailsABC) false) = false ∧
    statsEvent guild1 true (reportABC 2000) detailsABC
    = statsEvent guild1
        (negb (isOutdated (now (tickAt 2000 1 (Ok detailsABC) false)) r)) r d ∧
    Live (statsEvent guild1 true (reportABC 2000) detailsABC)
    = negb (isOutdated (now (tickAt 2000 1 (Ok detailsABC) false)) r) ∧
    ReportId (statsEvent guild1 true (reportABC 2000) detailsABC) = Code r ∧
    URL (statsEvent guild1 true (reportABC 2000) detailsABC)
    = "https://www.warcraftlogs.com/reports/" +:+ Code r ∧
    LastUpload (statsEvent guild1 true (reportABC 2000) detailsABC)
    = UnixMilli (EndTime r).
Proof.
  apply (update_reflects_report [reportFlex; reportABC 2000]
           (fun _ => tickAt 2000 1 (Ok detailsABC) false) guild1 newLoop
           (statsEvent guild1 true (reportABC 2000) detailsABC)).
  vm_compute. left.
Defined.

Lemma liveFlags_nil k : liveFlags k [] = [].
Proof. done. Qed.

Lemma liveFlags_app k l1 l2 :
  liveFlags k (l1 ++ l2) = liveFlags k l1 ++ liveFlags k l2.
Proof. unfold liveFlags. by rewrite filter_app, fmap_app. Qed.

Lemma liveFlags_other k (new : list StatsEvent) :
  (∀ e, e ∈ new -> ReportId e ≠ k) -> liveFlags k new = [].
Proof.
  intros H. unfold liveFlags. induction new as [|e new IH]; [done|].
  rewrite filter_cons, decide_False by (apply H; left).
  apply IH. intros e' ?. apply H. by right.
Qed.

Lemma liveFlags_delivered t server live report d :
  liveFlags (Code report) (delivered t server live report d) = [] ∨
  liveFlags (Code report) (delivered t server live report d) = [live].
Proof.
  unfold delivered, liveFlags. destruct (ctxDone t); [by left|right].
  rewrite filter_cons, decide_True by done. done.
Qed.

Lemma flagsAllowed_nil E c : flagsAllowed E c [].
Proof.
  unfold flagsAllowed, liveThenOffline.
  destruct c as [c|]; [|by left].
  destruct (decide (endTime c = E)); [|by left].
  destruct (isLive c); [by left|done].
Qed.

Lemma flagsAllowed_liveThenOffline E c fl :
  flagsAllowed E c fl -> liveThenOffline fl.
Proof.
  unfold flagsAllowed, liveThenOffline.
  destruct c as [c|]; [|done].
  destruct (decide (endTime c = E)); [|done].
  destruct (isLive c); [|by left]. intros [->| ->]; auto.
Qed.

(** One iteration, read backwards: what may still come after it, together
    with what it sends, may come before it. *)
Lemma checkReport_flags k E t server report l rest :
  (Code report = k -> EndTime report = E) ->
  flagsAllowed E (reportsCache (checkReport t server report l) !! k) rest ->
  ∃ new, handled (checkReport t server report l) = handled l ++ new ∧
         flagsAllowed E (reportsCache l !! k) (liveFlags k new ++ rest).
Proof.
  intros HE Hrest.
  destruct (decide (Code report = k)) as [Hk|Hk].
  - specialize (HE Hk). subst k.
    destruct (verdict t report l) as [live|] eqn:Hv.
    + destruct (details t) as [d|err] eqn:Hd.
      * destruct (checkReport_ok _ server _ _ _ _ Hv Hd) as (Hc & Hh & _).
        exists (delivered t server live report d). split; [done|].
        rewrite Hc, lookup_insert_eq in Hrest.
        unfold flagsAllowed in Hrest. cbn [cached endTime isLive] in Hrest.
        rewrite decide_True in Hrest by done.
        assert (∀ fl, (fl = [] ∨ fl = [live]) ->
                  liveThenOffline (fl ++ rest)) as Hany.
        { unfold liveThenOffline. intros fl Hfl.
          destruct live; [destruct Hrest as [-> | ->]|rewrite Hrest];
            destruct Hfl as [-> | ->]; simpl; auto. }
        pose proof (liveFlags_delivered t server live report d) as Hfl.
        unfold flagsAllowed. unfold verdict in Hv.
        destruct (reportsCache l !! Code report) as [c|]; [|by apply Hany].
        destruct (decide (endTime c = E)) as [Hc'|]; [|by apply Hany].
        rewrite decide_True in Hv by congruence.
        destruct (isLive c); simpl in Hv; [|done].
        destruct (isOutdated (now t) report); [|done].
        injection Hv as <-. rewrite Hrest.
        destruct Hfl as [-> | ->]; simpl; auto.
      * destruct (checkReport_err _ server _ _ _ _ Hv Hd) as (Hc & Hh & _).
        exists []. rewrite app_nil_r, liveFlags_nil, <- Hc. done.
    + destruct (checkReport_quiet _ server _ _ Hv) as (Hc & Hh & _).
      exists []. rewrite app_nil_r, liveFlags_nil, <- Hc. done.
  - destruct (checkReport_effects t server report l) as ((new & Hh & Hn) & _ & Hc).
    exists new. split; [done|].
    rewrite liveFlags_other; [by rewrite <- Hc|].
    intros e He. destruct (Hn e He) as [-> _]. done.
Qed.

Lemma iterate_flags k E server its l rest :
  (∀ it, it ∈ its -> Code it.2 = k -> EndTime it.2 = E) ->
  flagsAllowed E (reportsCache (iterate server its l) !! k) rest ->
  ∃ new, handled (iterate server its l) = handled l ++ new ∧
         flagsAllowed E (reportsCache l !! k) (liveFlags k new ++ rest).
Proof.
  revert l. induction its as [|it its IH]; intros l Hall Hrest.
  - exists []. by rewrite app_nil_r.
  - rewrite iterate_cons in Hrest |- *.
    destruct (IH (checkReport it.1 server it.2 l)) as (n2 & Hh2 & Ha2);
      [intros it' ?; apply Hall; by right|done|].
    destruct (checkReport_flags k E it.1 server it.2 l _
                (Hall it ltac:(left)) Ha2) as (n1 & Hh1 & Ha1).
    exists (n1 ++ n2). rewrite Hh2, Hh1, app_assoc. split; [done|].
    by rewrite liveFlags_app, <- app_assoc.
Qed.

Lemma happen_flags k E server h l rest :
  KeepsEndTime k E h ->
  flagsAllowed E (reportsCache (happen server l h) !! k) rest ->
  ∃ new, handled (happen server l h) = handled l ++ new ∧
         flagsAllowed E (reportsCache l !! k) (liveFlags k new ++ rest).
Proof.
  destruct h as [[found|err] ticks|k']; cbn [KeepsEndTime happen].
  - intros Hall. rewrite checkChanges_iterate. intros Hrest.
    eapply iterate_flags in Hrest as (new & Hh & Ha).
    + exists new. split; [exact Hh|exact Ha].
    + intros it (i & Hi & _)%elem_of_cycle_iterations. by apply (Hall i).
  - intros _ Hrest. exists []. by rewrite app_nil_r.
  - intros Hne. cbn [reportsCache handled]. rewrite lookup_delete_ne by done.
    intros Hrest. exists []. by rewrite app_nil_r.
Qed.

Lemma happenings_flags k E server hs l :
  Forall (KeepsEndTime k E) hs ->
  flagsAllowed E (reportsCache l !! k)
    (liveFlags k (newEvents l (foldl (happen server) l hs))).
Proof.
  intros Hall.
  cut (∀ rest,
         flagsAllowed E (reportsCache (foldl (happen server) l hs) !! k) rest ->
         ∃ new, handled (foldl (happen server) l hs) = handled l ++ new ∧
                flagsAllowed E (reportsCache l !! k) (liveFlags k new ++ rest)).
  { intros H. destruct (H [] (flagsAllowed_nil _ _)) as (new & Hh & Ha).
    rewrite (newEvents_app _ _ _ Hh). by rewrite app_nil_r in Ha. }
  revert l. induction Hall as [|h hs Hh Hall IH]; intros l rest Hrest.
  - exists []. by rewrite app_nil_r.
  - cbn [foldl] in Hrest |- *.
    destruct (IH _ _ Hrest) as (n2 & Hh2 & Ha2).
    destruct (happen_flags k E server h l _ Hh Ha2) as (n1 & Hh1 & Ha1).
    exists (n1 ++ n2). rewrite Hh2, Hh1, app_assoc. split; [done|].
    by rewrite liveFlags_app, <- app_assoc.
Qed.

(** X2. While a report keeps its end time and its cache entry does not
    expire, a watch loop sends at most two updates about it, however many
    cycles pass: nothing, one live update, one offline update, or a live
    update followed by an offline one.  From a state that caches the report
    as live with that end time, at most one offline update follows; from a
    state that caches it as offline, none does. *)
Theorem updates_live_then_offline (k : string) (E : Z)
    (server : storage.Server) (hs : list Happening) (l : Loop) :
  Forall (KeepsEndTime k E) hs ->
  let fl := liveFlags k (newEvents l (foldl (happen server) l hs)) in
  (fl = [] ∨ fl = [true] ∨ fl = [false] ∨ fl = [true; false]) ∧
  (∀ c, reportsCache l !! k = Some c -> endTime c = E -> isLive c = true ->
        fl = [] ∨ fl = [false]) ∧
  (∀ c, reportsCache l !! k = Some c -> endTime c = E -> isLive c = false ->
        fl = []).
Proof.
  intros Hall fl. pose proof (happenings_flags k E server hs l Hall) as Ha.
  fold fl in Ha. split_and!.
  - by apply flagsAllowed_liveThenOffline in Ha.
  - intros c Hc He Hl. unfold flagsAllowed in Ha.
    by rewrite Hc, decide_True, Hl in Ha.
  - intros c Hc He Hl. unfold flagsAllowed in Ha.
    by rewrite Hc, decide_True, Hl in Ha.
Qed.

Lemma pollABC_KeepsEndTime E age : KeepsEndTime "ABC" E (pollABC E age).
Proof. intros [|[|i]] r; simpl; intros [= <-]; done. Qed.

Lemma updates_live_then_offline_witness :
  let fl := liveFlags "ABC"
              (newEvents newLoop
                 (foldl (happen guild1) newLoop
                    [pollABC 62000 1; pollABC 62000 16; pollABC 62000 17]%Z)) in
  fl = [] ∨ fl = [true] ∨ fl = [false] ∨ fl = [true; false].
Proof.
  apply (updates_live_then_offline "ABC" 62000 guild1
           [pollABC 62000 1; pollABC 62000 16; pollABC 62000 17]%Z newLoop).
  repeat constructor; apply pollABC_KeepsEndTime.
Defined.

Example updates_live_then_offline_sample :
  liveFlags "ABC"
    (newEvents newLoop
       (foldl (happen guild1) newLoop
          [pollABC 62000 1; pollABC 62000 16; pollABC 62000 17]%Z))
  = [true; false].
Proof. vm_compute. done. Qed.

(** ** The economy of a cycle *)

Lemma iterate_quiet server its l :
  (∀ it, it ∈ its -> NothingToDo it.1 it.2 l) ->
  reportsCache (iterate server its l) = reportsCache l ∧
  handled (iterate server its l) = handled l ∧
  detailsAsked (iterate server its l) = detailsAsked l.
Proof.
  revert l. induction its as [|it its IH]; intros l Hall; [done|].
  rewrite iterate_cons.
  destruct (checkReport_quiet it.1 server it.2 l) as (Hc & Hh & Hd).
  { apply NothingToDo_verdict, Hall. left. }
  destruct (IH (checkReport it.1 server it.2 l)) as (Hc' & Hh' & Hd').
  { intros it' Hin. unfold NothingToDo. rewrite Hc. apply Hall. by right. }
  by rewrite Hc', Hh', Hd', Hc, Hh, Hd.
Qed.

Lemma checkReport_counts t server report l :
  ∃ new asked,
    handled (checkReport t server report l) = handled l ++ new ∧
    detailsAsked (checkReport t server report l) = detailsAsked l ++ asked ∧
    length new ≤ length asked ≤ 1.
Proof.
  destruct (verdict t report l) as [live|] eqn:Hv.
  - destruct (details t) as [d|e] eqn:Hd.
    + destruct (checkReport_ok _ server _ _ _ _ Hv Hd) as (_ & -> & ->).
      eexists _, _. split_and!; [done..| |simpl; lia].
      unfold delivered. destruct (ctxDone t); simpl; lia.
    + destruct (checkReport_err _ server _ _ _ _ Hv Hd) as (_ & -> & ->).
      exists [], [Code report]. rewrite app_nil_r.
      split_and!; simpl; try done; lia.
  - destruct (checkReport_quiet _ server _ _ Hv) as (_ & -> & ->).
      exists [], []. rewrite !app_nil_r. split_and!; simpl; try done; lia.
Qed.

Lemma iterate_counts server its l :
  ∃ new asked,
    handled (iterate server its l) = handled l ++ new ∧
    detailsAsked (iterate server its l) = detailsAsked l ++ asked ∧
    length new ≤ length asked ≤ length its.
Proof.
  revert l. induction its as [|it its IH]; intros l.
  - exists [], []. by rewrite !app_nil_r.
  - rewrite iterate_cons.
    destruct (checkReport_counts it.1 server it.2 l)
      as (n1 & a1 & Hh1 & Ha1 & ?).
    destruct (IH (checkReport it.1 server it.2 l))
      as (n2 & a2 & Hh2 & Ha2 & ?).
    exists (n1 ++ n2), (a1 ++ a2).
    rewrite Hh2, Hh1, Ha2, Ha1, !app_assoc, !length_app. simpl.
    split_and!; [done..|lia|lia].
Qed.

(** X3. A poll cycle makes no more requests for report details than
    there are reports that passed the raid filter, and hands over no more
    updates than it made requests; when [FindReports] fails it asks for
    nothing, sends nothing and leaves the cache alone. *)
Theorem cycle_fetches_at_most_once_per_report
    (found : Result (list Report)) (ticks : nat -> Tick)
    (server : storage.Server) (l : Loop) :
  ∃ new asked,
    handled (checkChanges found ticks server l) = handled l ++ new ∧
    detailsAsked (checkChanges found ticks server l)
      = detailsAsked l ++ asked ∧
    length new ≤ length asked ∧
    match found with
    | Ok reports => length asked ≤ length (deleteNonRaid reports)
    | Err _ => asked = [] ∧
               reportsCache (checkChanges found ticks server l)
               = reportsCache l
    end.
Proof.
  destruct found as [reports|err].
  - rewrite checkChanges_iterate.
    destruct (iterate_counts server
                (imap (fun k r => (ticks k, r)) (deleteNonRaid reports))
                (log (LogLoadedReports (length (deleteNonRaid reports))) l))
      as (new & asked & Hh & Ha & Hl).
    rewrite length_imap in Hl. exists new, asked. split_and!; [done..|lia|lia].
  - exists [], []. simpl. by rewrite !app_nil_r.
Qed.

(** X4. A cycle in which every report that passed the raid filter is either
    unseen and outdated, or cached with its present end time and not due to
    go offline, makes no request for details, sends no update and leaves the
    cache as it was. *)
Theorem quiet_cycle_costs_nothing (found : list Report) (ticks : nat -> Tick)
    (server : storage.Server) (l : Loop) :
  (∀ i r, deleteNonRaid found !! i = Some r -> NothingToDo (ticks i) r l) ->
  detailsAsked (checkChanges (Ok found) ticks server l) = detailsAsked l ∧
  handled (checkChanges (Ok found) ticks server l) = handled l ∧
  reportsCache (checkChanges (Ok found) ticks server l) = reportsCache l.
Proof.
  intros Hall. rewrite checkChanges_iterate.
  destruct (iterate_quiet server
              (imap (fun k r => (ticks k, r)) (deleteNonRaid found))
              (log (LogLoadedReports (length (deleteNonRaid found))) l))
    as (Hc & Hh & Hd).
  - intros it (i & Hi & Ht)%elem_of_cycle_iterations. rewrite Ht.
    apply (Hall i _ Hi).
  - by rewrite Hc, Hh, Hd.
Qed.

Lemma quiet_cycle_costs_nothing_witness :
  let l := foldl (happen guild1) newLoop [pollABC 62000 1] in
  let l' := checkChanges (Ok [reportFlex; reportABC 62000])
              (fun _ => tickAt 62000 14 (Ok detailsABC) false) guild1 l in
  detailsAsked l' = detailsAsked l ∧ handled l' = handled l ∧
  reportsCache l' = reportsCache l.
Proof.
  apply (quiet_cycle_costs_nothing [reportFlex; reportABC 62000]
           (fun _ => tickAt 62000 14 (Ok detailsABC) false) guild1
           (foldl (happen guild1) newLoop [pollABC 62000 1])).
  intros [|[|i]] r; simpl; intros [= <-]. right.
  eexists. split; [vm_compute; reflexivity|]. split; reflexivity.
Defined.

(** ** The cache of a watch loop *)

Lemma cacheWellKept_checkReport t server report l :
  cacheWellKept l -> cacheWellKept (checkReport t server report l).
Proof.
  intros Hl k c.
  destruct (verdict t report l) as [live|] eqn:Hv.
  - destruct (details t) as [d|e] eqn:Hd.
    + destruct (checkReport_ok _ server _ _ _ _ Hv Hd) as (-> & _ & ->).
      destruct (decide (k = Code report)) as [->|Hne].
      * rewrite lookup_insert_eq. intros [= <-]. split; [done|].
        apply elem_of_app. right. left.
      * rewrite lookup_insert_ne by done. intros [? ?]%Hl.
        split; [done|]. apply elem_of_app. by left.
    + destruct (checkReport_err _ server _ _ _ _ Hv Hd) as (-> & _ & ->).
      intros [? ?]%Hl. split; [done|]. apply elem_of_app. by left.
  - destruct (checkReport_quiet _ server _ _ Hv) as (-> & _ & ->). apply Hl.
Qed.

Lemma cacheWellKept_iterate server its l :
  cacheWellKept l -> cacheWellKept (iterate server its l).
Proof.
  revert l. induction its as [|it its IH]; intros l Hl; [done|].
  rewrite iterate_cons. by apply IH, cacheWellKept_checkReport.
Qed.

Lemma cacheWellKept_happen server h l :
  cacheWellKept l -> cacheWellKept (happen server l h).
Proof.
  intros Hl. destruct h as [[found|err] ticks|k']; cbn [happen].
  - rewrite checkChanges_iterate. by apply cacheWellKept_iterate.
  - exact Hl.
  - intros k c. cbn [reportsCache detailsAsked].
    intros [_ Hc]%lookup_delete_Some. by apply Hl.
Qed.

Lemma handled_asked_checkReport t server report l :
  (∀ e, e ∈ handled l -> ReportId e ∈ detailsAsked l) ->
  ∀ e, e ∈ handled (checkReport t server report l) ->
       ReportId e ∈ detailsAsked (checkReport t server report l).
Proof.
  intros Hl e.
  destruct (checkReport_effects t server report l)
    as ((new & Hh & Hn) & (asked & Ha & _) & _).
  destruct (checkReport_counts t server report l)
    as (new' & asked' & Hh' & Ha' & Hlen).
  rewrite Hh' in Hh. apply app_inv_head in Hh as ->.
  rewrite Ha' in Ha. apply app_inv_head in Ha as ->.
  rewrite Hh', Ha'. intros [He|He]%elem_of_app; apply elem_of_app.
  - left. by apply Hl.
  - right. destruct (Hn e He) as [-> _].
    destruct (checkReport_effects t server report l)
      as (_ & (asked' & Ha2 & Hb) & _).
    rewrite Ha' in Ha2. apply app_inv_head in Ha2 as <-.
    destruct asked as [|a asked].
    + destruct new; [by apply elem_of_nil in He|simpl in Hlen; lia].
    + rewrite <- (Hb a) by left. left.
Qed.

Lemma handled_asked_iterate server its l :
  (∀ e, e ∈ handled l -> ReportId e ∈ detailsAsked l) ->
  ∀ e, e ∈ handled (iterate server its l) ->
       ReportId e ∈ detailsAsked (iterate server its l).
Proof.
  revert l. induction its as [|it its IH]; intros l Hl; [done|].
  rewrite iterate_cons. by apply IH, handled_asked_checkReport.
Qed.

Lemma handled_asked_happen server h l :
  (∀ e, e ∈ handled l -> ReportId e ∈ detailsAsked l) ->
  ∀ e, e ∈ handled (happen server l h) ->
       ReportId e ∈ detailsAsked (happen server l h).
Proof.
  intros Hl. destruct h as [[found|err] ticks|k']; cbn [happen]; [|done..].
  rewrite checkChanges_iterate. by apply handled_asked_iterate.
Qed.

(** X5. In every state that a watch loop reaches, through any cycles and
    expiries, the cache files each report under its own code and holds only
    reports whose details the loop has asked for, and every update handed to
    the handler is about a report whose details the loop has asked for. *)
Theorem watchLoop_cache_and_updates_were_fetched
    (server : storage.Server) (hs : list Happening) :
  let l := watchLoop server hs in
  (∀ k c, reportsCache l !! k = Some c -> code c = k ∧ k ∈ detailsAsked l) ∧
  (∀ e, e ∈ handled l -> ReportId e ∈ detailsAsked l).
Proof.
  unfold watchLoop.
  cut (∀ l, cacheWellKept l ∧
            (∀ e, e ∈ handled l -> ReportId e ∈ detailsAsked l) ->
            cacheWellKept (foldl (happen server) l hs) ∧
            (∀ e, e ∈ handled (foldl (happen server) l hs) ->
                  ReportId e ∈ detailsAsked (foldl (happen server) l hs))).
  { intros H. apply H. split.
    - intros k c. cbn [newLoop reportsCache]. by rewrite lookup_empty.
    - by intros e ?%elem_of_nil. }
  induction hs as [|h hs IH]; intros l [Hc Hh]; [done|].
  cbn [foldl]. apply IH. split.
  - by apply cacheWellKept_happen.
  - by apply handled_asked_happen.
Qed.

(** ** The client: construction and queries *)

(** X6. [NewClient] exchanges the credentials exactly once and sends no
    query.  It fails with the transport error of the exchange, or with the
    status and body of an error response, and otherwise returns a client
    that holds the token as answered, even an empty one, expiring
    [expires_in] seconds after the clock reading taken once the answer is
    in. *)
Theorem NewClient_exchanges_once (net : Net) :
  let out := NewClient net in
  exchanges out.2 = 1 ∧
  posted out.2 = [] ∧
  match oauth net 0 with
  | Err e => out.1 = Err e ∧ clockReads out.2 = 0
  | Ok resp =>
      if IsError (TokenStatusCode resp)
      then out.1 = Err (ErrOAuth (TokenStatusCode resp) (TokenBody resp)) ∧
           clockReads out.2 = 0
      else out.1 =
             Ok {| token := AccessToken (TokenResult resp);
                   expiresAt :=
                     (clock net 0
                      + wrap64 (wrap64 (ExpiresIn (TokenResult resp))
                                * Second))%Z |} ∧
           client out.2 =
             {| token := AccessToken (TokenResult resp);
                expiresAt :=
                  (clock net 0
                   + wrap64 (wrap64 (ExpiresIn (TokenResult resp))
                             * Second))%Z |} ∧
           clockReads out.2 = 1
  end.
Proof.
  cbv zeta. unfold NewClient. rewrite refreshToken_spec. cbv zeta.
  rewrite bool_decide_eq_false_2 by (by intros [? _]).
  unfold exchanged, readsAfterCheck. simpl.
  destruct (oauth net 0) as [resp|e]; simpl; [|done].
  destruct (IsError (TokenStatusCode resp)); done.
Qed.

Example NewClient_sample :
  (NewClient sampleNet).1
  = Ok {| token := "new"; expiresAt := (1000 * Second + Hour)%Z |} ∧
  (NewClient oauthDown).1 = Err (ErrTransport "connection refused").
Proof. vm_compute. done. Qed.

Lemma gqlFinish_Ok {A} (out : option (string -> Result A)) (resp : Response)
    (a : A) :
  gqlFinish out resp = Ok a ->
  IsError (StatusCode resp) = false ∧
  Errors (Envelope resp) = [] ∧
  Data (Envelope resp) ≠ "" ∧
  Data (Envelope resp) ≠ "null" ∧
  ∃ unmarshal, out = Some unmarshal ∧ unmarshal (Data (Envelope resp)) = Ok a.
Proof.
  unfold gqlFinish. destruct (IsError (StatusCode resp)); [done|].
  destruct (Errors (Envelope resp)); [|done].
  destruct out as [unmarshal|]; [|done].
  destruct (decide (Data (Envelope resp) = "")); [done|].
  destruct (decide (Data (Envelope resp) = "null")); [done|].
  intros H. split_and!; try done. by exists unmarshal.
Qed.

(** X7. A query sends at most two requests, all with the query and the
    variables given, exchanges credentials at most twice, and fails when
    it sent no request.  When it succeeds, the last request sent was
    answered without an error status, without errors in the envelope and
    with a payload that is neither empty nor null, the destination was not
    nil, and the result is that payload decoded. *)
Theorem gql_success_means_good_answer {A} (net : Net) (query : string)
    (vars : gmap string Var) (out : option (string -> Result A)) (s : Run) :
  let r := gql net query vars out s in
  ∃ sent,
    posted r.2 = posted s ++ sent ∧
    length sent ≤ 2 ∧
    (∀ rq, rq ∈ sent ->
       ReqBody rq = {| Query := query; Variables := vars |}) ∧
    exchanges s ≤ exchanges r.2 ≤ exchanges s + 2 ∧
    (sent = [] -> ∃ e, r.1 = Err e) ∧
    (∀ a, r.1 = Ok a ->
       ∃ rq resp unmarshal,
         last sent = Some rq ∧
         graphql net (length (posted s) + length sent - 1) rq = Ok resp ∧
         IsError (StatusCode resp) = false ∧
         Errors (Envelope resp) = [] ∧
         Data (Envelope resp) ≠ "" ∧
         Data (Envelope resp) ≠ "null" ∧
         out = Some unmarshal ∧
         unmarshal (Data (Envelope resp)) = Ok a).
Proof.
  cbv zeta. unfold gql, bind.
  destruct (ensureToken net s) as [t s1] eqn:Het.
  pose proof (ensureToken_posted net s) as [Hp1 He1]. rewrite Het in Hp1, He1.
  simpl in Hp1, He1.
  destruct t as [[]|e].
  2:{ exists []. simpl. rewrite app_nil_r.
      split_and!; [done|lia|by intros ? ?%elem_of_nil|lia|lia|by eexists|done]. }
  rewrite doOnce_spec. cbv zeta. rewrite Hp1.
  set (rq := {| AuthToken := _; ReqBody := _ |}).
  destruct (graphql net (length (posted s)) rq) as [resp|e] eqn:Hg.
  2:{ exists [rq]. simpl.
      split_and!; [done|lia|by intros ? ->%list_elem_of_singleton|lia|lia
                  |done|done]. }
  destruct (decide (StatusCode resp = 401%Z)) as [H401|Hne].
  2:{ exists [rq]. unfold ret. simpl.
      split_and!; [done|lia|by intros ? ->%list_elem_of_singleton|lia|lia
                  |done|].
      intros a (? & ? & ? & ? & unmarshal & ? & ?)%gqlFinish_Ok.
      exists rq, resp, unmarshal. rewrite Nat.add_sub.
      split_and!; done. }
  match goal with |- context [refreshToken net ?s0] =>
    pose proof (refreshToken_posted net s0) as [Hp2 He2];
    destruct (refreshToken net s0) as [t' s2] end.
  simpl in Hp2, He2.
  destruct t' as [[]|e].
  2:{ exists [rq]. unfold ret. simpl. rewrite Hp2.
      split_and!; [done|lia|by intros ? ->%list_elem_of_singleton|lia|lia
                  |done|done]. }
  rewrite doOnce_spec. cbv zeta. rewrite Hp2.
  set (rq' := {| AuthToken := _; ReqBody := _ |}).
  exists [rq; rq'].
  assert (∀ x, x ∈ [rq; rq'] ->
               ReqBody x = {| Query := query; Variables := vars |}) as Hbody.
  { intros x [->|[->|?%elem_of_nil]%elem_of_cons]%elem_of_cons; done. }
  destruct (graphql net (length (posted s ++ [rq])) rq') as [resp'|e'] eqn:Hg';
    unfold ret; simpl; rewrite <- app_assoc;
    (split_and!; [done|lia|done|lia|lia|done|]); [|done].
  intros a (? & ? & ? & ? & unmarshal & ? & ?)%gqlFinish_Ok.
  exists rq', resp', unmarshal.
  rewrite length_app in Hg'. simpl in Hg'.
  replace (length (posted s) + 2 - 1) with (length (posted s) + 1) by lia.
  split_and!; done.
Qed.

(** X8. When a query is answered 401 while the stored token still passes
    the freshness check and no other goroutine replaces it, the refresh
    exchanges nothing and the query goes out a second time with the very
    same token; the outcome of the call is that of the second answer, and
    a second 401 is returned as the error of the call. *)
Theorem gql_401_with_fresh_token_resends_it {A} (net : Net) (query : string)
    (vars : gmap string Var) (out : option (string -> Result A)) (s : Run)
    (resp : Response) :
  let c := client s in
  let rq := {| AuthToken := token c;
               ReqBody := {| Query := query; Variables := vars |} |} in
  let r := gql net query vars out s in
  Fresh c (clock net (clockReads s)) ->
  Fresh c (clock net (S (clockReads s))) ->
  (∀ k, others net k c = c) ->
  graphql net (length (posted s)) rq = Ok resp ->
  StatusCode resp = 401%Z ->
  exchanges r.2 = exchanges s ∧
  client r.2 = c ∧
  posted r.2 = posted s ++ [rq; rq] ∧
  r.1 = match graphql net (S (length (posted s))) rq with
        | Err e => Err e
        | Ok resp' => gqlFinish out resp'
        end ∧
  (∀ resp', graphql net (S (length (posted s))) rq = Ok resp' ->
            StatusCode resp' = 401%Z ->
            r.1 = Err (ErrGraphqlStatus 401 (Body resp'))).
Proof.
  cbv zeta. intros Hf1 Hf2 Hid Hg H401.
  assert (readsAfterCheck (client s) (clockReads s) = S (clockReads s)) as Hr.
  { unfold readsAfterCheck. destruct Hf1 as [Hne _]. by rewrite decide_False. }
  unfold gql, bind. rewrite ensureToken_spec.
  rewrite bool_decide_eq_true_2 by done.
  rewrite doOnce_spec. cbv zeta. simpl. rewrite Hid, Hg, Hr.
  rewrite decide_True by done.
  rewrite refreshToken_spec. cbv zeta. simpl. rewrite Hid.
  rewrite bool_decide_eq_true_2 by done. simpl. rewrite Hid.
  rewrite length_app. simpl. rewrite Nat.add_1_r.
  destruct (graphql net (S (length (posted s))) _) as [resp'|e'];
    unfold ret; simpl; rewrite <- app_assoc;
    (split_and!; [done..|]); [|done].
  intros ? [= <-] H. unfold gqlFinish. by rewrite H.
Qed.

Lemma gql_401_with_fresh_token_resends_it_witness :
  let r := gql sampleNet "query" ∅ (Some (fun data => Ok data))
             (startRun revokedClient) in
  map AuthToken (posted r.2) = ["revoked"; "revoked"] ∧ exchanges r.2 = 0.
Proof.
  destruct (gql_401_with_fresh_token_resends_it sampleNet "query" ∅
              (Some (fun data => Ok data)) (startRun revokedClient)
              {| StatusCode := 401; Body := "Unauthenticated.";
                 Envelope := {| Data := ""; Errors := [] |} |})
    as (He & _ & Hp & _).
  - split; [done|]. vm_compute. reflexivity.
  - split; [done|]. vm_compute. reflexivity.
  - reflexivity.
  - reflexivity.
  - reflexivity.
  - cbv zeta. rewrite Hp, He. split; reflexivity.
Defined.

(** ** The outcomes of [TopDeathsForReport] *)

Section Outcomes.

Variable unmarshal : string -> option DeathEvent.
Variable sortSlice : list DeathEvent -> list DeathEvent.
Variable bossFights : Result (list Fight).
Variable gqlEvents : nat -> nat -> gmap string Var -> Result eventsPage.
Variable fuel : nat.
Variable reportCode : string.
Variable wipeCutoff : Z.

Local Abbreviation getEvents :=
  (eventsFetcher unmarshal sortSlice gqlEvents fuel reportCode wipeCutoff).

Lemma getDeathEvents_returns i f :
  maxPages ≤ fuel -> is_Some (getEvents i f).
Proof.
  intros Hfuel. unfold eventsFetcher, getDeathEvents.
  destruct (pagesLoop_run unmarshal (gqlEvents i) fuel reportCode (ID f)
              wipeCutoff None 0 [] [])
    as (pages & stop & _ & _ & -> & _); [unfold maxPages; lia|lia|].
  destruct stop; simpl; by eexists.
Qed.

Lemma fightsLoop_outcome fights i st namesT namesF :
  maxPages ≤ fuel ->
  Tallied namesT (totalDeaths st) (totalIdx st) ->
  Tallied namesF (firstDeaths st) (firstIdx st) ->
  (∃ evss st',
     FightsFetched getEvents i fights evss ∧
     fightsLoop unmarshal sortSlice gqlEvents fuel reportCode wipeCutoff
       fights i st = Some (Ok st')) ∨
  (∃ j f e warns evss,
     fights !! j = Some f ∧
     FightsFetched getEvents i (take j fights) evss ∧
     getEvents (i + j) f = Some (Err e, warns) ∧
     fightsLoop unmarshal sortSlice gqlEvents fuel reportCode wipeCutoff
       fights i st = Some (Err (ErrEventsForFight (ID f) e))).
Proof.
  intros Hfuel. revert i st namesT namesF.
  induction fights as [|f fights IH]; intros i st namesT namesF HT HF.
  - left. exists [], st. split; [constructor|done].
  - cbn [fightsLoop].
    destruct (getDeathEvents_returns i f Hfuel) as [[[events|e] warns] Hget];
      unfold eventsFetcher in Hget; rewrite Hget.
    + destruct (eventsLoop_Tallied events false st namesT namesF HT HF)
        as (st1 & -> & HT1 & HF1).
      destruct (IH (S i) st1 _ _ HT1 HF1)
        as [(evss & st' & Hf & Hrun)|(j & f' & e & w & evss & Hj & Hf & He & Hrun)].
      * left. exists (events :: evss), st'. split; [by econstructor|done].
      * right. exists (S j), f', e, w, (events :: evss).
        split_and!; [done|by econstructor| |done].
        by replace (i + S j) with (S i + j) by lia.
    + right. exists 0, f, e, warns, [].
      rewrite Nat.add_0_r. split_and!; [done|constructor|done|done].
Qed.

(** X9. With fuel for the ten pages of a fight, [TopDeathsForReport] always
    returns, in one of three ways.  An error of [GetBossFights] is returned
    as it is.  Otherwise the fights are gone through in order, and the first
    fight whose events cannot be fetched ends the call with that error,
    wrapped with the identifier of the fight; what the server would answer
    for later fights plays no part.  Only when the events of every fight
    were fetched are report details returned. *)
Theorem TopDeathsForReport_outcome :
  maxPages ≤ fuel ->
  let run := TopDeathsForReport unmarshal sortSlice bossFights gqlEvents fuel
               reportCode wipeCutoff in
  match bossFights with
  | Err e => run = Some (Err e)
  | Ok fights =>
      (∃ evss d, FightsFetched getEvents 0 fights evss ∧ run = Some (Ok d)) ∨
      (∃ j f e warns evss,
         fights !! j = Some f ∧
         FightsFetched getEvents 0 (take j fights) evss ∧
         getEvents j f = Some (Err e, warns) ∧
         run = Some (Err (ErrEventsForFight (ID f) e)))
  end.
Proof.
  intros Hfuel. cbv zeta. unfold TopDeathsForReport.
  destruct bossFights as [[|f fights]|e]; [| |done].
  - left. exists [], {| TopDeaths := []; TopFirstDeaths := [] |}.
    split; [constructor|done].
  - destruct (fightsLoop_outcome (f :: fights) 0 noCounters [] [] Hfuel)
      as [(evss & st' & Hf & ->)|(j & f' & e & w & evss & Hj & Hf & He & ->)];
      [apply Tallied_nil..| |].
    + left. by eexists evss, _.
    + right. by exists j, f', e, w, evss.
Qed.

End Outcomes.

Lemma TopDeathsForReport_outcome_witness :
  let getEvents := eventsFetcher sampleUnmarshal sampleSort laterFightsFail
                     10 "ABC" 3 in
  let run := TopDeathsForReport sampleUnmarshal sampleSort
               (Ok [fight 1; fight 2; fight 3]) laterFightsFail 10 "ABC" 3 in
  (∃ evss d,
     FightsFetched getEvents 0 [fight 1; fight 2; fight 3] evss ∧
     run = Some (Ok d)) ∨
  (∃ j f e warns evss,
     [fight 1; fight 2; fight 3] !! j = Some f ∧
     FightsFetched getEvents 0 (take j [fight 1; fight 2; fight 3]) evss ∧
     getEvents j f = Some (Err e, warns) ∧
     run = Some (Err (ErrEventsForFight (ID f) e))).
Proof.
  apply (TopDeathsForReport_outcome sampleUnmarshal sampleSort
           (Ok [fight 1; fight 2; fight 3]) laterFightsFail 10 "ABC" 3).
  unfold maxPages. lia.
Defined.

Example TopDeathsForReport_outcome_sample :
  TopDeathsForReport sampleUnmarshal sampleSort
    (Ok [fight 1; fight 2; fight 3]) laterFightsFail 10 "ABC" 3
  = Some (Err (ErrEventsForFight 2 (ErrGraphqlStatus 502 "Bad Gateway"))).
Proof. vm_compute. done. Qed.

(** ** The sums of a leaderboard *)

Lemma occurrences_filter_ne (n m : string) (names : list string) :
  m ≠ n ->
  occurrences m (filter (fun x => x ≠ n) names) = occurrences m names.
Proof.
  intros Hne. unfold occurrences. rewrite list_filter_filter. f_equal.
  apply list_filter_iff. intros x. split; [by intros [? _]|].
  intros ->. done.
Qed.

Lemma occurrences_complement (n : string) (names : list string) :
  occurrences n names + length (filter (fun x => x ≠ n) names) = length names.
Proof.
  unfold occurrences. rewrite <- length_app.
  apply Permutation_length, filter_app_complement.
Qed.

(** Counting every name of a list without repeats counts no element twice,
    and counts them all when every one of them is listed. *)
Lemma sum_occurrences (ns names : list string) :
  NoDup ns ->
  sum_list_with (fun n => occurrences n names) ns ≤ length names ∧
  ((∀ n, n ∈ names -> n ∈ ns) ->
   sum_list_with (fun n => occurrences n names) ns = length names).
Proof.
  intros Hnd. revert names.
  induction Hnd as [|n ns Hn Hnd IH]; intros names.
  - simpl. split; [lia|]. intros Hall. destruct names as [|x names]; [done|].
    specialize (Hall x ltac:(left)). by apply elem_of_nil in Hall.
  - simpl. destruct (IH (filter (fun x => x ≠ n) names)) as [Hle Heq].
    assert (sum_list_with (fun m => occurrences m names) ns
            = sum_list_with
                (fun m => occurrences m (filter (fun x => x ≠ n) names)) ns)
      as ->.
    { clear -Hn. induction ns as [|m ns IH]; [done|]. simpl.
      apply not_elem_of_cons in Hn as [Hne Hn].
      rewrite occurrences_filter_ne by done. by rewrite IH. }
    pose proof (occurrences_complement n names). split; [lia|].
    intros Hall. rewrite Heq; [lia|].
    intros m [Hm Hin]%list_elem_of_filter.
    apply Hall in Hin. apply elem_of_cons in Hin as [->|?]; done.
Qed.

Lemma sumValues_cons p board :
  sumValues (p :: board) = (Value p + sumValues board)%Z.
Proof. done. Qed.

Lemma sumValues_app l1 l2 :
  sumValues (l1 ++ l2) = (sumValues l1 + sumValues l2)%Z.
Proof.
  induction l1 as [|p l1 IH]; [done|].
  rewrite <- app_comm_cons, !sumValues_cons, IH. lia.
Qed.

Lemma sumValues_Permutation l1 l2 : l1 ≡ₚ l2 -> sumValues l1 = sumValues l2.
Proof.
  induction 1 as [|p l1 l2 _ IH|p q l|l1 l2 l3 _ IH1 _ IH2];
    rewrite ?sumValues_cons; [done|by rewrite IH|lia|congruence].
Qed.

Lemma sumValues_nonneg l :
  (∀ p, p ∈ l -> (0 ≤ Value p)%Z) -> (0 ≤ sumValues l)%Z.
Proof.
  induction l as [|p l IH]; intros Hall; [done|]. rewrite sumValues_cons.
  pose proof (Hall p ltac:(left)).
  assert (0 ≤ sumValues l)%Z by (apply IH; intros q ?; apply Hall; by right).
  lia.
Qed.

Lemma sumValues_occurrences names lst :
  (∀ p, p ∈ lst -> Value p = Z.of_nat (occurrences (Name p) names)) ->
  sumValues lst
  = Z.of_nat (sum_list_with (fun n => occurrences n names) (Name <$> lst)).
Proof.
  induction lst as [|p lst IH]; intros Hall; [done|].
  rewrite sumValues_cons, fmap_cons. simpl.
  rewrite (Hall p) by left. rewrite IH; [lia|].
  intros q ?. apply Hall. by right.
Qed.

(** The counts of a tally add up to the number of names counted; the board
    made of it holds no more, and as much when nothing is cut off. *)
Lemma board_sum names lst idx :
  Tallied names lst idx ->
  (Z.of_nat (length names) < 2 ^ 63)%Z ->
  let board := truncate (SliceStable lessByValue lst) in
  (0 ≤ sumValues board ≤ Z.of_nat (length names))%Z ∧
  (length board < 5 -> sumValues board = Z.of_nat (length names)).
Proof.
  intros HT Hbound. cbv zeta. rewrite truncate_take.
  set (S := SliceStable lessByValue lst).
  assert (S ≡ₚ lst) as Hperm by apply SliceStable_Permutation.
  assert (∀ p, p ∈ lst -> Value p = Z.of_nat (occurrences (Name p) names))
    as Hval.
  { intros p Hp. destruct (Tallied_elem_of _ _ _ _ HT Hp) as [_ ->].
    apply wrap64_small. pose proof (occurrences_length (Name p) names). lia. }
  assert (sumValues S = Z.of_nat (length names)) as Hsum.
  { rewrite (sumValues_Permutation _ _ Hperm).
    rewrite (sumValues_occurrences names) by done.
    pose proof (Tallied_NoDup _ _ _ HT) as Hnd.
    destruct (sum_occurrences (Name <$> lst) names Hnd) as [_ Heq].
    rewrite Heq; [done|].
    intros n Hn. destruct HT as [_ _ Hall _].
    destruct (Hall n Hn) as (i & p & Hi & <-).
    apply list_elem_of_fmap_2. by eapply list_elem_of_lookup_2. }
  assert (∀ p, p ∈ S -> (0 ≤ Value p)%Z) as Hpos.
  { intros p Hp. rewrite Hperm in Hp. rewrite (Hval p Hp). lia. }
  rewrite <- (take_drop N S), sumValues_app in Hsum.
  assert (0 ≤ sumValues (take N S))%Z.
  { apply sumValues_nonneg. intros p Hp%elem_of_take_l. by apply Hpos. }
  assert (0 ≤ sumValues (drop N S))%Z.
  { apply sumValues_nonneg. intros p Hp. apply Hpos.
    rewrite <- (take_drop N S). apply elem_of_app. by right. }
  split; [lia|]. rewrite length_take. unfold N in *. intros Hlen.
  rewrite drop_ge in Hsum by lia. change (sumValues []) with 0%Z in Hsum. lia.
Qed.

Lemma FightsFetched_length getEvents i fights evss :
  FightsFetched getEvents i fights evss -> length evss = length fights.
Proof. induction 1; simpl; congruence. Qed.

Lemma firstNamed_victims events :
  length (option_list (victim <$> firstNamed events)) ≤ length (victims events).
Proof.
  induction events as [|ev events IH]; [done|].
  rewrite firstNamed_cons, victims_cons.
  destruct (decide (victim ev = "")); [done|]. simpl. lia.
Qed.

Lemma firstVictims_length evss :
  length (firstVictims evss) ≤ length evss ∧
  length (firstVictims evss) ≤ length (allVictims evss).
Proof.
  induction evss as [|events evss [IH1 IH2]]; [done|].
  rewrite firstVictims_cons, length_app. unfold allVictims in *. simpl.
  rewrite length_app. pose proof (firstNamed_victims events).
  destruct (firstNamed events); simpl in *; lia.
Qed.

Lemma allVictims_length evss :
  length (allVictims evss) ≤ length (concat evss).
Proof.
  unfold allVictims. induction evss as [|events evss IH]; [done|]. simpl.
  rewrite !length_app. unfold victims at 1.
  pose proof (length_filter (fun name => name ≠ "") (map victim events)).
  rewrite length_map in *. lia.
Qed.

Section Sums.

Variable unmarshal : string -> option DeathEvent.
Variable sortSlice : list DeathEvent -> list DeathEvent.
Variable bossFights : Result (list Fight).
Variable gqlEvents : nat -> nat -> gmap string Var -> Result eventsPage.
Variable fuel : nat.
Variable reportCode : string.
Variable wipeCutoff : Z.

Local Abbreviation getEvents :=
  (eventsFetcher unmarshal sortSlice gqlEvents fuel reportCode wipeCutoff).

(** X10. The deaths of a report numbering less than 2^63, the counts of the
    death leaderboard returned add up to at most the number of death events
    that name a player, and to exactly that number when the board has fewer
    than five entries; the counts of the first-death leaderboard add up to
    at most the number of fights, and to the number of fights with a named
    death when the board has fewer than five entries. *)
Theorem leaderboard_counts_add_up (d : ReportDetails) :
  TopDeathsForReport unmarshal sortSlice bossFights gqlEvents fuel
    reportCode wipeCutoff = Some (Ok d) ->
  ∃ fights evss,
    bossFights = Ok fights ∧
    FightsFetched getEvents 0 fights evss ∧
    ((Z.of_nat (length (concat evss)) < 2 ^ 63)%Z ->
     (0 ≤ sumValues (TopDeaths d) ≤ Z.of_nat (length (allVictims evss)))%Z ∧
     (length (TopDeaths d) < 5 ->
      sumValues (TopDeaths d) = Z.of_nat (length (allVictims evss))) ∧
     (0 ≤ sumValues (TopFirstDeaths d) ≤ Z.of_nat (length fights))%Z ∧
     (length (TopFirstDeaths d) < 5 ->
      sumValues (TopFirstDeaths d)
      = Z.of_nat (length (filter (fun events => is_Some (firstNamed events))
                            evss)))).
Proof.
  intros (fights & evss & total & tidx & first & fidx & Hb & Hf & HT & HF
          & HdT & HdF)%TopDeathsForReport_Ok.
  exists fights, evss. split; [done|]. split; [done|]. intros Hbound.
  pose proof (allVictims_length evss) as HlenT.
  pose proof (firstVictims_length evss) as [HlenF HlenF'].
  pose proof (FightsFetched_length _ _ _ _ Hf) as Hlen.
  destruct (board_sum _ _ _ HT) as [HsT HeT]; [lia|].
  destruct (board_sum _ _ _ HF) as [HsF HeF]; [lia|].
  rewrite <- HdT in HsT, HeT. rewrite <- HdF in HsF, HeF.
  split_and!; [lia|lia|done|lia|lia|].
  intros Hlt. rewrite (HeF Hlt). f_equal. unfold firstVictims.
  clear. induction evss as [|events evss IH]; [done|].
  rewrite filter_cons. cbn [omap list_omap].
  destruct (firstNamed events) as [ev|]; cbn [fmap option_fmap option_map].
  - rewrite decide_True by (by eexists). simpl. by rewrite IH.
  - rewrite decide_False by (by intros [? ?]). done.
Qed.

End Sums.

Lemma leaderboard_counts_add_up_witness :
  ∃ fights evss,
    Ok [fight 1; fight 2] = Ok fights ∧
    FightsFetched
      (eventsFetcher sampleUnmarshal sampleSort sampleEvents 10 "ABC" 3)
      0 fights evss ∧
    ((Z.of_nat (length (concat evss)) < 2 ^ 63)%Z ->
     (0 ≤ sumValues [ {| Name := "Leeroy"; Value := 3 |};
                      {| Name := "Jaina"; Value := 2 |};
                      {| Name := "Thrall"; Value := 1 |} ]
        ≤ Z.of_nat (length (allVictims evss)))%Z ∧
     (length [ {| Name := "Leeroy"; Value := 3 |};
               {| Name := "Jaina"; Value := 2 |};
               {| Name := "Thrall"; Value := 1 |} ] < 5 ->
      sumValues [ {| Name := "Leeroy"; Value := 3 |};
                  {| Name := "Jaina"; Value := 2 |};
                  {| Name := "Thrall"; Value := 1 |} ]
      = Z.of_nat (length (allVictims evss))) ∧
     (0 ≤ sumValues [ {| Name := "Thrall"; Value := 1 |};
                      {| Name := "Leeroy"; Value := 1 |} ]
        ≤ Z.of_nat (length fights))%Z ∧
     (length [ {| Name := "Thrall"; Value := 1 |};
               {| Name := "Leeroy"; Value := 1 |} ] < 5 ->
      sumValues [ {| Name := "Thrall"; Value := 1 |};
                  {| Name := "Leeroy"; Value := 1 |} ]
      = Z.of_nat (length (filter (fun events => is_Some (firstNamed events))
                            evss)))).
Proof.
  apply (leaderboard_counts_add_up sampleUnmarshal sampleSort
           (Ok [fight 1; fight 2]) sampleEvents 10 "ABC" 3
           {| TopDeaths := [ {| Name := "Leeroy"; Value := 3 |};
                             {| Name := "Jaina"; Value := 2 |};
                             {| Name := "Thrall"; Value := 1 |} ];
              TopFirstDeaths := [ {| Name := "Thrall"; Value := 1 |};
                                  {| Name := "Leeroy"; Value := 1 |} ] |}).
  vm_compute. reflexivity.
Defined.

(** ** The store *)

Section StoreProperties.

Variable Marshal : storage.Server -> string.
Variable Unmarshal : string -> storage.Server.
Variable putErr : string -> string -> option BoltError.

Lemma Update_outcome tx fn db r :
  Update tx fn db = Some r ->
  (∃ e, r = (Some e, db)) ∨
  (beginErr tx = None ∧ commitErr tx = None ∧ fn db = Some (None, r.2) ∧
   r.1 = None).
Proof.
  unfold Update. destruct (beginErr tx) as [e|].
  - intros [= <-]. left. by exists e.
  - destruct (fn db) as [[[e|] db']|]; [| |done].
    + intros [= <-]. left. by exists e.
    + destruct (commitErr tx) as [e|]; intros [= <-].
      * left. by exists e.
      * by right.
Qed.

(** A save that returns either failed and changed nothing, or put the
    JSON of the server under the identifier of the server. *)
Lemma SaveServer_inv tx server db r :
  SaveServer Marshal putErr tx server db = Some r ->
  (∃ e, r = (Some e, db)) ∨
  (∃ b, db = Some b ∧
        r = (None, Some (<[storage.ServerId server := Marshal server]> b))).
Proof.
  intros [?|(_ & _ & Hfn & Hr)]%Update_outcome; [by left|]. right.
  simpl in Hfn. destruct db as [b|]; [|done].
  destruct (putErr _ _); [done|]. exists b. split; [done|].
  destruct r as [err db']. simpl in *. by simplify_eq.
Qed.

Lemma SaveServer_panic tx server db :
  SaveServer Marshal putErr tx server db = None ->
  beginErr tx = None ∧ db = None.
Proof.
  unfold SaveServer, Update. destruct (beginErr tx); [done|].
  destruct db as [b|]; [|done].
  destruct (putErr _ _); [done|]. by destruct (commitErr tx).
Qed.

(** A deletion that returns either failed and changed nothing, or removed
    the key. *)
Lemma DeleteServer_inv tx serverId db r :
  DeleteServer tx serverId db = Some r ->
  (∃ e, r = (Some e, db)) ∨
  (∃ b, db = Some b ∧ beginErr tx = None ∧ commitErr tx = None ∧
        r = (None, Some (delete serverId b))).
Proof.
  intros [?|(Hb & Hc & Hfn & Hr)]%Update_outcome; [by left|]. right.
  simpl in Hfn. destruct db as [b|]; [|done]. exists b.
  split_and!; [done..|]. destruct r as [err db']. simpl in *. by simplify_eq.
Qed.

Lemma DeleteServer_panic tx serverId db :
  DeleteServer tx serverId db = None -> beginErr tx = None ∧ db = None.
Proof.
  unfold DeleteServer, Update. destruct (beginErr tx); [done|].
  destruct db as [b|]; [|done]. by destruct (commitErr tx).
Qed.

Lemma ReadServer_saved server b :
  ReadServer Unmarshal txOk (storage.ServerId server)
    (Some (<[storage.ServerId server := Marshal server]> b))
  = Some (if decide (String.length (Marshal server) = 0) then None
          else Some (Unmarshal (Marshal server))).
Proof.
  unfold ReadServer. simpl. rewrite lookup_insert_eq. by destruct (decide _).
Qed.

Lemma ReadServer_deleted tx serverId b :
  ReadServer Unmarshal tx serverId (Some (delete serverId b)) = Some None.
Proof.
  unfold ReadServer. rewrite lookup_delete_eq. by destruct (beginErr tx).
Qed.

(** X11. [SaveServer] panics exactly when its transaction begins on a
    database without the bucket.  When it returns an error the database is
    as before.  When it returns none, a read of the same guild in a
    transaction that begins finds what the stored JSON decodes to, the
    server itself when decoding undoes encoding, and reads of every other
    guild find what they found before. *)
Theorem SaveServer_then_ReadServer (tx : Tx) (server : storage.Server)
    (db : DB) :
  (beginErr tx = None ∧ db = None ->
   SaveServer Marshal putErr tx server db = None) ∧
  match SaveServer Marshal putErr tx server db with
  | None => beginErr tx = None ∧ db = None
  | Some (Some e, db') => db' = db
  | Some (None, db') =>
      ReadServer Unmarshal txOk (storage.ServerId server) db'
      = Some (if decide (String.length (Marshal server) = 0) then None
              else Some (Unmarshal (Marshal server))) ∧
      (Unmarshal (Marshal server) = server ->
       String.length (Marshal server) ≠ 0 ->
       ReadServer Unmarshal txOk (storage.ServerId server) db'
       = Some (Some server)) ∧
      (∀ tx' g, g ≠ storage.ServerId server ->
         ReadServer Unmarshal tx' g db' = ReadServer Unmarshal tx' g db)
  end.
Proof.
  split.
  { intros [Hb ->]. unfold SaveServer, Update. by rewrite Hb. }
  destruct (SaveServer Marshal putErr tx server db) as [[err db']|] eqn:Hs.
  - apply SaveServer_inv in Hs as [(e & [= -> ->])|(b & -> & [= -> ->])];
      [done|].
    split_and!.
    + apply ReadServer_saved.
    + intros Hrt Hne. rewrite ReadServer_saved, decide_False, Hrt by done.
      done.
    + intros tx' g Hg. unfold ReadServer. by rewrite lookup_insert_ne.
  - by apply SaveServer_panic in Hs.
Qed.

(** X12. [DeleteServer] panics exactly when its transaction begins on a
    database without the bucket.  When it returns an error the database is
    as before.  When it returns none, which it also does for a guild that
    was not stored, a read of that guild finds no server and reads of every
    other guild find what they found before. *)
Theorem DeleteServer_then_ReadServer (tx : Tx) (serverId : string) (db : DB) :
  (beginErr tx = None ∧ db = None -> DeleteServer tx serverId db = None) ∧
  match DeleteServer tx serverId db with
  | None => beginErr tx = None ∧ db = None
  | Some (Some e, db') => db' = db
  | Some (None, db') =>
      (∀ tx', ReadServer Unmarshal tx' serverId db' = Some None) ∧
      (∀ tx' g, g ≠ serverId ->
         ReadServer Unmarshal tx' g db' = ReadServer Unmarshal tx' g db) ∧
      (ReadServer Unmarshal txOk serverId db = Some None ->
       ∀ tx' g, ReadServer Unmarshal tx' g db' = ReadServer Unmarshal tx' g db)
  end.
Proof.
  split.
  { intros [Hb ->]. unfold DeleteServer, Update. by rewrite Hb. }
  destruct (DeleteServer tx serverId db) as [[err db']|] eqn:Hs.
  - apply DeleteServer_inv in Hs
      as [(e & [= -> ->])|(b & -> & _ & _ & [= -> ->])]; [done|].
    split_and!.
    + intros tx'. apply ReadServer_deleted.
    + intros tx' g Hg. unfold ReadServer. by rewrite lookup_delete_ne.
    + intros Hnone tx' g. unfold ReadServer in *. simpl in Hnone.
      destruct (decide (g = serverId)) as [->|Hg];
        [|by rewrite lookup_delete_ne].
      rewrite lookup_delete_eq. destruct (beginErr tx'); [done|].
      destruct (b !! serverId) as [data|]; [|done].
      by destruct (decide (String.length data = 0)).
  - by apply DeleteServer_panic in Hs.
Qed.

Lemma storeOp_bucket o b :
  ∃ b', storeOp Marshal Unmarshal putErr o (Some b) = Some (Some b').
Proof.
  destruct o as [tx server|tx serverId|tx serverId]; simpl.
  - unfold SaveServer, Update. destruct (beginErr tx); [by eexists|].
    destruct (putErr _ _); [by eexists|].
    destruct (commitErr tx); by eexists.
  - unfold ReadServer. destruct (beginErr tx); [by eexists|].
    destruct (b !! serverId) as [data|]; [|by eexists].
    destruct (decide _); by eexists.
  - unfold DeleteServer, Update. destruct (beginErr tx); [by eexists|].
    destruct (commitErr tx); by eexists.
Qed.

(** X13. [MustInitDB] either panics, which it does only when its
    transaction cannot begin or commit, or returns with the bucket in
    place and every stored server untouched;
    and on a database with the bucket no sequence of saves, reads and
    deletes panics, whatever their transactions meet. *)
Theorem store_does_not_panic_once_initialised (tx : Tx) (db : DB)
    (os : list StoreOp) :
  match MustInitDB tx db with
  | None => is_Some (beginErr tx) ∨ is_Some (commitErr tx)
  | Some db' =>
      (∃ b, db' = Some b ∧ (∀ b0, db = Some b0 -> b = b0) ∧
            (db = None -> b = ∅)) ∧
      (∀ tx' g, is_Some (ReadServer Unmarshal tx' g db')) ∧
      (∃ b', storeOps Marshal Unmarshal putErr os db' = Some (Some b'))
  end.
Proof.
  unfold MustInitDB, Update.
  destruct (beginErr tx) as [e|]; [left; by eexists|].
  destruct (commitErr tx) as [e|]; [right; by eexists|].
  split_and!.
  - exists (default ∅ db). split; [done|]. split; [by intros b0 ->|by intros ->].
  - intros tx' g. unfold ReadServer. destruct (beginErr tx'); [by eexists|].
    destruct (default ∅ db !! g) as [data|]; [|by eexists].
    destruct (decide _); by eexists.
  - generalize (default (∅ : gmap string string) db). clear db.
    induction os as [|o os IH]; intros b; [by eexists|].
    cbn [storeOps]. destruct (storeOp_bucket o b) as [b' ->]. apply IH.
Qed.

End StoreProperties.

Example store_round_trip_sample :
  ∃ db,
    (MustInitDB txOk None ≫= fun db =>
       SaveServer sampleMarshal noPutErr txOk guild1 db) = Some (None, db) ∧
    ReadServer sampleUnmarshalServer txOk "guild-1" db = Some (Some guild1) ∧
    ReadServer sampleUnmarshalServer txOk "guild-2" db = Some None ∧
    SaveServer sampleMarshal noPutErr txOk guild1 None = None.
Proof. eexists. vm_compute. done. Qed.

(** ** Guilds do not disturb each other *)

Lemma activeLoops_Watch_other w server g :
  g ≠ storage.ServerId server ->
  activeLoops (Watch w server) g = activeLoops w g.
Proof.
  intros Hg. unfold Watch, activeLoops.
  destruct (watched w !! storage.ServerId server); simpl; [done|].
  rewrite filter_app, filter_cons, decide_False, filter_nil, app_nil_r; [done|].
  simpl. by intros [? _].
Qed.

Lemma activeLoops_Unwatch_other w g g' :
  supervised w -> g' ≠ g ->
  activeLoops (Unwatch w g) g' = activeLoops w g'.
Proof.
  intros (Hw & Hl & Hc & Hnd) Hg. unfold Unwatch, activeLoops.
  destruct (watched w !! g) as [cancel|] eqn:Hcancel; simpl; [|done].
  destruct (Hw _ _ Hcancel) as (_ & s0 & Hin0 & Hs0).
  assert (∀ l, l ∈ loops w ->
            (storage.ServerId l.2 = g' ∧ l.1 ∉ cancel :: cancelled w) ↔
            (storage.ServerId l.2 = g' ∧ l.1 ∉ cancelled w)) as Hiff.
  { intros [h s] Hin. simpl. split.
    - intros [? [_ ?]%not_elem_of_cons]. done.
    - intros [Hs Hn]. split; [done|]. apply not_elem_of_cons. split; [|done].
      intros ->. apply Hg. rewrite <- Hs, <- Hs0. f_equal.
      by eapply loops_same_context. }
  revert Hiff. generalize (loops w). intros ls Hiff.
  induction ls as [|l ls IH]; [done|].
  rewrite !filter_cons.
  assert (∀ l', l' ∈ ls ->
            (storage.ServerId l'.2 = g' ∧ l'.1 ∉ cancel :: cancelled w) ↔
            (storage.ServerId l'.2 = g' ∧ l'.1 ∉ cancelled w)) as Hrest.
  { intros l' ?. apply Hiff. by right. }
  specialize (Hiff l ltac:(left)).
  destruct (decide (storage.ServerId l.2 = g' ∧ l.1 ∉ cancel :: cancelled w)),
    (decide (storage.ServerId l.2 = g' ∧ l.1 ∉ cancelled w));
    [f_equal; by apply IH|tauto|tauto|by apply IH].
Qed.

Lemma activeLoops_rewatch w server :
  supervised w ->
  activeLoops (Watch (Unwatch w (storage.ServerId server)) server)
    (storage.ServerId server)
  = [(contexts w, server)].
Proof.
  intros Hsup. set (g := storage.ServerId server).
  pose proof (supervised_Unwatch w g Hsup) as Hsup1.
  set (w1 := Unwatch w g) in *.
  assert (watched w1 !! g = None) as Hnone.
  { subst w1. unfold Unwatch. destruct (watched w !! g) eqn:Hg; [|done].
    simpl. apply lookup_delete_eq. }
  assert (contexts w1 = contexts w) as Hctx.
  { subst w1. unfold Unwatch. by destruct (watched w !! g). }
  pose proof (supervised_Watch w1 server Hsup1) as Hsup2.
  pose proof (activeLoops_supervised (Watch w1 server) g Hsup2) as Hact.
  assert (watched (Watch w1 server) !! g = Some (contexts w) ∧
          (contexts w, server) ∈ loops (Watch w1 server)) as [Hw2 Hin2].
  { unfold Watch. fold g. rewrite Hnone. simpl.
    rewrite lookup_insert_eq, Hctx. split; [done|].
    apply elem_of_app. right. left. }
  rewrite Hw2 in Hact. destruct Hact as (s & Heq & _). rewrite Heq.
  f_equal. f_equal.
  assert ((contexts w, s) ∈ activeLoops (Watch w1 server) g) as Hin
    by (rewrite Heq; left).
  apply list_elem_of_filter in Hin as [_ Hin].
  destruct Hsup2 as (_ & _ & _ & Hnd).
  by eapply loops_same_context.
Qed.

(** X14. After any calls of [Watch] and [Unwatch], a further call for one
    guild leaves the running loops of every other guild as they are: the
    same loops, with the same contexts and configurations, none cancelled
    and none started. *)
Theorem other_guilds_keep_their_loops (os : list Op) (o : Op) (g : string) :
  g ≠ match o with
      | OpWatch server => storage.ServerId server
      | OpUnwatch serverId => serverId
      end ->
  activeLoops (perform (performAll New os) o) g
  = activeLoops (performAll New os) g.
Proof.
  intros Hg. destruct o as [server|serverId]; simpl.
  - by apply activeLoops_Watch_other.
  - apply activeLoops_Unwatch_other; [|done].
    apply supervised_performAll, supervised_New.
Qed.

Lemma other_guilds_keep_their_loops_witness :
  activeLoops (perform (performAll New [OpWatch guild1; OpWatch guild2])
                 (OpUnwatch "guild-2")) "guild-1"
  = activeLoops (performAll New [OpWatch guild1; OpWatch guild2]) "guild-1".
Proof.
  apply (other_guilds_keep_their_loops [OpWatch guild1; OpWatch guild2]
           (OpUnwatch "guild-2") "guild-1").
  simpl. discriminate.
Defined.

(** ** The configuration commands and the guild events *)

Section HandlerProperties.

Variable Marshal : storage.Server -> string.
Variable Unmarshal : string -> storage.Server.
Variable putErr : string -> string -> option BoltError.

(** X15. The command [set-config] on a bot whose supervisor has seen any
    calls before.  It panics only when the transaction begins on a
    database without the bucket.  When saving fails it replies with an
    error and changes nothing: the guild keeps the loop and the
    configuration it had.  When saving succeeds it replies that the bot is
    configured, and then the guild has exactly one running loop, started
    anew with the configuration given, the loops of the other guilds are as
    they were, and, decoding undoing encoding, [get-config] answers with
    the channel, the guild identifier and the cutoff just set. *)
Theorem setConfig_restarts_the_loop (os : list Op) (tx : Tx)
    (server : storage.Server) (a : App) :
  w a = performAll New os ->
  match setConfig Marshal putErr tx server a with
  | None => beginErr tx = None ∧ db a = None
  | Some (ReplyError, a') => a' = a
  | Some (ReplyConfigured, a') =>
      activeLoops (w a') (storage.ServerId server)
      = [(contexts (w a), server)] ∧
      (∀ g, g ≠ storage.ServerId server ->
            activeLoops (w a') g = activeLoops (w a) g) ∧
      messages a' = messages a ∧
      (Unmarshal (Marshal server) = server ->
       String.length (Marshal server) ≠ 0 ->
       getConfig Unmarshal txOk (storage.ServerId server) a'
       = Some (ReplyConfig (storage.ChannelId server)
                 (storage.WlGuildId server) (storage.WipeCutoff server)))
  | Some (_, _) => False
  end.
Proof.
  intros Hreach.
  assert (supervised (w a)) as Hsup.
  { rewrite Hreach. apply supervised_performAll, supervised_New. }
  unfold setConfig.
  destruct (SaveServer Marshal putErr tx server (db a)) as [[err db']|] eqn:Hs.
  - apply SaveServer_inv in Hs as [(e & [= -> ->])|(b & Hdb & [= -> ->])].
    + by destruct a.
    + cbn [w messages db]. split_and!.
      * by apply activeLoops_rewatch.
      * intros g Hg. rewrite activeLoops_Watch_other by done.
        by apply activeLoops_Unwatch_other.
      * done.
      * intros Hrt Hne. unfold getConfig. cbn [db].
        by rewrite ReadServer_saved, decide_False, Hrt.
  - by apply SaveServer_panic in Hs.
Qed.

(** X16. The [GuildDelete] handler on a bot whose supervisor has seen any
    calls before.  It panics only when the transaction begins on a
    database without the bucket.  Otherwise the guild is left without a
    running loop and the loops of the other guilds are as they were,
    whether or not the deletion succeeded; when it succeeded [get-config]
    finds the guild not configured, and when it failed the stored
    configurations are as before. *)
Theorem onGuildDelete_stops_the_loop (os : list Op) (tx : Tx)
    (guildId : string) (a : App) :
  w a = performAll New os ->
  match onGuildDelete tx guildId a with
  | None => beginErr tx = None ∧ db a = None
  | Some a' =>
      activeLoops (w a') guildId = [] ∧
      (∀ g, g ≠ guildId -> activeLoops (w a') g = activeLoops (w a) g) ∧
      messages a' = messages a ∧
      (beginErr tx = None -> commitErr tx = None ->
       ∀ tx', getConfig Unmarshal tx' guildId a' = Some ReplyNotConfigured) ∧
      (is_Some (beginErr tx) ∨ is_Some (commitErr tx) -> db a' = db a)
  end.
Proof.
  intros Hreach.
  assert (supervised (w a)) as Hsup.
  { rewrite Hreach. apply supervised_performAll, supervised_New. }
  unfold onGuildDelete.
  destruct (DeleteServer tx guildId (db a)) as [[err db']|] eqn:Hd;
    [|by apply DeleteServer_panic in Hd].
  cbn [w messages db]. split_and!.
  - pose proof (activeLoops_supervised (Unwatch (w a) guildId) guildId
                  (supervised_Unwatch _ _ Hsup)) as Hact.
    unfold Unwatch in *.
    destruct (watched (w a) !! guildId) as [h|] eqn:Hh; simpl in *.
    + by rewrite lookup_delete_eq in Hact.
    + by rewrite Hh in Hact.
  - intros g Hg. by apply activeLoops_Unwatch_other.
  - done.
  - intros Hb Hc tx'. unfold DeleteServer, Update in Hd.
    rewrite Hb, Hc in Hd. destruct (db a) as [b|]; [|done].
    injection Hd as <- <-. unfold getConfig. cbn [db].
    by rewrite ReadServer_deleted.
  - intros Herr.
    apply DeleteServer_inv in Hd as [(e & [= -> ->])|(b & _ & Hb & Hc & _)];
      [done|].
    rewrite Hb, Hc in Herr. destruct Herr as [[? [=]]|[? [=]]].
Qed.

End HandlerProperties.

Lemma setConfig_restarts_the_loop_witness :
  match setConfig sampleMarshal noPutErr txOk guild1 startApp with
  | None => beginErr txOk = None ∧ db startApp = None
  | Some (ReplyError, a') => a' = startApp
  | Some (ReplyConfigured, a') =>
      activeLoops (w a') (storage.ServerId guild1)
      = [(contexts (w startApp), guild1)] ∧
      (∀ g, g ≠ storage.ServerId guild1 ->
            activeLoops (w a') g = activeLoops (w startApp) g) ∧
      messages a' = messages startApp ∧
      (sampleUnmarshalServer (sampleMarshal guild1) = guild1 ->
       String.length (sampleMarshal guild1) ≠ 0 ->
       getConfig sampleUnmarshalServer txOk (storage.ServerId guild1) a'
       = Some (ReplyConfig (storage.ChannelId guild1)
                 (storage.WlGuildId guild1) (storage.WipeCutoff guild1)))
  | Some (_, _) => False
  end.
Proof.
  apply (setConfig_restarts_the_loop sampleMarshal sampleUnmarshalServer
           noPutErr [] txOk guild1 startApp).
  reflexivity.
Defined.

Lemma onGuildDelete_stops_the_loop_witness :
  match onGuildDelete txOk "guild-1" startApp with
  | None => beginErr txOk = None ∧ db startApp = None
  | Some a' =>
      activeLoops (w a') "guild-1" = [] ∧
      (∀ g, g ≠ "guild-1" -> activeLoops (w a') g = activeLoops (w startApp) g) ∧
      messages a' = messages startApp ∧
      (beginErr txOk = None -> commitErr txOk = None ->
       ∀ tx', getConfig sampleUnmarshalServer tx' "guild-1" a'
              = Some ReplyNotConfigured) ∧
      (is_Some (beginErr txOk) ∨ is_Some (commitErr txOk) ->
       db a' = db startApp)
  end.
Proof.
  apply (onGuildDelete_stops_the_loop sampleUnmarshalServer [] txOk "guild-1"
           startApp).
  reflexivity.
Defined.

(** ** The keys of the message cache *)

Lemma append_length_inj (s1 s2 t1 t2 : string) :
  String.length s1 = String.length s2 ->
  s1 +:+ t1 = s2 +:+ t2 -> s1 = s2 ∧ t1 = t2.
Proof.
  revert s2. induction s1 as [|c s1 IH]; intros [|c' s2]; simpl; try done.
  intros [= Hlen] [= -> Happ]. destruct (IH _ Hlen Happ) as [-> ->]. done.
Qed.

(** X17. [makeKey] tells apart any two updates whose guild identifiers are
    equally long and whose channel identifiers are equally long: equal keys
    then mean the same guild, the same channel and the same report.  In
    particular the updates of one watch loop, which all carry the server of
    the loop, have equal keys exactly when they are about the same
    report. *)
Theorem makeKey_injective (se1 se2 : StatsEvent) :
  String.length (storage.ServerId (Server se1))
  = String.length (storage.ServerId (Server se2)) ->
  String.length (storage.ChannelId (Server se1))
  = String.length (storage.ChannelId (Server se2)) ->
  (makeKey se1 = makeKey se2 ↔
   storage.ServerId (Server se1) = storage.ServerId (Server se2) ∧
   storage.ChannelId (Server se1) = storage.ChannelId (Server se2) ∧
   ReportId se1 = ReportId se2) ∧
  (Server se1 = Server se2 ->
   (makeKey se1 = makeKey se2 ↔ ReportId se1 = ReportId se2)).
Proof.
  intros Hs Hc. unfold makeKey.
  assert (storage.ServerId (Server se1) +:+ storage.ChannelId (Server se1)
            +:+ ReportId se1
          = storage.ServerId (Server se2) +:+ storage.ChannelId (Server se2)
            +:+ ReportId se2 ->
          storage.ServerId (Server se1) = storage.ServerId (Server se2) ∧
          storage.ChannelId (Server se1) = storage.ChannelId (Server se2) ∧
          ReportId se1 = ReportId se2) as Hinj.
  { intros [Hs' Hrest]%append_length_inj; [|done].
    apply append_length_inj in Hrest as [? ?]; done. }
  split.
  - split; [done|]. by intros (-> & -> & ->).
  - intros Hsame. split; [by intros (_ & _ & ?)%Hinj|].
    intros ->. by rewrite Hsame.
Qed.

Lemma makeKey_injective_witness :
  (makeKey (statsEvent guild1 true (reportABC 2000) detailsABC)
   = makeKey (statsEvent guild1 false (reportABC 62000) detailsABC) ↔
   storage.ServerId guild1 = storage.ServerId guild1 ∧
   storage.ChannelId guild1 = storage.ChannelId guild1 ∧
   Code (reportABC 2000) = Code (reportABC 62000)) ∧
  (guild1 = guild1 ->
   (makeKey (statsEvent guild1 true (reportABC 2000) detailsABC)
    = makeKey (statsEvent guild1 false (reportABC 62000) detailsABC) ↔
    Code (reportABC 2000) = Code (reportABC 62000))).
Proof.
  apply (makeKey_injective
           (statsEvent guild1 true (reportABC 2000) detailsABC)
           (statsEvent guild1 false (reportABC 62000) detailsABC));
    reflexivity.
Defined.

(** Without the condition on the lengths two guilds can share a key. *)
Example makeKey_collision :
  let s1 := {| storage.ServerId := "1"; storage.ChannelId := "23";
               storage.WlGuildId := 1; storage.WipeCutoff := 1 |} in
  let s2 := {| storage.ServerId := "12"; storage.ChannelId := "3";
               storage.WlGuildId := 1; storage.WipeCutoff := 1 |} in
  makeKey (statsEvent s1 true (reportABC 2000) detailsABC)
  = makeKey (statsEvent s2 true (reportABC 2000) detailsABC).
Proof. reflexivity. Qed.

(** ** From the message history back to the cache *)

Lemma append_nil_l (s : string) : "" +:+ s = s.
Proof. reflexivity. Qed.

Lemma append_cons (c : Ascii.ascii) (s t : string) :
  String c s +:+ t = String c (s +:+ t).
Proof. reflexivity. Qed.

Lemma LastIndex_after (p code : string) :
  LastIndex code "/" = (-1)%Z ->
  LastIndex (p +:+ "/" +:+ code) "/" = Z.of_nat (String.length p).
Proof.
  intros Hcode. induction p as [|c p IH].
  - rewrite append_nil_l, append_cons, append_nil_l.
    cbn [LastIndex]. rewrite Hcode. reflexivity.
  - rewrite append_cons. cbn [LastIndex String.length]. rewrite IH.
    destruct (Z.leb_spec 0 (Z.of_nat (String.length p))); lia.
Qed.

Lemma sliceFrom_app (p s : string) :
  sliceFrom (p +:+ s) (String.length p) = s.
Proof. induction p as [|c p IH]; [by destruct s|done]. Qed.

Lemma reportCodeOf_URL (code : string) :
  LastIndex code "/" = (-1)%Z ->
  reportCodeOf ("https://www.warcraftlogs.com/reports/" +:+ code) = code.
Proof.
  intros Hcode. unfold reportCodeOf.
  change ("https://www.warcraftlogs.com/reports/" +:+ code)
    with ("https://www.warcraftlogs.com/reports" +:+ "/" +:+ code).
  rewrite (LastIndex_after _ _ Hcode).
  change ("https://www.warcraftlogs.com/reports" +:+ "/" +:+ code)
    with ("https://www.warcraftlogs.com/reports/" +:+ code).
  apply (sliceFrom_app "https://www.warcraftlogs.com/reports/" code).
Qed.

Lemma restoreMessages_skip botId clock srv msg msgs i cache :
  ¬ Restored botId (clock i) msg ->
  restoreMessages botId clock srv (msg :: msgs) i cache
  = restoreMessages botId clock srv msgs (S i) cache.
Proof.
  intros Hn. cbn [restoreMessages].
  destruct (decide (AuthorID msg ≠ botId)) as [|Ha]; [done|].
  fold (lastDate msg).
  destruct (Z.ltb_spec (12 * Hour) (Since (clock i) (lastDate msg))); [done|].
  exfalso. apply Hn. split; [|done].
  by destruct (decide (AuthorID msg = botId)).
Qed.

Lemma restoreMessages_take botId clock srv msg msgs i cache :
  Restored botId (clock i) msg ->
  restoreMessages botId clock srv (msg :: msgs) i cache
  = match EmbedURLs msg !! 0 with
    | None => None
    | Some url =>
        restoreMessages botId clock srv msgs (S i)
          (<[storage.ServerId srv +:+ storage.ChannelId srv
             +:+ reportCodeOf url := MsgID msg]> cache)
    end.
Proof.
  intros [Ha Hd]. cbn [restoreMessages].
  rewrite decide_False by (by intros ?). fold (lastDate msg).
  destruct (Z.ltb_spec (12 * Hour) (Since (clock i) (lastDate msg))); [lia|].
  done.
Qed.

Lemma Restored_dec botId now msg :
  Restored botId now msg ∨ ¬ Restored botId now msg.
Proof.
  unfold Restored. destruct (decide (AuthorID msg = botId));
    destruct (decide (Since now (lastDate msg) ≤ 12 * Hour)%Z); tauto.
Qed.

(** The loop over the history ends without a panic when every message it
    takes has an embed, and leaves the key of a report alone when none of
    the messages it takes is about that report. *)
Lemma restoreMessages_runs botId clock srv msgs i cache :
  (∀ j m, msgs !! j = Some m -> Restored botId (clock (i + j)) m ->
          is_Some (EmbedURLs m !! 0)) ->
  ∃ cache', restoreMessages botId clock srv msgs i cache = Some cache' ∧
    ∀ code,
      (∀ j m url, msgs !! j = Some m -> Restored botId (clock (i + j)) m ->
                  EmbedURLs m !! 0 = Some url -> reportCodeOf url ≠ code) ->
      cache' !! (storage.ServerId srv +:+ storage.ChannelId srv +:+ code)
      = cache !! (storage.ServerId srv +:+ storage.ChannelId srv +:+ code).
Proof.
  revert i cache. induction msgs as [|msg msgs IH]; intros i cache Hall.
  - by exists cache.
  - assert (∀ j m, msgs !! j = Some m -> Restored botId (clock (S i + j)) m ->
                   is_Some (EmbedURLs m !! 0)) as Hall'.
    { intros j m Hj Hr. apply (Hall (S j) m Hj).
      by replace (i + S j) with (S i + j) by lia. }
    destruct (Restored_dec botId (clock i) msg) as [Hr|Hn].
    + rewrite restoreMessages_take by done.
      destruct (Hall 0 msg) as [url Hurl]; [done|by rewrite Nat.add_0_r|].
      rewrite Hurl.
      destruct (IH (S i) (<[storage.ServerId srv +:+ storage.ChannelId srv
                            +:+ reportCodeOf url := MsgID msg]> cache) Hall')
        as (cache' & -> & Hkeep).
      exists cache'. split; [done|]. intros code Hcode.
      rewrite Hkeep.
      * apply lookup_insert_ne. intros Heq.
        apply (inj (String.app _)) in Heq. apply (inj (String.app _)) in Heq.
        eapply (Hcode 0 msg url); [done|by rewrite Nat.add_0_r|done|done].
      * intros j m url' Hj Hr' Hu. apply (Hcode (S j) m url' Hj); [|done].
        by replace (i + S j) with (S i + j) by lia.
    + rewrite restoreMessages_skip by done.
      destruct (IH (S i) cache Hall') as (cache' & -> & Hkeep).
      exists cache'. split; [done|]. intros code Hcode. apply Hkeep.
      intros j m url' Hj Hr' Hu. apply (Hcode (S j) m url' Hj); [|done].
      by replace (i + S j) with (S i + j) by lia.
Qed.

Lemma restoreMessages_app botId clock srv pre post i cache :
  restoreMessages botId clock srv (pre ++ post) i cache
  = restoreMessages botId clock srv pre i cache
    ≫= restoreMessages botId clock srv post (i + length pre).
Proof.
  revert i cache. induction pre as [|msg pre IH]; intros i cache.
  - simpl. by rewrite Nat.add_0_r.
  - rewrite <- app_comm_cons. cbn [restoreMessages length].
    replace (i + S (length pre)) with (S i + length pre) by lia.
    destruct (decide (AuthorID msg ≠ botId)); [apply IH|].
    destruct (_ <? _)%Z; [apply IH|].
    destruct (EmbedURLs msg !! 0); [apply IH|done].
Qed.

Section Restart.

Variable Format : Z -> string -> string.
Variable discord : nat -> Result string.

(** X18. After a restart the bot finds its message again.  Let the history
    of the channel hold a message of the bot, last touched at most twelve
    hours ago, whose first embed carries the URL of the embed that the bot
    builds for an update of the report, the code of the report having no
    slash; let the messages before it that the bot takes have an embed
    each, and those after it be about other reports.  Then
    the loop over the history ends without a panic and files the message
    under the very key that [makeKey] gives an update of that report for
    that server, so that the next such update edits this message in the
    channel of the server and sends no new one. *)
Theorem restored_message_is_edited (botId : string) (clock : nat -> Z)
    (srv : storage.Server) (report : Report)
    (pre post : list ChannelMessage) (msg : ChannelMessage)
    (cache : gmap string string) (before : list DiscordCall)
    (live0 live : bool) (d0 d : ReportDetails) :
  LastIndex (Code report) "/" = (-1)%Z ->
  Restored botId (clock (length pre)) msg ->
  EmbedURLs msg !! 0
  = Some (EmbedURL (constructEmbed Format (statsEvent srv live0 report d0))) ->
  (∀ j m, pre !! j = Some m -> Restored botId (clock j) m ->
          is_Some (EmbedURLs m !! 0)) ->
  (∀ j m, post !! j = Some m ->
          Restored botId (clock (S (length pre + j))) m ->
          ∃ url, EmbedURLs m !! 0 = Some url ∧
                 reportCodeOf url ≠ Code report) ->
  let se := statsEvent srv live report d in
  ∃ cache',
    restoreMessages botId clock srv (pre ++ msg :: post) 0 cache
    = Some cache' ∧
    cache' !! makeKey se = Some (MsgID msg) ∧
    onUpdate Format discord se {| messageCache := cache'; calls := before |}
    = {| messageCache := cache';
         calls := before ++ [MessageEdit (MsgID msg) (storage.ChannelId srv)
                               [constructEmbed Format se]] |}.
Proof.
  intros Hcode Hmsg Hurl Hpre Hpost se.
  cbn [constructEmbed EmbedURL statsEvent URL] in Hurl.
  rewrite restoreMessages_app, Nat.add_0_l.
  destruct (restoreMessages_runs botId clock srv pre 0 cache)
    as (cache1 & -> & _); [done|].
  cbn [mbind option_bind]. rewrite restoreMessages_take by done.
  rewrite Hurl, (reportCodeOf_URL _ Hcode).
  destruct (restoreMessages_runs botId clock srv post (S (length pre))
              (<[storage.ServerId srv +:+ storage.ChannelId srv
                 +:+ Code report := MsgID msg]> cache1))
    as (cache' & -> & Hkeep).
  { intros j m Hj Hr. destruct (Hpost j m Hj Hr) as (url & -> & _).
    by eexists. }
  exists cache'. split; [done|].
  assert (cache' !! makeKey se = Some (MsgID msg)) as Hkey.
  { unfold makeKey, se. cbn [statsEvent Server ReportId].
    rewrite (Hkeep (Code report)); [apply lookup_insert_eq|].
    intros j m url Hj Hr Hu. destruct (Hpost j m Hj Hr) as (url' & Hu' & Hne).
    congruence. }
  split; [done|]. unfold onUpdate. cbn [messageCache calls]. by rewrite Hkey.
Qed.

End Restart.

Lemma restored_message_is_edited_witness :
  let se := statsEvent guild1 false (reportABC 62000) detailsABC in
  ∃ cache',
    restoreMessages "bot" (fun _ => (2000 * Second)%Z) guild1 sampleHistory 0 ∅
    = Some cache' ∧
    cache' !! makeKey se = Some "m-8" ∧
    onUpdate sampleFormat sampleDiscord se
      {| messageCache := cache'; calls := [] |}
    = {| messageCache := cache';
         calls := [] ++ [MessageEdit "m-8" (storage.ChannelId guild1)
                           [constructEmbed sampleFormat se]] |}.
Proof.
  apply (restored_message_is_edited sampleFormat sampleDiscord "bot"
           (fun _ => (2000 * Second)%Z) guild1 (reportABC 62000)
           [ {| MsgID := "m-7"; AuthorID := "someone"; MsgTimestamp := 0;
                EditedTimestamp := None; EmbedURLs := [] |} ]
           []
           {| MsgID := "m-8"; AuthorID := "bot"; MsgTimestamp := 0;
              EditedTimestamp := Some (1000 * Second)%Z;
              EmbedURLs := ["https://www.warcraftlogs.com/reports/ABC"] |}
           ∅ [] true false detailsABC detailsABC).
  - reflexivity.
  - split; [reflexivity|]. vm_compute. discriminate.
  - reflexivity.
  - intros [|j] m; simpl; [|done]. intros [= <-] [Ha _]. discriminate Ha.
  - intros j m Hj. done.
Defined.

(** ** One message per report *)

Section Messages.

Variable Format : Z -> string -> string.
Variable discord : nat -> Result string.

Lemma onUpdate_cached se b item :
  messageCache b !! makeKey se = Some item ->
  onUpdate Format discord se b
  = {| messageCache := messageCache b;
       calls := calls b ++ [MessageEdit item (storage.ChannelId (Server se))
                              [constructEmbed Format se]] |}.
Proof. intros H. unfold onUpdate. by rewrite H. Qed.

Lemma onUpdate_effects se b :
  ∃ dc, calls (onUpdate Format discord se b) = calls b ++ [dc] ∧
    (∀ k, k ≠ makeKey se ->
          messageCache (onUpdate Format discord se b) !! k
          = messageCache b !! k) ∧
    (∀ channel embeds, dc = MessageSend channel embeds ->
       messageCache b !! makeKey se = None ∧
       channel = storage.ChannelId (Server se) ∧
       embeds = [constructEmbed Format se]).
Proof.
  unfold onUpdate. destruct (messageCache b !! makeKey se) as [item|] eqn:Hc.
  - eexists. split; [done|]. split; [done|]. by intros ? ? [=].
  - destruct (discord (length (calls b))) as [msgOut|e]; cbn [calls messageCache];
      (eexists; split; [done|]; split;
        [intros k Hk; by rewrite ?lookup_insert_ne|by intros ? ? [= <- <-]]).
Qed.

(** X19. Once the cache holds a message for a key then, as long as that
    key does not expire, every update with that key edits that message,
    whatever Discord answered to the edits before, no update with that key
    sends a new message, and the cache keeps the message; each update makes
    exactly one call to Discord. *)
Theorem cached_message_is_edited_not_sent (hs : list BotHappening) (b : Bot)
    (k item : string) :
  messageCache b !! k = Some item ->
  Forall (fun h => h ≠ ExpireMessage k) hs ->
  let b' := foldl (botHappen Format discord) b hs in
  messageCache b' !! k = Some item ∧
  ∃ new,
    calls b' = calls b ++ new ∧
    length new = length (filter (fun h => isUpdate h = true) hs) ∧
    (∀ se, StatsUpdate se ∈ hs -> makeKey se = k ->
       MessageEdit item (storage.ChannelId (Server se))
         [constructEmbed Format se] ∈ new) ∧
    (∀ channel embeds, MessageSend channel embeds ∈ new ->
       ∃ se, StatsUpdate se ∈ hs ∧ makeKey se ≠ k ∧
             channel = storage.ChannelId (Server se) ∧
             embeds = [constructEmbed Format se]).
Proof.
  intros Hk Hall. cbv zeta. revert b Hk.
  induction Hall as [|h hs Hh Hall IH]; intros b Hk.
  - split; [done|]. exists []. rewrite app_nil_r.
    split_and!; [done|done| |]; intros; by apply elem_of_nil in H.
  - cbn [foldl].
    assert (messageCache (botHappen Format discord b h) !! k = Some item ∧
            ∃ new1,
              calls (botHappen Format discord b h) = calls b ++ new1 ∧
              length new1 = length (filter (fun h => isUpdate h = true)
                                      [h]) ∧
              (∀ se, h = StatsUpdate se -> makeKey se = k ->
                 MessageEdit item (storage.ChannelId (Server se))
                   [constructEmbed Format se] ∈ new1) ∧
              (∀ channel embeds, MessageSend channel embeds ∈ new1 ->
                 ∃ se, h = StatsUpdate se ∧ makeKey se ≠ k ∧
                       channel = storage.ChannelId (Server se) ∧
                       embeds = [constructEmbed Format se]))
      as (Hk1 & new1 & Hc1 & Hl1 & He1 & Hs1).
    { destruct h as [se|key]; cbn [botHappen].
      - rewrite filter_cons, decide_True by done. simpl.
        destruct (decide (makeKey se = k)) as [Heq|Hne].
        + subst k. rewrite (onUpdate_cached se b item Hk). cbn [messageCache calls].
          split; [done|]. eexists. split; [done|]. split; [done|]. split.
          * intros se' [= <-] _. left.
          * intros channel embeds [[=]|?%elem_of_nil]%elem_of_cons. done.
        + destruct (onUpdate_effects se b) as (dc & Hc & Hkeep & Hsend).
          split; [by rewrite Hkeep|]. exists [dc].
          split; [done|]. split; [done|]. split.
          * intros se' [= <-] ?. done.
          * intros channel embeds [Heq|?%elem_of_nil]%elem_of_cons; [|done].
            destruct (Hsend _ _ (eq_sym Heq)) as (_ & -> & ->). by exists se.
      - cbn [messageCache calls]. split.
        + rewrite lookup_delete_ne; [done|]. intros ->. done.
        + exists []. rewrite app_nil_r, filter_cons, decide_False by done.
          split_and!; [done|done|by intros ? [=]|].
          intros; by apply elem_of_nil in H. }
    destruct (IH _ Hk1) as (Hk2 & new2 & Hc2 & Hl2 & He2 & Hs2).
    split; [done|]. exists (new1 ++ new2).
    rewrite Hc2, Hc1, app_assoc. split; [done|]. split.
    { rewrite length_app, Hl1, Hl2.
      change (h :: hs) with ([h] ++ hs). by rewrite filter_app, length_app. }
    split.
    + intros se [Heq|Hin]%elem_of_cons Hkey; apply elem_of_app.
      * left. by apply He1.
      * right. by apply He2.
    + intros channel embeds [Hin|Hin]%elem_of_app.
      * destruct (Hs1 _ _ Hin) as (se & -> & ?). exists se. split; [left|done].
      * destruct (Hs2 _ _ Hin) as (se & ? & ?). exists se. split; [by right|done].
Qed.

End Messages.

Lemma cached_message_is_edited_not_sent_witness :
  let se := statsEvent guild1 true (reportABC 2000) detailsABC in
  let b := onUpdate sampleFormat sampleDiscord se
             {| messageCache := ∅; calls := [] |} in
  let hs := [StatsUpdate (statsEvent guild1 true (reportABC 62000) detailsABC);
             ExpireMessage "other";
             StatsUpdate (statsEvent guild1 false (reportABC 62000) detailsABC)] in
  messageCache (foldl (botHappen sampleFormat sampleDiscord) b hs)
    !! makeKey se = Some "m-0".
Proof.
  apply (cached_message_is_edited_not_sent sampleFormat sampleDiscord
           [StatsUpdate (statsEvent guild1 true (reportABC 62000) detailsABC);
            ExpireMessage "other";
            StatsUpdate (statsEvent guild1 false (reportABC 62000) detailsABC)]
           (onUpdate sampleFormat sampleDiscord
              (statsEvent guild1 true (reportABC 2000) detailsABC)
              {| messageCache := ∅; calls := [] |})
           (makeKey (statsEvent guild1 true (reportABC 2000) detailsABC))
           "m-0").
  - vm_compute. reflexivity.
  - repeat constructor; discriminate.
Defined.

Example one_message_per_report_sample :
  let b := foldl (botHappen sampleFormat sampleDiscord)
             {| messageCache := ∅; calls := [] |}
             [StatsUpdate (statsEvent guild1 true (reportABC 2000) detailsABC);
              StatsUpdate (statsEvent guild1 true (reportABC 62000) detailsABC);
              StatsUpdate (statsEvent guild1 false (reportABC 62000) detailsABC)] in
  map (fun c => match c with
                | MessageEdit id _ _ => "edit " +:+ id
                | MessageSend _ _ => "send"
                end) (calls b)
  = ["send"; "edit m-0"; "edit m-0"].
Proof. vm_compute. done. Qed.

(** ** Padding *)

Lemma first_cases c size lo hi :
  first c = Some (size, lo, hi) ->
  (size = 2 ∨ size = 3 ∨ size = 4) ∧ (32 <? lo)%N = true.
Proof.
  unfold first.
  repeat match goal with
         | |- context [if ?b then _ else _] => destruct b
         end; intros Heq; simplify_eq; auto.
Qed.

Lemma runeSize_bounds s : s ≠ [] -> 1 ≤ runeSize s ≤ length s.
Proof.
  destruct s as [|c rest]; [done|]. intros _. unfold runeSize.
  destruct (c <? 128)%N; [simpl; lia|].
  destruct (first c) as [[[size lo] hi]|] eqn:Hf; [|simpl; lia].
  destruct (first_cases _ _ _ _ Hf) as [Hsize _].
  destruct (Nat.ltb_spec (length (c :: rest)) size); [simpl; lia|].
  destruct rest as [|c1 [|c2 [|c3 rest]]];
    destruct Hsize as [-> | [-> | ->]]; simpl in *;
    repeat match goal with
           | |- context [if ?b then _ else _] => destruct b
           end; lia.
Qed.

(** Blanks behind a string neither complete nor break a rune of it. *)
Lemma runeSize_app_blanks s n :
  s ≠ [] -> runeSize (s ++ replicate n 32%N) = runeSize s.
Proof.
  destruct s as [|c rest]; [done|]. intros _. unfold runeSize.
  rewrite <- app_comm_cons.
  destruct (c <? 128)%N; [done|].
  destruct (first c) as [[[size lo] hi]|] eqn:Hf; [|done].
  destruct (first_cases _ _ _ _ Hf) as [Hsize Hlo].
  destruct rest as [|c1 [|c2 [|c3 rest]]];
    destruct Hsize as [-> | [-> | ->]];
    destruct n as [|[|[|n]]]; cbn;
    rewrite ?Hlo; cbn;
    repeat match goal with
           | |- context [if ?b then _ else _] => destruct b; cbn
           end; done.
Qed.

Lemma countRunes_turns t1 t2 s :
  length s ≤ t1 -> length s ≤ t2 -> countRunes t1 s = countRunes t2 s.
Proof.
  revert t2 s. induction t1 as [|t1 IH]; intros t2 s H1 H2.
  - destruct s; [by destruct t2|simpl in H1; lia].
  - destruct s as [|c rest]; [by destruct t2|].
    destruct t2 as [|t2]; [simpl in H2; lia|]. cbn [countRunes]. f_equal.
    pose proof (runeSize_bounds (c :: rest) ltac:(done)).
    apply IH; rewrite length_drop; simpl in *; lia.
Qed.

Lemma countRunes_blanks n t :
  n ≤ t -> countRunes t (replicate n 32%N) = n.
Proof.
  revert t. induction n as [|n IH]; intros t Ht; [by destruct t|].
  destruct t as [|t]; [lia|]. cbn. f_equal. apply IH. lia.
Qed.

Lemma countRunes_app_blanks s n t :
  length s + n ≤ t ->
  countRunes t (s ++ replicate n 32%N) = countRunes (length s) s + n.
Proof.
  remember (length s) as len eqn:Hlen. revert s t Hlen.
  induction len as [len IH] using lt_wf_ind. intros s t -> Ht.
  destruct s as [|c rest]; [by apply countRunes_blanks|].
  destruct t as [|t]; [simpl in Ht; lia|].
  pose proof (runeSize_bounds (c :: rest) ltac:(done)) as Hk.
  assert (runeSize ((c :: rest) ++ replicate n 32%N) = runeSize (c :: rest))
    as Hsize by (by apply runeSize_app_blanks).
  rewrite <- app_comm_cons in *. cbn [countRunes length].
  rewrite Hsize. set (k := runeSize (c :: rest)) in *.
  replace (drop k (c :: rest ++ replicate n 32%N))
    with (drop k (c :: rest) ++ replicate n 32%N).
  2:{ rewrite app_comm_cons, drop_app_le; [done|]. lia. }
  rewrite (IH (length (drop k (c :: rest)))); [| |done|].
  - simpl. f_equal. f_equal. apply countRunes_turns; [done|].
    rewrite length_drop. simpl in *. lia.
  - rewrite length_drop. simpl in *. lia.
  - rewrite length_drop. simpl in *. lia.
Qed.

Lemma countRunes_blanks_app s n t :
  n + length s ≤ t ->
  countRunes t (replicate n 32%N ++ s) = n + countRunes (length s) s.
Proof.
  revert t. induction n as [|n IH]; intros t Ht.
  - simpl. by apply countRunes_turns.
  - destruct t as [|t]; [lia|]. cbn. f_equal. apply IH. lia.
Qed.

Lemma bytes_app (s t : string) : bytes (s +:+ t) = bytes s ++ bytes t.
Proof.
  induction s as [|c s IH]; [done|]. rewrite append_cons. simpl. by rewrite IH.
Qed.

Lemma length_bytes (s : string) : length (bytes s) = String.length s.
Proof. induction s as [|c s IH]; simpl; congruence. Qed.

Lemma bytes_spaces n : bytes (spaces n) = replicate n 32%N.
Proof. induction n as [|n IH]; simpl; [done|]. by rewrite IH. Qed.

Lemma RuneCountInString_append_spaces s n :
  RuneCountInString (s +:+ spaces n) = RuneCountInString s + n.
Proof.
  unfold RuneCountInString. rewrite bytes_app, bytes_spaces.
  rewrite countRunes_app_blanks, length_bytes; [done|].
  rewrite <- length_bytes, bytes_app, bytes_spaces, length_app,
    length_replicate. lia.
Qed.

Lemma RuneCountInString_spaces_append s n :
  RuneCountInString (spaces n +:+ s) = n + RuneCountInString s.
Proof.
  unfold RuneCountInString. rewrite bytes_app, bytes_spaces.
  rewrite countRunes_blanks_app, length_bytes; [done|].
  rewrite <- !length_bytes, bytes_app, bytes_spaces, length_app,
    length_replicate. lia.
Qed.

Lemma padRight_spaces (s : string) (to : Z) :
  padRight s to
  = s +:+ spaces (Z.to_nat (to - Z.of_nat (RuneCountInString s))).
Proof.
  unfold padRight.
  destruct (Z.ltb_spec 0 (to - Z.of_nat (RuneCountInString s))); [done|].
  replace (Z.to_nat (to - Z.of_nat (RuneCountInString s))) with 0 by lia.
  clear. cbn [spaces]. induction s as [|c s IH]; [done|].
  rewrite append_cons. by rewrite <- IH.
Qed.

Lemma padLeft_spaces (s : string) (to : Z) :
  padLeft s to
  = spaces (Z.to_nat (to - Z.of_nat (RuneCountInString s))) +:+ s.
Proof.
  unfold padLeft.
  destruct (Z.ltb_spec 0 (to - Z.of_nat (RuneCountInString s))); [done|].
  by replace (Z.to_nat (to - Z.of_nat (RuneCountInString s))) with 0 by lia.
Qed.

(** X20. [padRight] and [padLeft] never cut a string: they add blanks
    behind it, or before it, and only as many as bring the number of its
    runes up to the width asked for.  The padded string counts as many
    runes as the wider of the string and the width, whatever bytes the
    string is made of, well-formed UTF-8 or not. *)
Theorem padding_fills_up_to_the_width (s : string) (to : Z) :
  let gap := Z.to_nat (to - Z.of_nat (RuneCountInString s)) in
  padRight s to = s +:+ spaces gap ∧
  padLeft s to = spaces gap +:+ s ∧
  Z.of_nat (RuneCountInString (padRight s to))
  = Z.max to (Z.of_nat (RuneCountInString s)) ∧
  Z.of_nat (RuneCountInString (padLeft s to))
  = Z.max to (Z.of_nat (RuneCountInString s)).
Proof.
  cbv zeta. rewrite padRight_spaces, padLeft_spaces.
  rewrite RuneCountInString_append_spaces, RuneCountInString_spaces_append.
  split_and!; [done|done|lia|lia].
Qed.

(** ** The rows of a leaderboard *)

Lemma first_lo c size lo hi :
  first c = Some (size, lo, hi) -> (128 <=? lo)%N = true.
Proof.
  unfold first.
  repeat match goal with
         | |- context [if ?b then _ else _] => destruct b
         end; intros Heq; simplify_eq; auto.
Qed.

Lemma ascii_below_lo x lo :
  (x <? 128)%N = true -> (128 <=? lo)%N = true -> (x <? lo)%N = true.
Proof.
  intros Hx%N.ltb_lt Hlo%N.leb_le. apply N.ltb_lt. lia.
Qed.

Lemma ascii_not_continuation x :
  (x <? 128)%N = true -> continuation x = false.
Proof.
  intros Hx%N.ltb_lt. unfold continuation.
  apply andb_false_iff. left. apply N.leb_gt. lia.
Qed.

(** Bytes below 0x80 behind a string neither complete nor break a rune of
    it. *)
Lemma runeSize_app_ascii s a :
  s ≠ [] -> Forall (fun x => (x <? 128)%N = true) a ->
  runeSize (s ++ a) = runeSize s.
Proof.
  destruct s as [|c rest]; [done|]. intros _ Ha. unfold runeSize.
  rewrite <- app_comm_cons.
  destruct (c <? 128)%N; [done|].
  destruct (first c) as [[[size lo] hi]|] eqn:Hf; [|done].
  destruct (first_cases _ _ _ _ Hf) as [Hsize _].
  pose proof (first_lo _ _ _ _ Hf) as Hlo.
  destruct rest as [|c1 [|c2 [|c3 rest]]];
    destruct Hsize as [-> | [-> | ->]];
    destruct a as [|a1 [|a2 [|a3 a]]];
    repeat match goal with
           | H : Forall _ (_ :: _) |- _ => apply Forall_cons in H as [? H]
           end;
    repeat match goal with
           | H : (?x <? 128)%N = true |- _ =>
               pose proof (ascii_below_lo x lo H Hlo);
               pose proof (ascii_not_continuation x H); clear H
           end;
    cbn -[N.ltb continuation];
    repeat match goal with
           | H : (_ <? lo)%N = true |- _ => rewrite ?H; clear H
           | H : continuation _ = false |- _ => rewrite ?H; clear H
           end;
    cbn -[N.ltb continuation];
    repeat match goal with
           | |- context [if ?b then _ else _] => destruct b; cbn -[N.ltb continuation]
           end; done.
Qed.

Lemma countRunes_ascii a t :
  Forall (fun x => (x <? 128)%N = true) a -> length a ≤ t ->
  countRunes t a = length a.
Proof.
  intros Ha. revert t. induction Ha as [|x a Hx Ha IH]; intros t Ht;
    [by destruct t|].
  destruct t as [|t]; [simpl in Ht; lia|]. cbn -[N.ltb]. rewrite Hx. cbn.
  f_equal. apply IH. simpl in Ht. lia.
Qed.

Lemma countRunes_app_ascii s a t :
  Forall (fun x => (x <? 128)%N = true) a ->
  length s + length a ≤ t ->
  countRunes t (s ++ a) = countRunes (length s) s + length a.
Proof.
  intros Ha. remember (length s) as len eqn:Hlen. revert s t Hlen.
  induction len as [len IH] using lt_wf_ind. intros s t -> Ht.
  destruct s as [|c rest]; [by apply countRunes_ascii|].
  destruct t as [|t]; [simpl in Ht; lia|].
  pose proof (runeSize_bounds (c :: rest) ltac:(done)) as Hk.
  assert (runeSize ((c :: rest) ++ a) = runeSize (c :: rest))
    as Hsize by (by apply runeSize_app_ascii).
  rewrite <- app_comm_cons in *. cbn [countRunes length].
  rewrite Hsize. set (k := runeSize (c :: rest)) in *.
  replace (drop k (c :: rest ++ a)) with (drop k (c :: rest) ++ a).
  2:{ rewrite app_comm_cons, drop_app_le; [done|]. lia. }
  rewrite (IH (length (drop k (c :: rest)))); [| |done|].
  - simpl. f_equal. f_equal. apply countRunes_turns; [done|].
    rewrite length_drop. simpl in *. lia.
  - rewrite length_drop. simpl in *. lia.
  - rewrite length_drop. simpl in *. lia.
Qed.

Lemma RuneCountInString_append_ascii s t :
  Forall (fun x => (x <? 128)%N = true) (bytes t) ->
  RuneCountInString (s +:+ t) = RuneCountInString s + String.length t.
Proof.
  intros Ht. unfold RuneCountInString. rewrite bytes_app.
  rewrite countRunes_app_ascii, !length_bytes; [done|done|].
  rewrite <- !length_bytes, bytes_app, length_app. lia.
Qed.

Lemma RuneCountInString_ascii t :
  Forall (fun x => (x <? 128)%N = true) (bytes t) ->
  RuneCountInString t = String.length t.
Proof.
  intros Ht. unfold RuneCountInString.
  rewrite countRunes_ascii, length_bytes; [done|done|].
  by rewrite length_bytes.
Qed.

Lemma digit_ascii d :
  (0 ≤ d < 10)%Z -> (Ascii.N_of_ascii (digit d) <? 128)%N = true.
Proof.
  intros Hd. unfold digit. rewrite Ascii.N_ascii_embedding by lia.
  apply N.ltb_lt. lia.
Qed.

Lemma formatBits_spec turns u a k :
  (0 ≤ u < 10 ^ Z.of_nat k)%Z -> 1 ≤ k ≤ turns ->
  Forall (fun x => (x <? 128)%N = true) (bytes a) ->
  Forall (fun x => (x <? 128)%N = true) (bytes (formatBits turns u a)) ∧
  String.length a < String.length (formatBits turns u a)
  ≤ k + String.length a.
Proof.
  revert u a k. induction turns as [|turns IH]; intros u a k Hu Hk Ha; [lia|].
  cbn [formatBits]. destruct (Z.ltb_spec u 10) as [Hlt|Hge].
  - split.
    + simpl. constructor; [apply digit_ascii; lia|done].
    + simpl. lia.
  - destruct k as [|[|k]]; [lia| |].
    { change (10 ^ Z.of_nat 1)%Z with 10%Z in Hu. lia. }
    destruct (IH (u / 10)%Z (String (digit (u mod 10)) a) (S k))
      as [Hascii Hlen].
    + split; [apply Z.div_pos; lia|].
      apply Z.div_lt_upper_bound; [lia|].
      replace (Z.of_nat (S (S k))) with (1 + Z.of_nat (S k))%Z in Hu by lia.
      rewrite Z.pow_add_r in Hu by lia. change (10 ^ 1)%Z with 10%Z in Hu. lia.
    + lia.
    + simpl. constructor; [|done]. apply digit_ascii.
      apply Z.mod_pos_bound. lia.
    + split; [done|]. simpl in Hlen. lia.
Qed.

Lemma Itoa_spec (i : Z) :
  (- 10 ^ 11 < i < 10 ^ 12)%Z ->
  Forall (fun x => (x <? 128)%N = true) (bytes (Itoa i)) ∧
  1 ≤ String.length (Itoa i) ≤ 12.
Proof.
  intros Hi. unfold Itoa. destruct (Z.ltb_spec i 0) as [Hneg|Hpos].
  - destruct (formatBits_spec 20 (- i) "" 11) as [Hascii Hlen];
      [change (Z.of_nat 11) with 11%Z; lia|lia|constructor|].
    rewrite append_cons, append_nil_l. split.
    + simpl. constructor; [done|done].
    + simpl in *. lia.
  - destruct (formatBits_spec 20 i "" 12) as [Hascii Hlen];
      [change (Z.of_nat 12) with 12%Z; lia|lia|constructor|].
    split; [done|]. simpl in *. lia.
Qed.

Lemma append_assoc (s t u : string) : (s +:+ t) +:+ u = s +:+ t +:+ u.
Proof.
  induction s as [|c s IH]; [done|]. rewrite !append_cons. by rewrite IH.
Qed.

Lemma append_nil_r (s : string) : s +:+ "" = s.
Proof. induction s as [|c s IH]; [done|]. rewrite append_cons. by rewrite IH. Qed.

Lemma bytes_spaces_ascii n :
  Forall (fun x => (x <? 128)%N = true) (bytes (spaces n)).
Proof. rewrite bytes_spaces. by apply Forall_replicate. Qed.

Lemma length_append (s t : string) :
  String.length (s +:+ t) = String.length s + String.length t.
Proof. by rewrite <- !length_bytes, bytes_app, length_app. Qed.

Lemma length_spaces n : String.length (spaces n) = n.
Proof. by rewrite <- length_bytes, bytes_spaces, length_replicate. Qed.

Lemma formatRows_spec top i len sb :
  (i + Z.of_nat (length top) = len)%Z ->
  formatRows top i len sb
  = sb +:+ String.concat newline (formatRow <$> top).
Proof.
  revert i sb. induction top as [|t top IH]; intros i sb Hlen.
  - simpl. by rewrite append_nil_r.
  - cbn [formatRows]. rewrite IH by (simpl in Hlen; lia).
    rewrite fmap_cons. unfold formatRow at 2.
    destruct top as [|t' top].
    + rewrite decide_False by (simpl in Hlen; lia).
      cbn [fmap list_fmap String.concat]. by rewrite append_nil_r, !append_assoc.
    + rewrite decide_True by (simpl in Hlen; lia).
      cbn [fmap list_fmap String.concat]. by rewrite !append_assoc.
Qed.

(** X21. [formatTop] writes the rows of a leaderboard between two code
    fences, one row per entry in the order of the board, with a line break
    between two rows and none behind the last; an empty board is one blank
    between the fences.  A row whose name has at most twelve runes and
    whose count has at most twelve characters is exactly twenty-four runes
    wide, the name flush left and the count flush right. *)
Theorem formatTop_rows_line_up (top : list PlayerTop) :
  formatTop top
  = (if decide (top = []) then "``` ```"
     else "```" +:+ String.concat newline (formatRow <$> top) +:+ "```") ∧
  ∀ t, t ∈ top ->
    RuneCountInString (Name t) ≤ 12 ->
    (- 10 ^ 11 < Value t < 10 ^ 12)%Z ->
    RuneCountInString (formatRow t) = 24 ∧
    ∃ gap1 gap2,
      formatRow t = Name t +:+ spaces gap1 +:+ spaces gap2 +:+ Itoa (Value t) ∧
      RuneCountInString (Name t) + gap1 = 12 ∧
      gap2 + String.length (Itoa (Value t)) = 12.
Proof.
  split.
  - unfold formatTop. destruct top as [|t top]; [done|].
    rewrite decide_False by done. rewrite decide_False by done.
    rewrite formatRows_spec by (simpl; lia). by rewrite append_assoc.
  - intros t _ Hname Hvalue.
    destruct (Itoa_spec (Value t) Hvalue) as [Hascii Hlen].
    pose proof (RuneCountInString_ascii _ Hascii) as Hcount.
    unfold formatRow. rewrite padRight_spaces, padLeft_spaces, Hcount.
    set (gap1 := Z.to_nat (12 - Z.of_nat (RuneCountInString (Name t)))).
    set (gap2 := Z.to_nat (12 - Z.of_nat (String.length (Itoa (Value t))))).
    split.
    + rewrite append_assoc.
      assert (Forall (fun x => (x <? 128)%N = true)
                (bytes (spaces gap1 +:+ spaces gap2 +:+ Itoa (Value t))))
        as Hall.
      { rewrite !bytes_app, !Forall_app.
        split_and!; [apply bytes_spaces_ascii..|done]. }
      rewrite (RuneCountInString_append_ascii _ _ Hall).
      rewrite !length_append, !length_spaces. lia.
    + exists gap1, gap2. split; [by rewrite append_assoc|lia].
Qed.

(** ** Joining a guild *)


Section Joining.

Variable Unmarshal : string -> storage.Server.


End Joining.


Example onGuildCreate_sample :
  (onGuildCreate sampleUnmarshalServer txOk "bot"
     (fun _ => (2000 * Second)%Z) (Ok sampleHistory) "guild-1"
     {| db := Some {["guild-1" := sampleMarshal guild1]}; w := New;
        messages := ∅ |})
  = Some {| db := Some {["guild-1" := sampleMarshal guild1]};
            w := Watch New guild1;
            messages := {["guild-1raid-logsABC" := "m-8"]} |}.
Proof. vm_compute. done. Qed.

(** ** From the watch loop to the channel *)

Lemma happen_server server h l :
  (∀ e, e ∈ handled l -> Server e = server) ->
  ∀ e, e ∈ handled (happen server l h) -> Server e = server.
Proof.
  intros Hl. destruct h as [[found|err] ticks|k]; cbn [happen]; [|done..].
  rewrite checkChanges_iterate.
  destruct (iterate_events server
              (imap (fun k r => (ticks k, r)) (deleteNonRaid found))
              (log (LogLoadedReports (length (deleteNonRaid found))) l))
    as (new & -> & Hnew).
  intros e [He|He]%elem_of_app; [by apply Hl|].
  destruct (Hnew e He) as (it & d & _ & _ & _ & ->). done.
Qed.

Lemma watchLoop_server server hs e :
  e ∈ handled (watchLoop server hs) -> Server e = server.
Proof.
  unfold watchLoop.
  cut (∀ l, (∀ e, e ∈ handled l -> Server e = server) ->
            ∀ e, e ∈ handled (foldl (happen server) l hs) -> Server e = server).
  { intros H. apply H. by intros ? ?%elem_of_nil. }
  induction hs as [|h hs IH]; intros l Hl; [done|].
  cbn [foldl]. apply IH. by apply happen_server.
Qed.

Lemma size_difference_fresh (r : string) (reports known : gset string) :
  r ∉ known ->
  size (({[r]} ∪ reports) ∖ known)
  = 1 + size (reports ∖ ({[r]} ∪ known)).
Proof.
  intros Hr.
  replace (({[r]} ∪ reports) ∖ known)
    with ({[r]} ∪ (reports ∖ ({[r]} ∪ known)) : gset string).
  2:{ apply set_eq. intros x.
      rewrite !elem_of_union, !elem_of_difference, !elem_of_union,
        !elem_of_singleton.
      destruct (decide (x = r)) as [->|]; tauto. }
  rewrite size_union, size_singleton; [done|].
  intros x Hx%elem_of_singleton [_ Hn]%elem_of_difference.
  apply Hn, elem_of_union. left. by apply elem_of_singleton.
Qed.

Lemma size_difference_known (r : string) (reports known : gset string) :
  r ∈ known ->
  size (({[r]} ∪ reports) ∖ known) = size (reports ∖ known).
Proof.
  intros Hr. f_equal. apply set_eq. intros x.
  rewrite !elem_of_difference, elem_of_union, elem_of_singleton.
  split; [|tauto]. intros [[->|?] ?]; tauto.
Qed.

Section Channel.

Variable Format : Z -> string -> string.
Variable discord : nat -> Result string.

Lemma updates_sends (server : storage.Server) (evs : list StatsEvent)
    (b : Bot) (known : gset string) :
  (∀ k, ∃ id, discord k = Ok id) ->
  (∀ e, e ∈ evs -> Server e = server) ->
  (∀ r, is_Some (messageCache b !! (storage.ServerId server
                                    +:+ storage.ChannelId server +:+ r))
        ↔ r ∈ known) ->
  ∃ new,
    calls (foldl (fun b se => onUpdate Format discord se b) b evs)
    = calls b ++ new ∧
    length new = length evs ∧
    length (filter (fun c => isSend c = true) new)
    = size (list_to_set (ReportId <$> evs) ∖ known).
Proof.
  intros Hok. revert b known.
  induction evs as [|e evs IH]; intros b known Hsrv Hknown.
  - exists []. rewrite app_nil_r. split_and!; [done..|].
    simpl. replace ((∅ : gset string) ∖ known) with (∅ : gset string).
    + by rewrite size_empty.
    + apply set_eq. intros x. rewrite elem_of_difference, elem_of_empty. tauto.
  - cbn [foldl]. unfold onUpdate at 2, makeKey.
    rewrite (Hsrv e) by left.
    assert (∀ e', e' ∈ evs -> Server e' = server) as Hsrv'
      by (intros e' ?; apply Hsrv; by right).
    destruct (messageCache b !! _) as [item|] eqn:Hc.
    + destruct (IH {| messageCache := messageCache b;
                      calls := calls b ++ [MessageEdit item
                                 (storage.ChannelId server)
                                 [constructEmbed Format e]] |} known Hsrv')
        as (new & Hcalls & Hlen & Hsends); [done|].
      eexists (_ :: new). cbn [calls] in Hcalls.
      rewrite Hcalls, <- app_assoc. split; [done|]. split; [simpl; lia|].
      rewrite filter_cons, decide_False by done. rewrite Hsends.
      rewrite fmap_cons. cbn [list_to_set].
      symmetry. apply size_difference_known. apply Hknown. by rewrite Hc.
    + destruct (Hok (length (calls b))) as [id ->].
      destruct (IH {| messageCache :=
                        <[storage.ServerId server +:+ storage.ChannelId server
                          +:+ ReportId e := id]> (messageCache b);
                      calls := calls b ++ [MessageSend
                                 (storage.ChannelId server)
                                 [constructEmbed Format e]] |}
                  ({[ReportId e]} ∪ known) Hsrv')
        as (new & Hcalls & Hlen & Hsends).
      { intros r. cbn [messageCache].
        destruct (decide (r = ReportId e)) as [->|Hne].
        - rewrite lookup_insert_eq. split; [|by eexists].
          intros _. apply elem_of_union. left. by apply elem_of_singleton.
        - rewrite lookup_insert_ne.
          + rewrite Hknown, elem_of_union, elem_of_singleton. tauto.
          + intros Heq. apply (inj (String.app _)) in Heq.
            apply (inj (String.app _)) in Heq. done. }
      eexists (_ :: new). cbn [calls] in Hcalls.
      rewrite Hcalls, <- app_assoc. split; [done|]. split; [simpl; lia|].
      rewrite filter_cons, decide_True by done. cbn [length]. rewrite Hsends.
      rewrite fmap_cons. cbn [list_to_set].
      symmetry. apply size_difference_fresh.
      intros Hin. apply Hknown in Hin as [? Hin]. by rewrite Hc in Hin.
Qed.

(** X23. From the watch loop to the channel.  Let the updates that a watch
    loop hands over, through any cycles and expiries of its report cache,
    reach a bot that remembers no message yet, Discord accepting every call
    and no message key expiring meanwhile.  Then the bot makes one call per
    update, and among these calls exactly one [MessageSend] for each
    report that the updates are about; every other call edits a message. *)
Theorem one_message_per_report (server : storage.Server)
    (hs : list Happening) :
  (∀ k, ∃ id, discord k = Ok id) ->
  let events := handled (watchLoop server hs) in
  let b := foldl (fun b se => onUpdate Format discord se b) newBot events in
  length (calls b) = length events ∧
  length (filter (fun c => isSend c = true) (calls b))
  = size (list_to_set (ReportId <$> events) : gset string).
Proof.
  intros Hok. cbv zeta.
  destruct (updates_sends server (handled (watchLoop server hs)) newBot ∅ Hok)
    as (new & Hcalls & Hlen & Hsends).
  - intros e. apply watchLoop_server.
  - intros r. cbn [newBot messageCache]. rewrite lookup_empty.
    split; [by intros [? ?]|by intros ?%elem_of_empty].
  - rewrite Hcalls. cbn [newBot calls app]. split; [done|].
    rewrite Hsends. f_equal. apply set_eq. intros x.
    rewrite elem_of_difference, elem_of_empty. tauto.
Qed.

End Channel.

Lemma one_message_per_report_witness :
  let events := handled (watchLoop guild1
                           [pollABC 2000 1; pollABC 62000 1; pollABC 62000 16]) in
  let b := foldl (fun b se => onUpdate sampleFormat sampleDiscord se b)
             newBot events in
  length (calls b) = length events ∧
  length (filter (fun c => isSend c = true) (calls b))
  = size (list_to_set (ReportId <$> events) : gset string).
Proof.
  apply (one_message_per_report sampleFormat sampleDiscord guild1
           [pollABC 2000 1; pollABC 62000 1; pollABC 62000 16]).
  intros k. eexists. reflexivity.
Defined.

(** ** A token in use *)

Lemma gql_with_fresh_token {A} net query vars
    (out : option (string -> Result A)) (s : Run) :
  Fresh (client s) (clock net (clockReads s)) ->
  others net (lockings s) (client s) = client s ->
  (∀ resp, graphql net (length (posted s))
             {| AuthToken := token (client s);
                ReqBody := {| Query := query; Variables := vars |} |}
           = Ok resp -> StatusCode resp ≠ 401%Z) ->
  let r := gql net query vars out s in
  client r.2 = client s ∧
  exchanges r.2 = exchanges s ∧
  clockReads r.2 = S (clockReads s) ∧
  lockings r.2 = S (lockings s) ∧
  posted r.2 = posted s ++ [{| AuthToken := token (client s);
                               ReqBody := {| Query := query;
                                             Variables := vars |} |}].
Proof.
  intros Hf Hid H401. cbv zeta.
  assert (readsAfterCheck (client s) (clockReads s) = S (clockReads s)) as Hr.
  { unfold readsAfterCheck. destruct Hf as [Hne _]. by rewrite decide_False. }
  unfold gql, bind. rewrite ensureToken_spec.
  rewrite bool_decide_eq_true_2 by done.
  rewrite doOnce_spec. cbv zeta. simpl. rewrite Hid, Hr.
  destruct (graphql net (length (posted s)) _) as [resp|e] eqn:Hg; [|done].
  rewrite decide_False by (by apply H401). done.
Qed.

(** X24. As long as the stored token passes the freshness check at every
    reading of the clock, no other goroutine replaces it and no request
    that carries it is answered 401, any number of queries made one after
    the other exchange no credentials and leave the client as it is: each
    sends exactly one request, with the stored token and its own query and
    variables. *)
Theorem fresh_token_is_reused {A} (net : Net)
    (unmarshal : string -> Result A)
    (qs : list (string * gmap string Var)) (s : Run) :
  (∀ k, clockReads s ≤ k < clockReads s + length qs ->
        Fresh (client s) (clock net k)) ->
  (∀ k, lockings s ≤ k < lockings s + length qs ->
        others net k (client s) = client s) ->
  (∀ k rq resp, AuthToken rq = token (client s) ->
                graphql net k rq = Ok resp -> StatusCode resp ≠ 401%Z) ->
  let out := gqlAll net unmarshal qs s in
  length out.1 = length qs ∧
  client out.2 = client s ∧
  exchanges out.2 = exchanges s ∧
  posted out.2
  = posted s ++ ((fun q => {| AuthToken := token (client s);
                              ReqBody := {| Query := q.1;
                                            Variables := q.2 |} |}) <$> qs).
Proof.
  intros Hf Hid H401. cbv zeta. revert s Hf Hid H401.
  induction qs as [|q qs IH]; intros s Hf Hid H401.
  - simpl. by rewrite app_nil_r.
  - cbn [gqlAll].
    destruct (gql_with_fresh_token net q.1 q.2 (Some unmarshal) s)
      as (Hc & He & Hr & Hl & Hp).
    { apply Hf. simpl. lia. }
    { apply Hid. simpl. lia. }
    { intros resp. by apply H401. }
    destruct (gql net q.1 q.2 (Some unmarshal) s) as [r s'].
    simpl in Hc, He, Hr, Hl, Hp.
    destruct (IH s') as (Hlen & Hc' & He' & Hp').
    { intros k Hk. rewrite Hc. apply Hf. simpl. lia. }
    { intros k Hk. rewrite Hc. apply Hid. simpl. lia. }
    { intros k rq resp. rewrite Hc. apply H401. }
    destruct (gqlAll net unmarshal qs s') as [rs s''].
    simpl in *. rewrite Hlen, Hc', He', Hp', Hc, He, Hp, <- app_assoc. done.
Qed.

Lemma fresh_token_is_reused_witness :
  let out := gqlAll sampleNet (fun data => Ok data)
               [("reports", ∅); ("fights", ∅); ("events", ∅)]
               (startRun freshClient) in
  length out.1 = 3 ∧
  client out.2 = freshClient ∧
  exchanges out.2 = 0 ∧
  posted out.2
  = [] ++ ((fun q => {| AuthToken := "new";
                        ReqBody := {| Query := q.1; Variables := q.2 |} |})
           <$> [("reports", ∅); ("fights", ∅); ("events", ∅)]).
Proof.
  apply (fresh_token_is_reused sampleNet (fun data => Ok data)
           [("reports", ∅); ("fights", ∅); ("events", ∅)]
           (startRun freshClient)).
  - intros k Hk. simpl in Hk. split; [done|].
    assert (k = 0 ∨ k = 1 ∨ k = 2) as [-> | [-> | ->]] by lia;
      vm_compute; reflexivity.
  - reflexivity.
  - intros k rq resp Htok. simpl in Htok. simpl. rewrite Htok.
    intros [= <-]. simpl. discriminate.
Defined.
